(** * bb-market-cache: the market-overview and coin-tickers endpoints

    A shallow embedding of [api/market-overview.js] and [api/coin-tickers.js]
    and the properties their specification states about them.

    Modelling conventions.
    - A JavaScript number is a [num]: NaN, the two infinities, or a finite
      value held as a rational in lowest terms.  Arithmetic is that of IEEE
      754 binary64: the exact result of an operation on finite operands is
      rounded to the nearest binary64 number, a tie going to the even
      significand, and overflows to an infinity ([binary64]).  The sign of
      zero is not modelled: this code divides by array lengths and by 2
      only, and nothing else it does tells [-0] from [+0].
    - A JSON document is a [value]; a missing property reads as [VUndef].  A
      number of a document is the [num] that the parser made of it; a
      property that depends on its being a binary64 number says so
      ([representable]).
    - The built-in coercions whose result depends on the language's string
      grammar or on Unicode tables ([Number] of a string or of an array,
      [String.prototype.toUpperCase]) are the fields of the class [Builtins];
      every property below holds for all instances.
    - A nullable number ([number | null]) is an [option num].

    The repository holds two revisions of [api/market-overview.js]; they
    share [handler], and the fuller one, which also fetches the converter
    prices and derives the mood, the snapshot and the coin rows, is the one
    embedded here. *)

From Stdlib Require Import QArith Qpower Qround Qreduction Qabs Qminmax Lqa.
From stdpp Require Import gmap strings list sorting.

(** ** Numbers *)

Inductive num : Type :=
  | NaN
  | PInf
  | NInf
  | Fin (q : Q).

Definition fin (q : Q) : num := Fin (Qred q).

Definition of_Z (z : Z) : num := Fin (inject_Z z).
Definition of_nat (n : nat) : num := of_Z (Z.of_nat n).

Definition Number_isFinite (x : num) : bool :=
  match x with Fin _ => true | _ => false end.

Definition Qsign (q : Q) : comparison := (q ?= 0)%Q.

(** *** Rounding to binary64

    A positive real [q] with [2^l <= q < 2^(l+1)] is rounded on the grid of
    the multiples of [2^e], where [e = l - 52] for a normal number and
    [e = -1074] for a subnormal one; a result of [2^1024] or more is an
    overflow. *)

Definition pow2 (e : Z) : Q := (2 ^ e)%Q.

(** The [l] with [2^l <= q < 2^(l+1)], for a positive [q]. *)
Definition ilog2 (q : Q) : Z :=
  let l := (Z.log2 (Qnum q) - Z.log2 (Zpos (Qden q)))%Z in
  if Qle_bool (pow2 l) q then l else (l - 1)%Z.

(** The nearest integer, a tie going to the even one. *)
Definition nearest_even (x : Q) : Z :=
  let f := Qfloor x in
  match (x - inject_Z f ?= 1 # 2)%Q with
  | Lt => f
  | Gt => (f + 1)%Z
  | Eq => if Z.even f then f else (f + 1)%Z
  end.

Definition exponent (q : Q) : Z := Z.max (ilog2 q - 52) (-1074).

Definition significand (q : Q) : Z := nearest_even (q / pow2 (exponent q)).

Definition round_pos (q : Q) : num :=
  let v := (inject_Z (significand q) * pow2 (exponent q))%Q in
  if Qle_bool (pow2 1024) v then PInf else fin v.

Definition opp (a : num) : num :=
  match a with
  | NaN => NaN
  | PInf => NInf
  | NInf => PInf
  | Fin q => fin (- q)
  end.

(** The binary64 number nearest to the real [q]. *)
Definition binary64 (q : Q) : num :=
  match (q ?= 0)%Q with
  | Eq => Fin 0
  | Gt => round_pos q
  | Lt => opp (round_pos (- q))
  end.

(** *** Arithmetic *)

Definition num_add (a b : num) : num :=
  match a, b with
  | NaN, _ | _, NaN => NaN
  | PInf, NInf | NInf, PInf => NaN
  | PInf, _ | _, PInf => PInf
  | NInf, _ | _, NInf => NInf
  | Fin x, Fin y => binary64 (x + y)
  end.

Definition num_sub (a b : num) : num :=
  match a, b with
  | NaN, _ | _, NaN => NaN
  | PInf, PInf | NInf, NInf => NaN
  | PInf, _ | _, NInf => PInf
  | NInf, _ | _, PInf => NInf
  | Fin x, Fin y => binary64 (x - y)
  end.

(** The infinity of the given sign; a zero sign is the invalid product
    [0 * Infinity]. *)
Definition inf_of_sign (s : comparison) : num :=
  match s with Gt => PInf | Lt => NInf | Eq => NaN end.

Definition num_sign (a : num) : comparison :=
  match a with
  | NaN => Eq
  | PInf => Gt
  | NInf => Lt
  | Fin x => Qsign x
  end.

Definition sign_mul (s t : comparison) : comparison :=
  match s, t with
  | Eq, _ | _, Eq => Eq
  | Gt, Gt | Lt, Lt => Gt
  | _, _ => Lt
  end.

Definition num_mul (a b : num) : num :=
  match a, b with
  | NaN, _ | _, NaN => NaN
  | Fin x, Fin y => binary64 (x * y)
  | _, _ => inf_of_sign (sign_mul (num_sign a) (num_sign b))
  end.

Definition num_div (a b : num) : num :=
  match a, b with
  | NaN, _ | _, NaN => NaN
  | Fin x, Fin y =>
      if Qeq_bool y 0 then inf_of_sign (Qsign x) else binary64 (x / y)
  | Fin _, _ => Fin 0%Q
  | _, Fin y =>
      if Qeq_bool y 0 then a else inf_of_sign (sign_mul (num_sign a) (Qsign y))
  | _, _ => NaN
  end.

(** [num_compare a b] is [None] when the operands are unordered. *)
Definition num_compare (a b : num) : option comparison :=
  match a, b with
  | NaN, _ | _, NaN => None
  | PInf, PInf | NInf, NInf => Some Eq
  | PInf, _ | _, NInf => Some Gt
  | NInf, _ | _, PInf => Some Lt
  | Fin x, Fin y => Some (x ?= y)%Q
  end.

Definition num_gt (a b : num) : bool :=
  match num_compare a b with Some Gt => true | _ => false end.
Definition num_ge (a b : num) : bool :=
  match num_compare a b with Some Gt | Some Eq => true | _ => false end.
Definition num_le (a b : num) : bool :=
  match num_compare a b with Some Lt | Some Eq => true | _ => false end.

Definition Math_max (a b : num) : num :=
  match num_compare a b with
  | None => NaN
  | Some Lt => b
  | Some _ => a
  end.

Definition Math_min (a b : num) : num :=
  match num_compare a b with
  | None => NaN
  | Some Gt => b
  | Some _ => a
  end.

(** [Math.round]: the nearest integer, a tie going towards +Infinity.  The
    integer nearest to a binary64 number is a binary64 number. *)
Definition Math_round (a : num) : num :=
  match a with
  | Fin x => of_Z (Qfloor (x + (1 # 2))%Q)
  | _ => a
  end.

(** [Number(x.toFixed(2))]: [toFixed] picks the integer [n] with [n / 100]
    closest to [|x|], the larger one on a tie, and keeps the sign; [Number]
    reads the decimal string back as the nearest binary64 number. *)
Definition toFixed2 (a : num) : num :=
  match a with
  | Fin x =>
      let n := Qfloor (Qabs x * 100 + (1 # 2))%Q in
      match Qsign x with
      | Lt => binary64 (- (inject_Z n / 100))%Q
      | _ => binary64 (inject_Z n / 100)%Q
      end
  | _ => a
  end.

(** ** Values *)

Local Set Warnings "-register-all".

Inductive value : Type :=
  | VUndef
  | VNull
  | VBool (b : bool)
  | VNum (n : num)
  | VStr (s : string)
  | VArr (elems : list value)
  | VObj (props : list (string * value)).

Class Builtins : Type := {
  (** [Number(s)] for a string [s] *)
  StringToNumber : string → num;
  (** [String(v)] *)
  ToString : value → string;
  (** [s.toUpperCase()] *)
  toUpperCase : string → string;
}.

Section coercions.
Context `{Builtins}.

(** [Number(v)].  An array converts through [join(",")]: the empty array
    and [[null]] give the empty string, hence 0; a single element converts
    as its own string does; two elements or more give a string with a comma,
    hence NaN.  A plain object converts through ["[object Object]"]. *)
Fixpoint Number (v : value) : num :=
  match v with
  | VUndef => NaN
  | VNull => Fin 0%Q
  | VBool b => if b then Fin 1%Q else Fin 0%Q
  | VNum n => n
  | VStr s => StringToNumber s
  | VArr [] => Fin 0%Q
  | VArr [x] =>
      match x with
      | VUndef | VNull => Fin 0%Q
      | VBool _ => NaN
      | _ => Number x
      end
  | VArr _ => NaN
  | VObj _ => NaN
  end.
End coercions.

(** Truthiness, as tested by [!], [&&], [||] and [if]. *)
Definition truthy (v : value) : bool :=
  match v with
  | VUndef | VNull => false
  | VBool b => b
  | VNum NaN => false
  | VNum (Fin q) => negb (Qeq_bool q 0)
  | VNum _ => true
  | VStr s => negb (String.eqb s "")
  | VArr _ | VObj _ => true
  end.

(** [a || b] *)
Definition or_else (a b : value) : value := if truthy a then a else b.

(** [a ?? b] on values *)
Definition nullish (v : value) : bool :=
  match v with VUndef | VNull => true | _ => false end.
Definition coalesce (a b : value) : value := if nullish a then b else a.

Fixpoint assoc (k : string) (props : list (string * value)) : value :=
  match props with
  | [] => VUndef
  | (k', v) :: rest => if String.eqb k k' then v else assoc k rest
  end.

(** [v.k] for [v] neither null nor undefined: none of the property names
    read by this code is defined on a primitive or on an array. *)
Definition get (v : value) (k : string) : value :=
  match v with
  | VObj props => assoc k props
  | _ => VUndef
  end.

(** [v?.k] *)
Definition opt_get (v : value) (k : string) : value :=
  if nullish v then VUndef else get v k.

(** [typeof v === "number"] *)
Definition is_number (v : value) : bool :=
  match v with VNum _ => true | _ => false end.

(** [a === b] where [b] is a string literal *)
Definition strict_eq_str (a : value) (s : string) : bool :=
  match a with VStr s' => String.eqb s' s | _ => false end.

Definition of_nullable (n : option num) : value :=
  match n with Some x => VNum x | None => VNull end.

(** ** Arrays *)

(** [arr[i]] read as a number: an index out of range reads [undefined]. *)
Definition arr_at (arr : list num) (i : nat) : num := default NaN (arr !! i).

(** [Array.prototype.sort(comparefn)].  The sort is stable, and [x] is placed
    after [y] when [comparefn(x, y) > 0], a NaN result counting as [+0].  For a
    consistent comparator this determines the result, which the insertion
    below computes.  For a comparator that is not consistent (one that returns
    NaN on some pairs and a sign on others) the language leaves the order to
    the engine: the result is then only known to be a permutation of the
    array. *)
Fixpoint sort_insert {A} (comparefn : A → A → num) (x : A) (l : list A) : list A :=
  match l with
  | [] => [x]
  | y :: l' =>
      if num_gt (comparefn x y) (Fin 0) then y :: sort_insert comparefn x l'
      else x :: y :: l'
  end.

Definition Array_sort {A} (comparefn : A → A → num) (l : list A) : list A :=
  foldr (sort_insert comparefn) [] l.

(** [.filter(Boolean)] on an array of objects and nulls *)
Definition filter_Boolean {A} (l : list (option A)) : list A := omap (λ x, x) l.

(** [new Map(entries)]: entries are set from left to right, a later entry
    replacing an earlier one with the same key. *)
Definition Map_new {V} (entries : list (string * V)) : gmap string V :=
  foldl (λ m kv, <[kv.1 := kv.2]> m) ∅ entries.

(** [arr || []] for an array that may be null or undefined *)
Definition or_empty {A} (arr : option (list A)) : list A := default [] arr.

(** ** Effects

    An asynchronous function body runs in [M C A]: it threads the log of the
    upstream calls of type [C] issued so far and either returns or throws. *)

Inductive exn : Type :=
  | Error (msg : string)     (* [throw new Error(msg)] *)
  | TypeError                (* a property read on null/undefined, a call of a non-function *)
  | Rejected.                (* a rejected [fetch()] or [.json()] promise *)

Definition M (C A : Type) : Type := list C → (exn + A) * list C.

Definition ret {C A} (a : A) : M C A := λ log, (inr a, log).
Definition throw {C A} (e : exn) : M C A := λ log, (inl e, log).
Definition bind {C A B} (m : M C A) (k : A → M C B) : M C B :=
  λ log,
    match m log with
    | (inr a, log') => k a log'
    | (inl e, log') => (inl e, log')
    end.

Declare Scope js_scope.
Delimit Scope js_scope with js.
Notation "'let*' x ':=' m 'in' k" := (bind m (λ x, k))
  (at level 10, x name, m at level 100, k at level 200) : js_scope.

(** A settled HTTP response: [ok] and [status], and what [.json()] resolves
    to ([None] when it rejects). *)
Record FetchResponse (A : Type) : Type := {
  ok : bool;
  status : Z;
  json : option A;
}.
Arguments ok {A} _.
Arguments status {A} _.
Arguments json {A} _.

(** [fetch(url)]: the call is issued at once; the promise it returns settles
    to the upstream's answer ([None] when the promise rejects). *)
Definition fetch {C A} (c : C) (answer : option (FetchResponse A))
  : M C (option (FetchResponse A)) :=
  λ log, (inr answer, log ++ [c]).

Definition await {C A} (promise : option A) : M C A :=
  match promise with
  | Some a => ret a
  | None => throw Rejected
  end.

(** [v.k], which throws on null and undefined *)
Definition prop {C} (v : value) (k : string) : M C value :=
  if nullish v then throw TypeError else ret (get v k).

Fixpoint mapM {C A B} (f : A → M C B) (l : list A) : M C (list B) :=
  match l with
  | [] => ret []
  | x :: l' => (let* y := f x in let* ys := mapM f l' in ret (y :: ys))%js
  end.

Fixpoint filterM {C A} (f : A → M C bool) (l : list A) : M C (list A) :=
  match l with
  | [] => ret []
  | x :: l' =>
      (let* b := f x in let* ys := filterM f l' in ret (if b then x :: ys else ys))%js
  end.

(** ** api/market-overview.js *)

Module MarketOverview.

Definition CACHE_TTL_MS : Z := 5 * 60 * 1000.

(** One element of the listings document, with the fields the code reads. *)
Record MarketAsset : Type := {
  asset_id : string;
  asset_name : value;
  asset_symbol : value;
  current_price : value;
  market_cap : value;
  price_change_percentage_24h_in_currency : value;
  price_change_percentage_7d_in_currency : value;
  price_change_percentage_30d_in_currency : value;
}.

Record Top3Entry : Type := {
  snap_id : string;
  snap_name : value;
  snap_symbol : value;
  priceUsd : option num;
  change24hPct : option num;
  change30dPct : option num;
  marketCapUsd : option num;
}.

Record CoinRow : Type := {
  row_id : string;
  row_symbol : string;
  row_name : value;
  row_priceUsd : option num;
  chg24h : option num;
  chg30d : option num;
}.

Record MoodResult : Type := {
  state : string;
  label : string;
  score : option num;
  metrics : value;
}.

Record Adjacent : Type := {
  prev : option string;
  next : option string;
}.

Record Mood : Type := {
  baseMood : MoodResult;
  adjacent : Adjacent;
  ghostKey : string;
}.

Record AggregatePayload : Type := {
  markets : list MarketAsset;
  trending : list value;
  global : value;
  converterPrices : value;
  mood : Mood;
  top3Snapshot : list Top3Entry;
  coins : list CoinRow;
}.

Section pure.
Context `{Builtins}.

Definition safeNumber (n : value) : option num :=
  let x := Number n in
  if Number_isFinite x then Some x else None.

Definition median (values : list value) : option num :=
  let arr :=
    Array_sort (λ a b, num_sub a b)
      (List.filter Number_isFinite (map Number values)) in
  if Nat.eqb (length arr) 0 then None
  else
    let mid := (length arr / 2)%nat in
    if Nat.eqb (length arr mod 2) 0
    then Some (num_div (num_add (arr_at arr (mid - 1)) (arr_at arr mid)) (Fin 2))
    else Some (arr_at arr mid).

(** The condensed view built for an asset that was found. *)
Definition condensed (c : MarketAsset) : Top3Entry :=
  {| snap_id := asset_id c;
     snap_name := asset_name c;
     snap_symbol := asset_symbol c;
     priceUsd := safeNumber (current_price c);
     change24hPct := safeNumber (price_change_percentage_24h_in_currency c);
     change30dPct := safeNumber (price_change_percentage_30d_in_currency c);
     marketCapUsd := safeNumber (market_cap c) |}.

Definition computeTop3Snapshot (markets : option (list MarketAsset))
  : list Top3Entry :=
  let ids := ["bitcoin"; "ethereum"; "solana"] in
  let byId : gmap string MarketAsset :=
    Map_new (map (λ c, (asset_id c, c)) (or_empty markets)) in
  filter_Boolean
    (map (λ id,
       match byId !! id with
       | None => None
       | Some c => Some (condensed c)
       end) ids).

(** [(x ?? -999) > 0] *)
Definition is_up (x : value) : bool :=
  num_gt (Number (coalesce x (VNum (Fin (-999))))) (Fin 0).

Definition mood_pctUp24h (arr : list MarketAsset) : num :=
  let up24h :=
    length (List.filter
              (λ c, is_up (price_change_percentage_24h_in_currency c)) arr) in
  num_div (of_nat up24h) (of_nat (length arr)).

Definition mood_pctUp7d (arr : list MarketAsset) : num :=
  let up7d :=
    length (List.filter
              (λ c, is_up (price_change_percentage_7d_in_currency c)) arr) in
  num_div (of_nat up7d) (of_nat (length arr)).

Definition mood_btc30d (arr : list MarketAsset) : option num :=
  let btc := List.find (λ c, String.eqb (asset_id c) "bitcoin") arr in
  safeNumber
    (match btc with
     | Some c => price_change_percentage_30d_in_currency c
     | None => VUndef
     end).

Definition mood_medianAlt30d (arr : list MarketAsset) : option num :=
  let alt30dValues :=
    map price_change_percentage_30d_in_currency
      (List.filter (λ c, negb (String.eqb (asset_id c) "bitcoin")) arr) in
  median alt30dValues.

Definition mood_leadershipGap30d (arr : list MarketAsset) : option num :=
  match mood_btc30d arr, mood_medianAlt30d arr with
  | Some btc30d, Some medianAlt30d => Some (num_sub btc30d medianAlt30d)
  | _, _ => None
  end.

Definition mood_mcapChange24h (globalJson : value) : option num :=
  match
    safeNumber
      (opt_get (opt_get globalJson "data") "market_cap_change_percentage_24h_usd")
  with
  | Some x => Some x
  | None => safeNumber (opt_get globalJson "market_cap_change_percentage_24h_usd")
  end.

(** The score before rounding and clamping. *)
Definition mood_blend (pctUp24h pctUp7d : num)
    (leadershipGap30d mcapChange24h : option num) : num :=
  let score := Fin 50 in
  let score := num_add score (num_mul (num_sub pctUp24h (Fin (1 # 2))) (Fin 40)) in
  let score := num_add score (num_mul (num_sub pctUp7d (Fin (1 # 2))) (Fin 40)) in
  let score :=
    match leadershipGap30d with
    | Some gap => num_sub score (num_mul (Math_max (Fin 0) gap) (Fin (1 # 2)))
    | None => score
    end in
  match mcapChange24h with
  | Some mcap => num_add score (num_mul mcap (Fin (3 # 2)))
  | None => score
  end.

(** The source initialises [state] and [label] to ["uneasy"] and ["Uneasy"]
    and then assigns them on every branch of the threshold chain, so these
    initial values never reach the result. *)
Definition computeMood (markets : option (list MarketAsset)) (globalJson : value)
  : MoodResult :=
  let arr := or_empty markets in
  if Nat.eqb (length arr) 0 then
    {| state := "unknown"; label := "Unknown"; score := None; metrics := VObj [] |}
  else
    let pctUp24h := mood_pctUp24h arr in
    let pctUp7d := mood_pctUp7d arr in
    let btc30d := mood_btc30d arr in
    let medianAlt30d := mood_medianAlt30d arr in
    let leadershipGap30d := mood_leadershipGap30d arr in
    let mcapChange24h := mood_mcapChange24h globalJson in
    let score := mood_blend pctUp24h pctUp7d leadershipGap30d mcapChange24h in
    let score := Math_max (Fin 0) (Math_min (Fin 100) (Math_round score)) in
    let '(state, label) :=
      if num_ge score (Fin 75) then ("snack-mode", "Snack Mode")
      else if num_ge score (Fin 60) then ("steady-bite", "Steady Bite")
      else if num_ge score (Fin 45) then ("side-eye", "Side-Eye")
      else if num_ge score (Fin 30) then ("clutching-cookies", "Clutching Cookies")
      else ("crumbs-everywhere", "Crumbs Everywhere") in
    {| state := state;
       label := label;
       score := Some score;
       metrics :=
         VObj [("pctUp24h", VNum (toFixed2 pctUp24h));
               ("pctUp7d", VNum (toFixed2 pctUp7d));
               ("btc30d", of_nullable btc30d);
               ("medianAlt30d", of_nullable medianAlt30d);
               ("leadershipGap30d", of_nullable leadershipGap30d);
               ("marketCapChange24hPct", of_nullable mcapChange24h)] |}.

Definition states : list string :=
  ["crumbs-everywhere"; "clutching-cookies"; "side-eye"; "steady-bite";
   "snack-mode"].

(** [arr.indexOf(v)], from position [i] on: [-1] when no element is
    strictly equal to [v]. *)
Fixpoint indexOf_from (arr : list string) (v : value) (i : Z) : Z :=
  match arr with
  | [] => -1
  | s :: arr' => if strict_eq_str v s then i else indexOf_from arr' v (i + 1)
  end.

Definition indexOf (arr : list string) (v : value) : Z := indexOf_from arr v 0.

(** [arr[i] ?? null] *)
Definition at_or_null (arr : list string) (i : Z) : option string :=
  if (i <? 0)%Z then None else arr !! Z.to_nat i.

Definition computeAdjacentStates (state : value) : Adjacent :=
  let i := indexOf states state in
  if (i =? -1)%Z then {| prev := None; next := None |}
  else {| prev := at_or_null states (i - 1); next := at_or_null states (i + 1) |}.

Definition buildCoinsRowFromTop3 (top3Snapshot : option (list Top3Entry))
  : list CoinRow :=
  map (λ c,
    {| row_id := snap_id c;
       row_symbol := toUpperCase (ToString (or_else (snap_symbol c) (VStr "")));
       row_name := snap_name c;
       row_priceUsd := priceUsd c;
       chg24h := change24hPct c;
       chg30d := change30dPct c |}) (or_empty top3Snapshot).
End pure.

(** The upstream calls of this endpoint, in place of their URLs:
    [/coins/markets?vs_currency=usd&order=market_cap_desc&per_page=100&page=1&sparkline=false&price_change_percentage=24h,7d,30d],
    [/search/trending], [/global] and
    [/simple/price?ids=<ids>&vs_currencies=usd,eur,gbp]. *)
Inductive call : Type :=
  | get_markets
  | get_trending
  | get_global
  | get_simple_price (ids : string).

(** What the upstream answers to each call. *)
Record Upstream : Type := {
  markets_answer : option (FetchResponse (list MarketAsset));
  trending_answer : option (FetchResponse value);
  global_answer : option (FetchResponse value);
  simple_price_answer : string → option (FetchResponse value);
}.

Record Cache : Type := {
  ts : Z;
  data : option AggregatePayload;
}.

Definition initial_cache : Cache := {| ts := 0%Z; data := None |}.

Record Request : Type := { method : string }.

Inductive Body : Type :=
  | NoBody                                              (* [.end()] *)
  | Payload (p : AggregatePayload) (source : string)    (* [{...p, source}] *)
  | Failure (error : string).                           (* [{error}] *)

Record Response : Type := {
  headers : list (string * string);
  res_status : Z;
  res_body : Body;
}.

Section effects.
Context `{Builtins}.

Definition trending_ids (trendingJson : value) : M call (list value) :=
  (let* coins := prop trendingJson "coins" in
   match or_else coins (VArr []) with
   | VArr cs =>
       mapM (λ c, let* item := prop c "item" in let* id := prop item "id" in
                  ret (VObj [("id", id)])) cs
   | _ => throw TypeError
   end)%js.

Definition fetchFromCoinGecko (up : Upstream) : M call AggregatePayload :=
  (let* p1 := fetch get_markets (markets_answer up) in
   let* p2 := fetch get_trending (trending_answer up) in
   let* p3 := fetch get_global (global_answer up) in
   let* marketsRes := await p1 in
   let* trendingRes := await p2 in
   let* globalRes := await p3 in
   if negb (ok marketsRes) then throw (Error "markets request failed") else
   if negb (ok trendingRes) then throw (Error "trending request failed") else
   if negb (ok globalRes) then throw (Error "global request failed") else
   let* markets := await (json marketsRes) in
   let* trendingJson := await (json trendingRes) in
   let* global := await (json globalRes) in
   let* trending := trending_ids trendingJson in
   let top50Ids := String.concat "," (map asset_id (take 50 markets)) in
   let* p4 := fetch (get_simple_price top50Ids) (simple_price_answer up top50Ids) in
   let* simpleRes := await p4 in
   if negb (ok simpleRes) then throw (Error "simple price request failed") else
   let* converterPrices := await (json simpleRes) in
   let top3Snapshot := computeTop3Snapshot (Some markets) in
   let baseMood := computeMood (Some markets) global in
   let adjacent := computeAdjacentStates (VStr (state baseMood)) in
   let mood :=
     {| baseMood := baseMood; adjacent := adjacent; ghostKey := state baseMood |} in
   let coins := buildCoinsRowFromTop3 (Some top3Snapshot) in
   ret {| markets := markets;
          trending := trending;
          global := global;
          converterPrices := converterPrices;
          mood := mood;
          top3Snapshot := top3Snapshot;
          coins := coins |})%js.

Definition cors : list (string * string) :=
  [("Access-Control-Allow-Origin", "*");
   ("Access-Control-Allow-Methods", "GET,OPTIONS");
   ("Access-Control-Allow-Headers", "Content-Type")].

(** [cache.data && now - cache.ts < CACHE_TTL_MS], keeping the data on
    success *)
Definition fresh_hit (now : Z) (cache : Cache) : option AggregatePayload :=
  match data cache with
  | Some d => if (now - ts cache <? CACHE_TTL_MS)%Z then Some d else None
  | None => None
  end.

(** One request served at time [now] with the module-level [cache]: the
    response, the cache afterwards, and the upstream calls issued. *)
Definition handler (up : Upstream) (req : Request) (now : Z) (cache : Cache)
  : Response * Cache * list call :=
  let res (status : Z) body :=
    {| headers := cors; res_status := status; res_body := body |} in
  if String.eqb (method req) "OPTIONS" then (res 200%Z NoBody, cache, [])
  else
    match fresh_hit now cache with
    | Some d => (res 200%Z (Payload d "cache"), cache, [])
    | None =>
        match fetchFromCoinGecko up [] with
        | (inr fetched, log) =>
            (res 200%Z (Payload fetched "live"),
             {| ts := now; data := Some fetched |}, log)
        | (inl err, log) =>
            match data cache with
            | Some d => (res 200%Z (Payload d "stale-cache"), cache, log)
            | None => (res 500%Z (Failure "Failed to load market data"), cache, log)
            end
        end
    end.
End effects.

End MarketOverview.

(** ** api/coin-tickers.js *)

(** [s.includes(sub)] *)
Fixpoint includes (s sub : string) : bool :=
  String.prefix sub s
  || match s with
     | EmptyString => false
     | String _ s' => includes s' sub
     end.

Module CoinTickers.

(** One element of [json.tickers], with the fields the code reads. *)
Record Ticker : Type := {
  base : value;
  target : value;
  market : value;
  converted_last : value;
  converted_volume : value;
}.

(** The parsed tickers document; [None] is an absent (or falsy) [tickers]. *)
Record TickersJson : Type := { tickers : option (list Ticker) }.

Record TickerRow : Type := {
  exchange : value;
  pair : string;
  price : value;
  volume : value;
}.

(** The upstream call [CG_BASE/coins/<coin>/tickers?include_exchange_logo=false]. *)
Inductive call : Type := get_tickers (coin : value).

Record Request : Type := { query_coin : value }.

Inductive Body : Type :=
  | Tickers (coin : value) (rows : list TickerRow) (source : string)
  | UpstreamError (error : string) (upstream_status : Z)
  | Failure (error : string).

Record Response : Type := {
  headers : list (string * string);
  res_status : Z;
  res_body : Body;
}.

Section handler.
Context `{Builtins}.

(** [v.toUpperCase()]: only a string has the method. *)
Definition call_toUpperCase (v : value) : M call string :=
  match v with
  | VStr s => ret (toUpperCase s)
  | _ => throw TypeError
  end.

Definition keep (t : Ticker) : M call bool :=
  (if negb (truthy (target t)) then ret false else
   let* upper := call_toUpperCase (target t) in
   if negb (includes upper "USD") then ret false else
   if negb (truthy (converted_last t)) then ret false else
   let* usd := prop (converted_last t) "usd" in
   ret (is_number usd))%js.

Definition project (t : Ticker) : M call TickerRow :=
  (let exchange := or_else (opt_get (market t) "name") (VStr "Unknown") in
   let* b := call_toUpperCase (or_else (base t) (VStr "")) in
   let* q := call_toUpperCase (or_else (target t) (VStr "")) in
   let* usd := prop (converted_last t) "usd" in
   ret {| exchange := exchange;
          pair := b ++ "/" ++ q;
          price := usd;
          volume := or_else (opt_get (converted_volume t) "usd") (VNum (Fin 0)) |})%js.

(** [(a, b) => (b.volume || 0) - (a.volume || 0)] *)
Definition by_volume_desc (a b : TickerRow) : num :=
  num_sub (Number (or_else (volume b) (VNum (Fin 0))))
          (Number (or_else (volume a) (VNum (Fin 0)))).

Definition select (ts : list Ticker) : M call (list TickerRow) :=
  (let* kept := filterM keep ts in
   let* rows := mapM project kept in
   ret (take 6 (Array_sort by_volume_desc rows)))%js.

Definition try_block (upstream : value → option (FetchResponse TickersJson))
    (req : Request) : M call Response :=
  (let coin := or_else (query_coin req) (VStr "bitcoin") in
   let* promise := fetch (get_tickers coin) (upstream coin) in
   let* cgRes := await promise in
   if negb (ok cgRes) then
     ret {| headers := [];
            res_status := 502;
            res_body := UpstreamError "CoinGecko error" (status cgRes) |}
   else
     let* json := await (json cgRes) in
     let* rows := select (or_empty (tickers json)) in
     ret {| headers :=
              [("Cache-Control", "s-maxage=300, stale-while-revalidate=600");
               ("Access-Control-Allow-Origin", "*")];
            res_status := 200;
            res_body := Tickers coin rows "live-or-cache" |})%js.

Definition handler (upstream : value → option (FetchResponse TickersJson))
    (req : Request) : Response * list call :=
  match try_block upstream req [] with
  | (inr res, log) => (res, log)
  | (inl err, log) =>
      ({| headers := [];
          res_status := 500;
          res_body := Failure "Failed to fetch CoinGecko" |}, log)
  end.
End handler.

End CoinTickers.

(** ** An instance of the built-ins for evaluation

    This instance agrees with the language on ASCII input: [toUpperCase] on
    ASCII strings, [String] on strings, and [Number] on strings of decimal
    digits and on strings that hold a character no numeric literal has. *)

Definition ascii_upper (c : Ascii.ascii) : Ascii.ascii :=
  let n := Ascii.nat_of_ascii c in
  if (97 <=? n)%nat && (n <=? 122)%nat then Ascii.ascii_of_nat (n - 32) else c.

Fixpoint digits_value (s : string) (acc : Z) : option Z :=
  match s with
  | EmptyString => Some acc
  | String c s' =>
      let n := Ascii.nat_of_ascii c in
      if (48 <=? n)%nat && (n <=? 57)%nat
      then digits_value s' (10 * acc + Z.of_nat (n - 48))%Z
      else None
  end.

Fixpoint ascii_toUpperCase (s : string) : string :=
  match s with
  | EmptyString => EmptyString
  | String c s' => String (ascii_upper c) (ascii_toUpperCase s')
  end.

Definition evaluation_builtins : Builtins :=
  {| StringToNumber :=
       λ s, match digits_value s 0 with
            | Some z => binary64 (inject_Z z)
            | None => NaN
            end;
     ToString := λ v, match v with VStr s => s | _ => "" end;
     toUpperCase := ascii_toUpperCase |}.

(** * Properties *)

(** ** Numbers *)

(** [is_q n q]: the number [n] is finite and its value is [q]. *)
Definition is_q (n : num) (q : Q) : Prop := ∃ q', n = Fin q' ∧ (q' == q)%Q.

Lemma is_q_Fin q : is_q (Fin q) q.
Proof. exists q. split; [reflexivity | apply Qeq_refl]. Qed.

Lemma is_q_max a b x y : is_q a x → is_q b y → is_q (Math_max a b) (Qmax x y).
Proof.
  intros (x' & -> & Ex) (y' & -> & Ey). unfold Math_max. simpl.
  destruct (Qcompare_spec x' y') as [C|C|C].
  - exists x'. split; [done |].
    rewrite <- Ex, <- Ey. symmetry. apply Q.max_l. rewrite C. apply Qle_refl.
  - exists y'. split; [done |].
    rewrite <- Ex, <- Ey. symmetry. apply Q.max_r. by apply Qlt_le_weak.
  - exists x'. split; [done |].
    rewrite <- Ex, <- Ey. symmetry. apply Q.max_l. by apply Qlt_le_weak.
Qed.

Lemma is_q_min a b x y : is_q a x → is_q b y → is_q (Math_min a b) (Qmin x y).
Proof.
  intros (x' & -> & Ex) (y' & -> & Ey). unfold Math_min. simpl.
  destruct (Qcompare_spec x' y') as [C|C|C].
  - exists x'. split; [done |].
    rewrite <- Ex, <- Ey. symmetry. apply Q.min_l. rewrite C. apply Qle_refl.
  - exists x'. split; [done |].
    rewrite <- Ex, <- Ey. symmetry. apply Q.min_l. by apply Qlt_le_weak.
  - exists y'. split; [done |].
    rewrite <- Ex, <- Ey. symmetry. apply Q.min_r. by apply Qlt_le_weak.
Qed.

Lemma num_gt_Fin x y : num_gt (Fin x) (Fin y) = true ↔ (y < x)%Q.
Proof.
  unfold num_gt. simpl. rewrite Qlt_alt, <- (Qcompare_antisym x y).
  destruct (x ?= y)%Q; simpl; split; congruence.
Qed.

Lemma num_le_Fin x y : num_le (Fin x) (Fin y) = true ↔ (x <= y)%Q.
Proof.
  unfold num_le. simpl. rewrite Qle_alt.
  destruct (x ?= y)%Q; split; congruence.
Qed.

Lemma num_ge_Fin x y : num_ge (Fin x) (Fin y) = true ↔ (y <= x)%Q.
Proof.
  unfold num_ge. simpl. rewrite Qle_alt, <- (Qcompare_antisym x y).
  destruct (x ?= y)%Q; simpl; split; congruence.
Qed.

Lemma num_le_trans a b c : num_le a b = true → num_le b c = true → num_le a c = true.
Proof.
  destruct a as [| | |x], b as [| | |y], c as [| | |z]; try done.
  rewrite !num_le_Fin. apply Qle_trans.
Qed.

Lemma fin_comp q q' : (q == q')%Q → fin q = fin q'.
Proof. intros E. unfold fin. f_equal. by apply Qred_complete. Qed.

(** *** Powers of two and the binary logarithm *)

Lemma pow2_pos e : (0 < pow2 e)%Q.
Proof. apply Qpower_0_lt. reflexivity. Qed.

Lemma pow2_add a b : (pow2 (a + b) == pow2 a * pow2 b)%Q.
Proof. apply Qpower_plus. discriminate. Qed.

Lemma pow2_le a b : (a ≤ b)%Z → (pow2 a <= pow2 b)%Q.
Proof. intros L. apply Qpower_le_compat_l; [exact L | discriminate]. Qed.

Lemma pow2_lt_inv a b : (pow2 a < pow2 b)%Q → (a < b)%Z.
Proof. intros L. eapply Qpower_lt_compat_l_inv; [exact L | reflexivity]. Qed.

Lemma pow2_Z n : (0 ≤ n)%Z → (inject_Z (2 ^ n) == pow2 n)%Q.
Proof. apply Zpower_Qpower. Qed.

Lemma Zlog2_bounds (n : Z) :
  (0 < n)%Z →
  (pow2 (Z.log2 n) <= inject_Z n)%Q ∧ (inject_Z n < pow2 (Z.log2 n + 1))%Q.
Proof.
  intros P. destruct (Z.log2_spec n P) as [L U].
  pose proof (Z.log2_nonneg n) as N.
  rewrite <- !pow2_Z by lia. rewrite <- Zle_Qle, <- Zlt_Qlt.
  split; [exact L |]. by rewrite <- Z.add_1_r in U.
Qed.

Lemma ilog2_spec q :
  (0 < q)%Q → (pow2 (ilog2 q) <= q)%Q ∧ (q < pow2 (ilog2 q + 1))%Q.
Proof.
  intros P. unfold ilog2.
  assert (0 < Qnum q)%Z as Pn.
  { destruct q as [n d]. unfold Qlt in P. simpl in *. lia. }
  destruct (Zlog2_bounds (Qnum q) Pn) as [Ln Un].
  destruct (Zlog2_bounds (Zpos (Qden q)) eq_refl) as [Ld Ud].
  set (a := Z.log2 (Qnum q)) in *. set (b := Z.log2 (Zpos (Qden q))) in *.
  assert (q == inject_Z (Qnum q) / inject_Z (Zpos (Qden q)))%Q as Eq
    by (destruct q; apply Qmake_Qdiv).
  assert (0 < inject_Z (Z.pos (Qden q)))%Q as Pd by reflexivity.
  set (n := inject_Z (Qnum q)) in *. set (d := inject_Z (Z.pos (Qden q))) in *.
  pose proof (pow2_pos a) as Pa. pose proof (pow2_pos b) as Pb.
  pose proof (pow2_pos (a - b)) as Pab.
  pose proof (pow2_add (a - b) b) as E1.
  replace (a - b + b)%Z with a in E1 by lia.
  pose proof (pow2_add (a - b - 1) 1) as E2.
  replace (a - b - 1 + 1)%Z with (a - b)%Z in E2 by lia.
  pose proof (pow2_add (a - b) 1) as E3.
  pose proof (pow2_add b 1) as E4. pose proof (pow2_add a 1) as E5.
  change (pow2 1) with 2%Q in *.
  pose proof (pow2_pos (a - b - 1)) as Pab1.
  destruct (Qle_bool (pow2 (a - b)) q) eqn:T.
  - apply Qle_bool_iff in T. split; [exact T |].
    rewrite Eq. apply Qlt_shift_div_r; [exact Pd |].
    rewrite E3. nra.
  - assert (q < pow2 (a - b))%Q as T'.
    { apply Qnot_le_lt. intros L. apply Qle_bool_iff in L. congruence. }
    replace (a - b - 1 + 1)%Z with (a - b)%Z by lia. split; [| exact T'].
    rewrite Eq. apply Qle_shift_div_l; [exact Pd |]. nra.
Qed.

Lemma ilog2_unique q l :
  (pow2 l <= q)%Q → (q < pow2 (l + 1))%Q → ilog2 q = l.
Proof.
  intros L U.
  assert (0 < q)%Q as P by (pose proof (pow2_pos l); lra).
  destruct (ilog2_spec q P) as [L' U'].
  assert (ilog2 q < l + 1)%Z by (apply pow2_lt_inv; lra).
  assert (l < ilog2 q + 1)%Z by (apply pow2_lt_inv; lra).
  lia.
Qed.

Lemma ilog2_comp q q' : (0 < q)%Q → (q == q')%Q → ilog2 q = ilog2 q'.
Proof.
  intros P E. destruct (ilog2_spec q P) as [L U].
  symmetry. apply ilog2_unique; by rewrite <- E.
Qed.

Lemma ilog2_mono q q' : (0 < q)%Q → (q <= q')%Q → (ilog2 q ≤ ilog2 q')%Z.
Proof.
  intros P L. destruct (ilog2_spec q P) as [L1 U1].
  destruct (ilog2_spec q') as [L2 U2]; [lra |].
  assert (ilog2 q < ilog2 q' + 1)%Z by (apply pow2_lt_inv; lra). lia.
Qed.

(** *** Rounding to an integer *)

Lemma nearest_even_comp x y : (x == y)%Q → nearest_even x = nearest_even y.
Proof.
  intros E. unfold nearest_even.
  rewrite (Qfloor_comp x y E).
  assert (x - inject_Z (Qfloor y) == y - inject_Z (Qfloor y))%Q as E' by lra.
  by rewrite (Qcompare_comp _ _ E' (1 # 2) (1 # 2) (Qeq_refl _)).
Qed.

Lemma nearest_even_bounds x :
  (Qfloor x ≤ nearest_even x ≤ Qfloor x + 1)%Z.
Proof.
  unfold nearest_even. destruct (_ ?= _)%Q; [destruct (Z.even _) | |]; lia.
Qed.

Lemma nearest_even_Z (k : Z) : nearest_even (inject_Z k) = k.
Proof.
  unfold nearest_even. rewrite Qfloor_Z.
  destruct (Qcompare_spec (inject_Z k - inject_Z k) (1 # 2)); [lra | done | lra].
Qed.

Lemma nearest_even_mono x y : (x <= y)%Q → (nearest_even x ≤ nearest_even y)%Z.
Proof.
  intros L. pose proof (Qfloor_resp_le x y L) as F.
  pose proof (nearest_even_bounds x) as Bx. pose proof (nearest_even_bounds y) as By.
  destruct (Z.eq_dec (Qfloor x) (Qfloor y)) as [E | N]; [| lia].
  unfold nearest_even in *. rewrite <- E in *.
  destruct (Qcompare_spec (x - inject_Z (Qfloor x)) (1 # 2));
    destruct (Qcompare_spec (y - inject_Z (Qfloor x)) (1 # 2)); try lia;
    try (destruct (Z.even (Qfloor x)); lia); lra.
Qed.

Lemma nearest_even_ge x (k : Z) : (inject_Z k <= x)%Q → (k ≤ nearest_even x)%Z.
Proof.
  intros L. pose proof (nearest_even_mono _ _ L) as M. by rewrite nearest_even_Z in M.
Qed.

Lemma nearest_even_le x (k : Z) : (x <= inject_Z k)%Q → (nearest_even x ≤ k)%Z.
Proof.
  intros L. pose proof (nearest_even_mono _ _ L) as M. by rewrite nearest_even_Z in M.
Qed.

(** *** Rounding to binary64 *)

Lemma exponent_ge q : (-1074 ≤ exponent q)%Z.
Proof. unfold exponent. lia. Qed.

Lemma exponent_comp q q' : (0 < q)%Q → (q == q')%Q → exponent q = exponent q'.
Proof. intros P E. unfold exponent. by rewrite (ilog2_comp q q' P E). Qed.

Lemma significand_comp q q' :
  (0 < q)%Q → (q == q')%Q → significand q = significand q'.
Proof.
  intros P E. unfold significand. rewrite (exponent_comp q q' P E).
  apply nearest_even_comp. by rewrite E.
Qed.

Lemma round_pos_comp q q' : (0 < q)%Q → (q == q')%Q → round_pos q = round_pos q'.
Proof.
  intros P E. unfold round_pos.
  by rewrite (significand_comp q q' P E), (exponent_comp q q' P E).
Qed.

(** The rounding depends on the value of its argument only. *)
Lemma binary64_comp q q' : (q == q')%Q → binary64 q = binary64 q'.
Proof.
  intros E. unfold binary64. rewrite <- E.
  destruct (Qcompare_spec q 0); [done | |].
  - f_equal. apply round_pos_comp; [lra | by rewrite E].
  - by apply round_pos_comp.
Qed.

Lemma significand_nonneg q : (0 < q)%Q → (0 ≤ significand q)%Z.
Proof.
  intros P. apply nearest_even_ge. pose proof (pow2_pos (exponent q)).
  apply Qle_shift_div_l; [done |]. change (inject_Z 0) with 0%Q. lra.
Qed.

Lemma significand_le q : (0 < q)%Q → (significand q ≤ 2 ^ 53)%Z.
Proof.
  intros P. unfold significand. apply nearest_even_le.
  pose proof (pow2_pos (exponent q)) as Pe.
  apply Qle_shift_div_r; [done |].
  destruct (ilog2_spec q P) as [_ U].
  rewrite pow2_Z by lia. rewrite <- pow2_add.
  eapply Qle_trans; [apply Qlt_le_weak, U |]. apply pow2_le. unfold exponent. lia.
Qed.

(** A value of at least [2^-1074] does not round to zero. *)
Lemma significand_pos q : (pow2 (-1074) <= q)%Q → (1 ≤ significand q)%Z.
Proof.
  intros L. pose proof (pow2_pos (-1074)) as P0.
  assert (0 < q)%Q as P by lra.
  apply nearest_even_ge. pose proof (pow2_pos (exponent q)) as Pe.
  apply Qle_shift_div_l; [done |]. change (inject_Z 1) with 1%Q.
  rewrite Qmult_1_l. unfold exponent.
  destruct (Z.max_spec (ilog2 q - 52) (-1074)) as [[_ ->] | [_ ->]]; [done |].
  destruct (ilog2_spec q P) as [Lq _].
  eapply Qle_trans; [| exact Lq]. apply pow2_le. lia.
Qed.

Definition nonneg (n : num) : Prop :=
  match n with PInf => True | Fin v => (0 <= v)%Q | _ => False end.

Definition positive (n : num) : Prop :=
  match n with PInf => True | Fin v => (0 < v)%Q | _ => False end.

Lemma round_pos_nonneg q : (0 < q)%Q → nonneg (round_pos q).
Proof.
  intros P. unfold round_pos. destruct (Qle_bool _ _); [done |].
  simpl. rewrite Qred_correct.
  pose proof (significand_nonneg q P) as S. pose proof (pow2_pos (exponent q)).
  apply Qmult_le_0_compat; [| lra].
  change 0%Q with (inject_Z 0). by rewrite <- Zle_Qle.
Qed.

Lemma round_pos_positive q : (pow2 (-1074) <= q)%Q → positive (round_pos q).
Proof.
  intros L. unfold round_pos. destruct (Qle_bool _ _); [done |].
  simpl. rewrite Qred_correct.
  pose proof (significand_pos q L) as S. pose proof (pow2_pos (exponent q)).
  apply Qmult_lt_0_compat; [| lra].
  change 0%Q with (inject_Z 0). rewrite <- Zlt_Qlt. lia.
Qed.

Lemma round_pos_ge_0 q : (0 < q)%Q → num_le (Fin 0) (round_pos q) = true.
Proof.
  intros P. pose proof (round_pos_nonneg q P) as N.
  destruct (round_pos q) as [| | |v]; try done. by apply num_le_Fin.
Qed.

Lemma opp_round_pos_le_0 q : (0 < q)%Q → num_le (opp (round_pos q)) (Fin 0) = true.
Proof.
  intros P. pose proof (round_pos_nonneg q P) as N.
  destruct (round_pos q) as [| | |v]; try done. simpl in N.
  unfold opp, fin. apply num_le_Fin. rewrite Qred_correct. lra.
Qed.

(** An operation on finite operands never gives NaN. *)
Lemma binary64_not_NaN q : binary64 q ≠ NaN.
Proof.
  unfold binary64. destruct (Qcompare_spec q 0) as [C|C|C]; [done | |].
  - pose proof (round_pos_nonneg (- q) ltac:(lra)) as N.
    by destruct (round_pos (- q)).
  - pose proof (round_pos_nonneg q C) as N.
    by destruct (round_pos q).
Qed.

(** A positive result comes from a positive argument. *)
Lemma binary64_gt_0 q : num_gt (binary64 q) (Fin 0) = true → (0 < q)%Q.
Proof.
  unfold binary64. destruct (Qcompare_spec q 0) as [C|C|C]; [done | | done].
  pose proof (round_pos_nonneg (- q) ltac:(lra)) as N.
  destruct (round_pos _) as [| | |v]; try done.
  unfold opp, fin. simpl in N. rewrite num_gt_Fin, Qred_correct. lra.
Qed.

(** Rounding is monotone.  Two positive values with different exponents are
    separated by a power of two that both grids contain. *)
Lemma round_pos_mono q q' :
  (0 < q)%Q → (q <= q')%Q → num_le (round_pos q) (round_pos q') = true.
Proof.
  intros P L. assert (0 < q')%Q as P' by lra.
  assert (inject_Z (significand q) * pow2 (exponent q) <=
          inject_Z (significand q') * pow2 (exponent q'))%Q as V.
  { pose proof (pow2_pos (exponent q)) as Pe.
    pose proof (pow2_pos (exponent q')) as Pe'.
    assert (exponent q ≤ exponent q')%Z as Le
      by (pose proof (ilog2_mono q q' P L); unfold exponent; lia).
    destruct (Z.eq_dec (exponent q) (exponent q')) as [E | N].
    - assert (significand q ≤ significand q')%Z as S.
      { unfold significand. rewrite <- E. apply nearest_even_mono.
        apply Qmult_le_compat_r; [exact L |].
        apply Qlt_le_weak, Qinv_lt_0_compat, Pe. }
      rewrite <- E. apply Qmult_le_compat_r; [| lra]. by rewrite <- Zle_Qle.
    - set (l' := ilog2 q').
      assert (exponent q' = l' - 52)%Z as E' by (unfold exponent in *; lia).
      assert (ilog2 q + 1 ≤ l')%Z as Ll by (unfold exponent in *; lia).
      destruct (ilog2_spec q P) as [_ U]. destruct (ilog2_spec q' P') as [L' _].
      fold l' in L'.
      assert (q <= pow2 l')%Q as B
        by (eapply Qle_trans; [apply Qlt_le_weak, U | by apply pow2_le]).
      apply Qle_trans with (pow2 l').
      + assert (exponent q ≤ l')%Z as Lel by (unfold exponent in *; lia).
        assert (pow2 l' == inject_Z (2 ^ (l' - exponent q)) * pow2 (exponent q))%Q
          as Eb.
        { rewrite pow2_Z by lia. rewrite <- pow2_add.
          by replace (l' - exponent q + exponent q)%Z with l' by lia. }
        rewrite Eb. apply Qmult_le_compat_r; [| lra]. rewrite <- Zle_Qle.
        apply nearest_even_le. apply Qle_shift_div_r; [done |]. by rewrite <- Eb.
      + assert (pow2 l' == inject_Z (2 ^ 52) * pow2 (exponent q'))%Q as Eb.
        { rewrite pow2_Z by lia. rewrite <- pow2_add, E'.
          by replace (52 + (l' - 52))%Z with l' by lia. }
        rewrite Eb. apply Qmult_le_compat_r; [| lra]. rewrite <- Zle_Qle.
        apply nearest_even_ge. apply Qle_shift_div_l; [done |]. by rewrite <- Eb. }
  unfold round_pos.
  destruct (Qle_bool (pow2 1024) (_ * pow2 (exponent q))) eqn:O.
  - apply Qle_bool_iff in O.
    assert (Qle_bool (pow2 1024)
              (inject_Z (significand q') * pow2 (exponent q')) = true) as ->
      by (apply Qle_bool_iff; lra).
    done.
  - destruct (Qle_bool _ (_ * pow2 (exponent q'))); [done |]. unfold fin.
    apply num_le_Fin. by rewrite !Qred_correct.
Qed.

Lemma binary64_mono q q' :
  (q <= q')%Q → num_le (binary64 q) (binary64 q') = true.
Proof.
  intros L. unfold binary64.
  destruct (Qcompare_spec q 0) as [C|C|C], (Qcompare_spec q' 0) as [C'|C'|C'];
    try lra; try done.
  - by apply round_pos_ge_0.
  - apply opp_round_pos_le_0. lra.
  - pose proof (round_pos_mono (- q') (- q) ltac:(lra) ltac:(lra)) as M.
    pose proof (round_pos_nonneg (- q) ltac:(lra)) as N.
    pose proof (round_pos_nonneg (- q') ltac:(lra)) as N'.
    destruct (round_pos (- q)) as [| | |v], (round_pos (- q')) as [| | |v'];
      try done.
    apply num_le_Fin in M. unfold opp, fin. apply num_le_Fin.
    rewrite !Qred_correct. lra.
  - eapply num_le_trans; [apply opp_round_pos_le_0; lra | by apply round_pos_ge_0].
  - by apply round_pos_mono.
Qed.

(** *** The binary64 numbers *)

(** The finite binary64 numbers: [n * 2^e] with a significand [n] of at most
    53 bits and an exponent [e] of at least -1074, below [2^1024] in
    magnitude. *)
Definition representable (q : Q) : Prop :=
  ∃ n e : Z,
    (Z.abs n < 2 ^ 53)%Z ∧ (-1074 ≤ e)%Z ∧
    (q == inject_Z n * pow2 e)%Q ∧ (Qabs q < pow2 1024)%Q.

(** A finite binary64 number. *)
Definition double (n : num) : Prop := ∃ q, n = Fin q ∧ representable q.

(** A binary64 number other than NaN. *)
Definition ordered (n : num) : Prop :=
  match n with
  | NaN => False
  | Fin q => representable q
  | _ => True
  end.

Lemma representable_comp q q' : (q == q')%Q → representable q → representable q'.
Proof.
  intros E (n & e & N & Ee & V & O). exists n, e.
  split; [done |]. split; [done |]. by rewrite <- E.
Qed.

Lemma representable_opp q : representable q → representable (- q).
Proof.
  intros (n & e & N & E & V & O). exists (- n)%Z, e.
  split; [lia |]. split; [done |]. split.
  - rewrite V, inject_Z_opp. ring.
  - by rewrite Qabs_opp.
Qed.

(** An integer of at most 53 bits is a binary64 number. *)
Lemma representable_Z (z : Z) : (Z.abs z < 2 ^ 53)%Z → representable (inject_Z z).
Proof.
  intros B. exists z, 0%Z. split; [done |]. split; [lia |]. split.
  - change (pow2 0) with 1%Q. ring.
  - rewrite <- pow2_Z by lia. change (Qabs (inject_Z z)) with (inject_Z (Z.abs z)).
    rewrite <- Zlt_Qlt. eapply Z.lt_trans; [exact B |]. reflexivity.
Qed.

Lemma round_pos_exact (n e : Z) (v : Q) :
  (1 ≤ n < 2 ^ 53)%Z → (-1074 ≤ e)%Z →
  (v == inject_Z n * pow2 e)%Q → (v < pow2 1024)%Q →
  round_pos v = fin v.
Proof.
  intros [N1 N2] E V O.
  pose proof (pow2_pos e) as Pe.
  destruct (Zlog2_bounds n ltac:(lia)) as [Lk Uk].
  set (k := Z.log2 n) in *.
  assert (k < 53)%Z as Hk.
  { apply pow2_lt_inv. eapply Qle_lt_trans; [exact Lk |].
    rewrite <- pow2_Z by lia. by rewrite <- Zlt_Qlt. }
  assert (0 ≤ k)%Z as Hk0 by apply Z.log2_nonneg.
  assert (ilog2 v = k + e)%Z as Il.
  { apply ilog2_unique; rewrite V.
    - rewrite pow2_add. apply Qmult_le_compat_r; [exact Lk | lra].
    - replace (k + e + 1)%Z with (k + 1 + e)%Z by lia. rewrite pow2_add.
      apply Qmult_lt_compat_r; [exact Pe | exact Uk]. }
  assert (exponent v ≤ e)%Z as Le by (unfold exponent; lia).
  assert (-1074 ≤ exponent v)%Z as Ge by apply exponent_ge.
  set (ev := exponent v) in *. pose proof (pow2_pos ev) as Pev.
  assert (v == inject_Z (n * 2 ^ (e - ev)) * pow2 ev)%Q as V'.
  { rewrite V, inject_Z_mult, pow2_Z by lia. rewrite <- Qmult_assoc, <- pow2_add.
    by replace (e - ev + ev)%Z with e by lia. }
  assert (significand v = n * 2 ^ (e - ev))%Z as Sv.
  { unfold significand. fold ev. rewrite <- (nearest_even_Z (n * 2 ^ (e - ev))).
    apply nearest_even_comp. rewrite V' at 1. field. lra. }
  unfold round_pos. fold ev. rewrite Sv.
  destruct (Qle_bool _ _) eqn:T.
  - apply Qle_bool_iff in T. lra.
  - apply fin_comp. by symmetry.
Qed.

(** Rounding leaves a binary64 number as it is. *)
Lemma binary64_representable q : representable q → binary64 q = fin q.
Proof.
  intros (n & e & N & E & V & O). unfold binary64.
  pose proof (pow2_pos e) as Pe.
  destruct (Qcompare_spec q 0) as [C|C|C].
  - symmetry. apply (fin_comp q 0 C).
  - assert (n < 0)%Z as Nn.
    { destruct (Z.lt_ge_cases n 0) as [|G]; [done |].
      rewrite Zle_Qle in G. change (inject_Z 0) with 0%Q in G. nra. }
    rewrite (round_pos_exact (- n) e (- q)).
    + simpl. unfold fin. f_equal. apply Qred_complete. rewrite Qred_correct. ring.
    + lia.
    + done.
    + rewrite V, inject_Z_opp. ring.
    + rewrite Qabs_neg in O by lra. done.
  - assert (0 < n)%Z as Nn.
    { destruct (Z.lt_ge_cases 0 n) as [|G]; [done |].
      rewrite Zle_Qle in G. change (inject_Z 0) with 0%Q in G. nra. }
    apply (round_pos_exact n e q); try done; [lia |].
    rewrite Qabs_pos in O by lra. done.
Qed.

Lemma round_pos_representable q v :
  (0 < q)%Q → round_pos q = Fin v → representable v.
Proof.
  intros P. unfold round_pos.
  destruct (Qle_bool _ _) eqn:T; [done |]. intros [= <-].
  assert (inject_Z (significand q) * pow2 (exponent q) < pow2 1024)%Q as O.
  { apply Qnot_le_lt. intros L. apply Qle_bool_iff in L. congruence. }
  pose proof (significand_nonneg q P) as S0. pose proof (significand_le q P) as S1.
  pose proof (exponent_ge q) as E. pose proof (pow2_pos (exponent q)) as Pe.
  assert (0 <= inject_Z (significand q) * pow2 (exponent q))%Q as V0.
  { apply Qmult_le_0_compat; [| lra].
    change 0%Q with (inject_Z 0). by rewrite <- Zle_Qle. }
  apply (representable_comp (inject_Z (significand q) * pow2 (exponent q)));
    [by rewrite Qred_correct |].
  destruct (Z.eq_dec (significand q) (2 ^ 53)%Z) as [Top | NTop].
  - exists (2 ^ 52)%Z, (exponent q + 1)%Z. split; [lia |]. split; [lia |]. split.
    + rewrite Top. rewrite !pow2_Z by lia. rewrite <- !pow2_add.
      by replace (53 + exponent q)%Z with (52 + (exponent q + 1))%Z by lia.
    + by rewrite Qabs_pos.
  - exists (significand q), (exponent q). split; [lia |]. split; [done |].
    split; [done |]. by rewrite Qabs_pos.
Qed.

(** What rounding gives, when finite, is a binary64 number. *)
Lemma binary64_is_representable q v : binary64 q = Fin v → representable v.
Proof.
  unfold binary64. destruct (Qcompare_spec q 0) as [C|C|C].
  - intros [= <-]. exists 0%Z, 0%Z. by repeat split.
  - destruct (round_pos (- q)) as [| | |w] eqn:R; try done. intros [= <-].
    apply (representable_comp (- w)); [by rewrite Qred_correct |].
    apply representable_opp. apply (round_pos_representable (- q)); [lra | done].
  - by apply round_pos_representable.
Qed.

(** Rounding twice is rounding once. *)
Lemma binary64_idempotent q v : binary64 q = Fin v → binary64 v = Fin v.
Proof.
  intros E. rewrite (binary64_representable v) by (by eapply binary64_is_representable).
  unfold fin. f_equal.
  assert (∃ w, v = Qred w) as [w ->];
    [| by rewrite (Qred_complete _ _ (Qred_correct w))].
  revert E. unfold binary64. destruct (Qcompare_spec q 0) as [C|C|C].
  - intros [= <-]. by exists 0%Q.
  - destruct (round_pos (- q)); try done. intros [= <-]. by eexists.
  - unfold round_pos. destruct (Qle_bool _ _); [done |]. intros [= <-]. by eexists.
Qed.

(** Every binary64 number is a multiple of [2^-1074]. *)
Lemma representable_grid q :
  representable q → ∃ k : Z, (q == inject_Z k * pow2 (-1074))%Q.
Proof.
  intros (n & e & _ & E & V & _). exists (n * 2 ^ (e + 1074))%Z.
  rewrite V, inject_Z_mult, pow2_Z by lia. rewrite <- Qmult_assoc, <- pow2_add.
  by replace (e + 1074 + -1074)%Z with e by lia.
Qed.

(** The difference of two binary64 numbers rounds to a number of its own
    sign: it vanishes only when they are equal. *)
Lemma binary64_sub_sign x y :
  representable x → representable y →
  num_gt (binary64 (x - y)) (Fin 0) = true ↔ (y < x)%Q.
Proof.
  intros Rx Ry. split; [intros G; apply binary64_gt_0 in G; lra |]. intros L.
  destruct (representable_grid x Rx) as [kx Ex].
  destruct (representable_grid y Ry) as [ky Ey].
  pose proof (pow2_pos (-1074)) as P0.
  unfold binary64. destruct (Qcompare_spec (x - y) 0) as [C|C|C]; try lra.
  assert (ky < kx)%Z as K.
  { destruct (Z.lt_ge_cases ky kx) as [|G]; [done |]. rewrite Zle_Qle in G. nra. }
  assert (pow2 (-1074) <= x - y)%Q as G.
  { assert (inject_Z (ky + 1) <= inject_Z kx)%Q as D by (rewrite <- Zle_Qle; lia).
    rewrite inject_Z_plus in D. change (inject_Z 1) with 1%Q in D. nra. }
  pose proof (round_pos_positive (x - y) G) as Pp.
  destruct (round_pos _) as [| | |v]; try done. by apply num_gt_Fin.
Qed.

(** The comparator [(a, b) => a - b] is positive exactly when [a > b]. *)
Lemma num_sub_gt x y :
  representable x → representable y →
  num_gt (num_sub (Fin x) (Fin y)) (Fin 0) = true ↔ (y < x)%Q.
Proof. apply binary64_sub_sign. Qed.

Lemma num_sub_gt_inv x y :
  num_gt (num_sub (Fin x) (Fin y)) (Fin 0) = true → (y < x)%Q.
Proof. intros G. apply binary64_gt_0 in G. lra. Qed.

(** A rounded value between two binary64 numbers. *)
Definition between (lo hi : Q) (n : num) : Prop :=
  ∃ q, n = Fin q ∧ (lo <= q <= hi)%Q.

Lemma binary64_between lo hi q :
  representable lo → representable hi → (lo <= q <= hi)%Q →
  between lo hi (binary64 q).
Proof.
  intros Rlo Rhi [L U].
  pose proof (binary64_mono lo q L) as M1. pose proof (binary64_mono q hi U) as M2.
  rewrite (binary64_representable lo Rlo) in M1.
  rewrite (binary64_representable hi Rhi) in M2.
  destruct (binary64 q) as [| | |v]; try done.
  unfold fin in *. apply num_le_Fin in M1, M2. rewrite Qred_correct in M1, M2.
  by exists v.
Qed.

(** The value of a sum is a rounded one. *)
Definition rounded (n : num) : Prop :=
  match n with Fin v => binary64 v = Fin v | _ => True end.

Lemma binary64_rounded q : rounded (binary64 q).
Proof. destruct (binary64 q) eqn:E; try done. by apply binary64_idempotent in E. Qed.

Lemma num_add_rounded a b : rounded (num_add a b).
Proof. destruct a, b; try done. apply binary64_rounded. Qed.

(** Subtracting zero from a rounded value changes nothing. *)
Lemma num_sub_0 s : rounded s → num_sub s (Fin 0) = s.
Proof.
  destruct s as [| | |v]; try done. simpl. intros R.
  rewrite (binary64_comp (v - 0) v) by lra. exact R.
Qed.

(** ** Sorting *)

Section sorting.
Context {A : Type} (comparefn : A → A → num).

Lemma sort_insert_perm x l : sort_insert comparefn x l ≡ₚ x :: l.
Proof.
  induction l as [|y l IH]; simpl; [done |].
  destruct (num_gt _ _); [| done].
  rewrite IH. apply Permutation_swap.
Qed.

Lemma Array_sort_perm l : Array_sort comparefn l ≡ₚ l.
Proof.
  induction l as [|x l IH]; simpl; [done |].
  rewrite sort_insert_perm. by rewrite IH.
Qed.

(** The sort orders by [R] the elements of a class [P] on which the
    comparator decides [R]. *)
Context (P : A → Prop) (R : A → A → Prop).
Hypothesis comparefn_decides :
  ∀ x y, P x → P y →
    if num_gt (comparefn x y) (Fin 0) then R y x else R x y.

Lemma sort_insert_Sorted x l :
  P x → Forall P l → Sorted R l → Sorted R (sort_insert comparefn x l).
Proof.
  intros Px Pl Sl. induction l as [|y l IH]; simpl.
  - repeat constructor.
  - apply Forall_cons in Pl as [Py Pl].
    pose proof (comparefn_decides x y Px Py) as D.
    destruct (num_gt _ _).
    + apply Sorted_inv in Sl as [Sl Hd]. constructor; [by apply IH |].
      destruct l as [|z l]; simpl.
      * by constructor.
      * destruct (num_gt (comparefn x z) _); constructor; [| done].
        by apply HdRel_inv in Hd.
    + constructor; [exact Sl | by constructor].
Qed.

Lemma Array_sort_Sorted l : Forall P l → Sorted R (Array_sort comparefn l).
Proof.
  induction 1 as [|x l Px Pl IH]; simpl; [constructor |].
  apply sort_insert_Sorted; [done | | done].
  by rewrite Array_sort_perm.
Qed.
End sorting.

(** ** NumericUtilities *)

Definition finite (n : num) : Prop := ∃ q, n = Fin q.

Definition ascending (a b : num) : Prop := num_le a b = true.

(** The midpoint of a sorted array: its central element, or the binary64
    value of [(a + b) / 2] for its two central elements [a] and [b] when
    their count is even. *)
Definition midpoint (sorted : list num) : num :=
  let mid := (length sorted / 2)%nat in
  if Nat.even (length sorted)
  then num_div (num_add (arr_at sorted (mid - 1)) (arr_at sorted mid)) (Fin 2)
  else arr_at sorted mid.

Section numeric_utilities.
Context `{Builtins}.
Import MarketOverview.

(** The elements of [values] coerced by [Number], the non-finite results
    discarded. *)
Definition finite_numbers (values : list value) : list num :=
  List.filter Number_isFinite (map Number values).

Lemma Number_isFinite_finite n : Number_isFinite n = true ↔ finite n.
Proof.
  destruct n; simpl; split; try done; try (by intros [q ?]). by exists q.
Qed.

Lemma finite_numbers_finite values : Forall finite (finite_numbers values).
Proof.
  apply Forall_forall. intros n Hn. apply list_elem_of_In in Hn.
  apply filter_In in Hn as [_ Hn]. by apply Number_isFinite_finite.
Qed.

Lemma minus_ascending x y :
  double x → double y →
  if num_gt (num_sub x y) (Fin 0) then ascending y x else ascending x y.
Proof.
  intros (a & -> & Ra) (b & -> & Rb). destruct (num_gt _ _) eqn:E.
  - apply num_sub_gt in E; [| done | done]. apply num_le_Fin. lra.
  - apply num_le_Fin. destruct (Qlt_le_dec b a) as [L|L]; [| done].
    apply (num_sub_gt a b Ra Rb) in L. congruence.
Qed.

Lemma safeNumber_finite v n : safeNumber v = Some n → finite n.
Proof.
  unfold safeNumber. destruct (Number_isFinite _) eqn:E; [| done].
  intros [= <-]. by apply Number_isFinite_finite.
Qed.

Lemma median_unfold values :
  let arr := Array_sort (λ a b, num_sub a b) (finite_numbers values) in
  arr ≡ₚ finite_numbers values ∧ Forall finite arr ∧
  median values = match arr with [] => None | _ => Some (midpoint arr) end.
Proof.
  intros arr. assert (P : arr ≡ₚ finite_numbers values) by apply Array_sort_perm.
  split; [done |].
  split; [rewrite P; apply finite_numbers_finite |].
  unfold median. fold (finite_numbers values). fold arr.
  destruct arr as [|a arr']; [done |].
  unfold midpoint.
  change (Nat.eqb (length (a :: arr')) 0) with false. cbv iota.
  destruct (Nat.eqb (length (a :: arr') mod 2) 0) eqn:E.
  - apply Nat.eqb_eq in E.
    replace (Nat.even (length (a :: arr'))) with true; [done |].
    symmetry. apply Nat.even_spec. apply Nat.Div0.mod_divides in E as [k ->].
    by exists k.
  - apply Nat.eqb_neq in E.
    replace (Nat.even (length (a :: arr'))) with false; [done |].
    symmetry. apply not_true_is_false. intros Ev. apply E.
    apply Nat.even_spec in Ev as [k ->].
    rewrite Nat.mul_comm. apply Nat.Div0.mod_mul.
Qed.

(** The comparator [(a, b) => a - b] sorts binary64 numbers in ascending
    order. *)
Lemma median_sorted values :
  Forall double (finite_numbers values) →
  Sorted ascending (Array_sort (λ a b, num_sub a b) (finite_numbers values)).
Proof.
  intros D. apply (Array_sort_Sorted _ double); [| exact D].
  intros x y. apply minus_ascending.
Qed.
End numeric_utilities.

(** The binary64 numbers nearest to 0.1 and to 0.2. *)
Definition tenth : Q := 3602879701896397 # 36028797018963968.
Definition fifth : Q := 3602879701896397 # 18014398509481984.

(** On 0.1 and 0.2 the median is 0.15000000000000002, which is not the
    average of the two; on [2^1023] twice it is Infinity. *)
Lemma median_rounded :
  let m := (1351079888211149 # 9007199254740992)%Q in
  let huge := inject_Z (2 ^ 1023) in
  binary64 (1 # 10) = Fin tenth ∧ binary64 (2 # 10) = Fin fifth ∧
  @MarketOverview.median evaluation_builtins [VNum (Fin tenth); VNum (Fin fifth)] =
    Some (Fin m) ∧
  ¬ (m == (tenth + fifth) / 2)%Q ∧
  representable huge ∧
  @MarketOverview.median evaluation_builtins [VNum (Fin huge); VNum (Fin huge)] =
    Some PInf.
Proof.
  intros m huge. split; [vm_compute; reflexivity |].
  split; [vm_compute; reflexivity |]. split; [vm_compute; reflexivity |].
  split; [vm_compute; discriminate |].
  split; [| vm_compute; reflexivity].
  exists (2 ^ 52)%Z, 971%Z. split_and!; vm_compute; done.
Qed.

(** C8, amended.  [median] coerces every element with [Number], discards
    the results that are not finite and returns null when nothing is left;
    otherwise it returns the midpoint of the remaining values, which the sort
    puts in ascending order when they are binary64 numbers: the central one,
    or for an even count the binary64 value of [(a + b) / 2] for the two
    central ones, [a + b] being rounded as well.  In particular
    [median([]) = null], [median([5]) = 5], [median([1,3]) = 2] and
    [median([3,1,2]) = 2]. *)
Theorem median_midpoint `{Builtins} :
  (∀ values : list value,
     ∃ sorted : list num,
       sorted ≡ₚ finite_numbers values ∧
       (Forall double (finite_numbers values) → Sorted ascending sorted) ∧
       MarketOverview.median values =
         match sorted with [] => None | _ => Some (midpoint sorted) end) ∧
  (∀ a b : Q,
     midpoint [Fin a; Fin b] = num_div (binary64 (a + b)) (Fin 2) ∧
     ∀ s, binary64 (a + b) = Fin s → midpoint [Fin a; Fin b] = binary64 (s / 2)) ∧
  MarketOverview.median [] = None ∧
  MarketOverview.median [VNum (Fin 5)] = Some (Fin 5) ∧
  MarketOverview.median [VNum (Fin 1); VNum (Fin 3)] = Some (Fin 2) ∧
  MarketOverview.median [VNum (Fin 3); VNum (Fin 1); VNum (Fin 2)] = Some (Fin 2).
Proof.
  split.
  { intros values. eexists.
    pose proof (median_unfold values) as (P & _ & E).
    split; [exact P |]. split; [apply median_sorted | exact E]. }
  split.
  { intros a b. split; [reflexivity |]. intros s E.
    change (midpoint [Fin a; Fin b]) with (num_div (binary64 (a + b)) (Fin 2)).
    by rewrite E. }
  split; [reflexivity |]. split; [reflexivity |].
  split; vm_compute; reflexivity.
Qed.

Lemma median_midpoint_witness :
  let values := [VNum (Fin 3); VNum (Fin 1); VNum (Fin 2)] in
  ∃ sorted : list num,
    sorted ≡ₚ @finite_numbers evaluation_builtins values ∧
    Sorted ascending sorted ∧
    @MarketOverview.median evaluation_builtins values =
      match sorted with [] => None | _ => Some (midpoint sorted) end.
Proof.
  intros values.
  destruct (proj1 (@median_midpoint evaluation_builtins) values)
    as (sorted & P & S & E).
  exists sorted. split; [exact P |]. split; [| exact E]. apply S.
  repeat constructor; eexists; (split; [reflexivity |]).
  - apply (representable_Z 3). reflexivity.
  - apply (representable_Z 1). reflexivity.
  - apply (representable_Z 2). reflexivity.
Defined.

(** ** SnapshotBuilder *)

Definition finite_or_null (n : option num) : Prop :=
  match n with
  | None => True
  | Some x => finite x
  end.

Section snapshot_builder.
Context `{Builtins}.
Import MarketOverview.

Lemma safeNumber_finite_or_null v : finite_or_null (safeNumber v).
Proof.
  destruct (safeNumber v) eqn:E; [| done]. by apply safeNumber_finite in E.
Qed.

(** [new Map(...)] keeps, for every key, the last entry that carries it. *)
Lemma Map_new_lookup {V} (entries : list (string * V)) k :
  Map_new entries !! k = snd <$> last (List.filter (λ kv, String.eqb kv.1 k) entries).
Proof.
  unfold Map_new. induction entries as [|[k' v] entries IH] using rev_ind.
  - done.
  - rewrite foldl_app, List.filter_app, last_app. simpl.
    destruct (String.eqb k' k) eqn:E; simpl.
    + apply String.eqb_eq in E as ->. by rewrite lookup_insert_eq.
    + apply String.eqb_neq in E. by rewrite lookup_insert_ne.
Qed.

(** The last asset of the list that carries the identifier [id]. *)
Definition last_match (id : string) (arr : list MarketAsset) : option MarketAsset :=
  last (List.filter (λ c, String.eqb (asset_id c) id) arr).

(** The first asset of the list that carries the identifier [id]. *)
Definition first_match (id : string) (arr : list MarketAsset) : option MarketAsset :=
  List.find (λ c, String.eqb (asset_id c) id) arr.

Lemma byId_lookup (arr : list MarketAsset) id :
  Map_new (map (λ c, (asset_id c, c)) arr) !! id = last_match id arr.
Proof.
  rewrite Map_new_lookup. unfold last_match.
  induction arr as [|c arr IH] using rev_ind; [done |].
  rewrite map_app, !List.filter_app, !last_app. simpl.
  destruct (String.eqb (asset_id c) id); simpl; [done | exact IH].
Qed.

Lemma computeTop3Snapshot_last_match markets :
  computeTop3Snapshot markets =
    omap (λ id, condensed <$> last_match id (or_empty markets))
      ["bitcoin"; "ethereum"; "solana"].
Proof.
  unfold computeTop3Snapshot, filter_Boolean. simpl.
  rewrite !byId_lookup.
  by destruct (last_match "bitcoin" _), (last_match "ethereum" _),
    (last_match "solana" _).
Qed.

Lemma last_match_id id arr c : last_match id arr = Some c → asset_id c = id ∧ c ∈ arr.
Proof.
  unfold last_match. intros L. apply last_Some_elem_of in L.
  apply list_elem_of_In, filter_In in L as [L E].
  apply String.eqb_eq in E. split; [done | by apply list_elem_of_In].
Qed.

Lemma last_match_None id arr :
  last_match id arr = None ↔ ∀ c, c ∈ arr → asset_id c ≠ id.
Proof.
  unfold last_match. rewrite last_None. split.
  - intros E c Hc Hid.
    assert (In c (List.filter (λ c, String.eqb (asset_id c) id) arr)) as I.
    { apply filter_In. split; [by apply list_elem_of_In | by apply String.eqb_eq]. }
    rewrite E in I. destruct I.
  - intros N. destruct (List.filter _ arr) as [|c l] eqn:E; [done |].
    assert (In c (List.filter (λ c, String.eqb (asset_id c) id) arr)) as I
      by (rewrite E; by left).
    apply filter_In in I as [I Hid]. apply String.eqb_eq in Hid.
    apply list_elem_of_In in I. by destruct (N c I).
Qed.
End snapshot_builder.

Definition top3_ids : list string := ["bitcoin"; "ethereum"; "solana"].

Section top3.
Context `{Builtins}.
Import MarketOverview.

(** The entry shown for [id] in a snapshot of [arr]. *)
Definition shown (arr : list MarketAsset) (id : string) : option Top3Entry :=
  condensed <$> last_match id arr.

Lemma shown_id arr id e : shown arr id = Some e → snap_id e = id.
Proof.
  unfold shown. destruct (last_match id arr) as [c|] eqn:E; [| done].
  intros [= <-]. by apply last_match_id in E as [? _].
Qed.

Lemma omap_length_le {X Y} (f : X → option Y) l : length (omap f l) ≤ length l.
Proof.
  induction l as [|x l IH]; simpl; [done |].
  destruct (f x); simpl; [apply le_n_S | apply le_S]; exact IH.
Qed.

Lemma shown_sublist arr (ids : list string) : sublist (map snap_id (omap (shown arr) ids)) ids.
Proof.
  induction ids as [|id ids IH]; simpl; [constructor |].
  destruct (shown arr id) as [e|] eqn:E; simpl.
  - apply shown_id in E as ->. by apply sublist_skip.
  - by apply sublist_cons.
Qed.

Lemma shown_present arr (ids : list string) id :
  id ∈ ids →
  (∃ e, e ∈ omap (shown arr) ids ∧ snap_id e = id) ↔
  (∃ c, c ∈ arr ∧ asset_id c = id).
Proof.
  intros Hid. split.
  - intros (e & He & <-). apply list_elem_of_omap in He as (id' & _ & He).
    unfold shown in He.
    destruct (last_match id' arr) as [c|] eqn:E; [| done].
    injection He as <-. apply last_match_id in E as [_ Hc]. by exists c.
  - intros (c & Hc & <-).
    destruct (last_match (asset_id c) arr) as [c'|] eqn:E.
    + exists (condensed c'). split.
      * apply list_elem_of_omap. exists (asset_id c). split; [done |].
        unfold shown. by rewrite E.
      * by apply last_match_id in E as [? _].
    + rewrite last_match_None in E. by destruct (E c Hc).
Qed.
End top3.

(** The snapshot as the specification words it: each identifier is looked
    up in the list, the first match winning. *)
Definition first_match_snapshot `{Builtins}
    (markets : option (list MarketOverview.MarketAsset))
  : list MarketOverview.Top3Entry :=
  omap (λ id, MarketOverview.condensed <$> first_match id (or_empty markets))
    top3_ids.

Definition bitcoin_entry (name : string) (n : Q) : MarketOverview.MarketAsset :=
  {| MarketOverview.asset_id := "bitcoin";
     MarketOverview.asset_name := VStr name;
     MarketOverview.asset_symbol := VStr "btc";
     MarketOverview.current_price := VNum (Fin n);
     MarketOverview.market_cap := VNum (Fin n);
     MarketOverview.price_change_percentage_24h_in_currency := VNum (Fin n);
     MarketOverview.price_change_percentage_7d_in_currency := VNum (Fin n);
     MarketOverview.price_change_percentage_30d_in_currency := VNum (Fin n) |}.

(** On a list that holds two entries for bitcoin the snapshot shows the
    second one, where a first-match lookup shows the first. *)
Lemma computeTop3Snapshot_duplicate :
  let markets := Some [bitcoin_entry "first" 1; bitcoin_entry "second" 2] in
  @MarketOverview.computeTop3Snapshot evaluation_builtins markets =
    [@MarketOverview.condensed evaluation_builtins (bitcoin_entry "second" 2)] ∧
  @first_match_snapshot evaluation_builtins markets =
    [@MarketOverview.condensed evaluation_builtins (bitcoin_entry "first" 1)] ∧
  @MarketOverview.computeTop3Snapshot evaluation_builtins markets ≠
    @first_match_snapshot evaluation_builtins markets.
Proof. by repeat split. Qed.

(** C6, amended.  [computeTop3Snapshot] returns at most three entries, each
    with an identifier among bitcoin, ethereum and solana, in that relative
    order; an identifier that no asset of the list carries is omitted, and an
    identifier that several assets carry is shown through the last of them. *)
Theorem computeTop3Snapshot_last_wins `{Builtins}
    (markets : option (list MarketOverview.MarketAsset)) :
  let out := MarketOverview.computeTop3Snapshot markets in
  out = omap (λ id, MarketOverview.condensed <$> last_match id (or_empty markets))
          top3_ids ∧
  length out ≤ 3 ∧
  Forall (λ e, MarketOverview.snap_id e ∈ top3_ids) out ∧
  sublist (map MarketOverview.snap_id out) top3_ids ∧
  Forall (λ id,
    (∃ e, e ∈ out ∧ MarketOverview.snap_id e = id) ↔
    (∃ c, c ∈ or_empty markets ∧ MarketOverview.asset_id c = id)) top3_ids.
Proof.
  intros out. subst out. rewrite computeTop3Snapshot_last_match.
  fold top3_ids. fold (shown (or_empty markets)).
  split; [done |]. split; [apply (omap_length_le _ top3_ids) |].
  split.
  { apply Forall_forall. intros e He.
    apply list_elem_of_omap in He as (id & Hid & He).
    by apply shown_id in He as ->. }
  split; [apply shown_sublist |].
  apply Forall_forall. intros id Hid. by apply shown_present.
Qed.

(** C10.  Every numeric field of every entry of the snapshot, [priceUsd],
    [change24hPct], [change30dPct] and [marketCapUsd], is null or a finite
    number, never NaN nor an infinity. *)
Theorem computeTop3Snapshot_numeric_fields `{Builtins}
    (markets : option (list MarketOverview.MarketAsset)) :
  Forall (λ e,
      finite_or_null (MarketOverview.priceUsd e) ∧
      finite_or_null (MarketOverview.change24hPct e) ∧
      finite_or_null (MarketOverview.change30dPct e) ∧
      finite_or_null (MarketOverview.marketCapUsd e))
    (MarketOverview.computeTop3Snapshot markets).
Proof.
  rewrite computeTop3Snapshot_last_match. apply Forall_forall. intros e He.
  apply list_elem_of_omap in He as (id & _ & He).
  destruct (last_match id (or_empty markets)) as [c|]; [| done].
  injection He as <-. simpl. repeat split; apply safeNumber_finite_or_null.
Qed.

(** ** MoodStateSequencer *)

Definition no_neighbours : MarketOverview.Adjacent :=
  {| MarketOverview.prev := None; MarketOverview.next := None |}.

Section sequencer.
Import MarketOverview.

Lemma indexOf_from_absent (arr : list string) v i :
  (∀ s, s ∈ arr → v ≠ VStr s) → indexOf_from arr v i = (-1)%Z.
Proof.
  revert i. induction arr as [|s arr IH]; intros i Hv; simpl; [done |].
  destruct (strict_eq_str v s) eqn:E.
  - destruct v; try done. simpl in E. apply String.eqb_eq in E as ->.
    destruct (Hv s); [left | done].
  - apply IH. intros s' Hs'. apply Hv. by right.
Qed.

Lemma computeAdjacentStates_absent v :
  (∀ s, s ∈ states → v ≠ VStr s) → computeAdjacentStates v = no_neighbours.
Proof.
  intros Hv. unfold computeAdjacentStates, indexOf.
  by rewrite indexOf_from_absent.
Qed.

(** Whatever it is given, the sequencer answers with states or nulls. *)
Definition state_or_null (s : option string) : Prop :=
  match s with
  | None => True
  | Some s => s ∈ states
  end.

Lemma at_or_null_state i : state_or_null (at_or_null states i).
Proof.
  unfold at_or_null. destruct (i <? 0)%Z; [done |].
  destruct (states !! Z.to_nat i) as [s|] eqn:E; [| done].
  simpl. by apply list_elem_of_lookup_2 in E.
Qed.

Lemma computeAdjacentStates_valid v :
  state_or_null (prev (computeAdjacentStates v)) ∧
  state_or_null (next (computeAdjacentStates v)).
Proof.
  unfold computeAdjacentStates. destruct (_ =? _)%Z; [done |].
  split; apply at_or_null_state.
Qed.
End sequencer.

(** C7.  [computeAdjacentStates] is defined on every input.  On the five
    states of the fixed sequence it returns the neighbours in that sequence,
    null standing for the missing neighbour of the first and of the last
    state, so each boundary state has exactly one null side; the successor of
    the predecessor of an interior state is that state; on any other input
    both sides are null. *)
Theorem computeAdjacentStates_sequence :
  let adj v := MarketOverview.computeAdjacentStates v in
  let result p n := {| MarketOverview.prev := p; MarketOverview.next := n |} in
  MarketOverview.states =
    ["crumbs-everywhere"; "clutching-cookies"; "side-eye"; "steady-bite";
     "snack-mode"] ∧
  adj (VStr "crumbs-everywhere") = result None (Some "clutching-cookies") ∧
  adj (VStr "clutching-cookies") =
    result (Some "crumbs-everywhere") (Some "side-eye") ∧
  adj (VStr "side-eye") = result (Some "clutching-cookies") (Some "steady-bite") ∧
  adj (VStr "steady-bite") = result (Some "side-eye") (Some "snack-mode") ∧
  adj (VStr "snack-mode") = result (Some "steady-bite") None ∧
  Forall (λ s, ∃ p, MarketOverview.prev (adj (VStr s)) = Some p ∧
                    MarketOverview.next (adj (VStr p)) = Some s)
    ["clutching-cookies"; "side-eye"; "steady-bite"] ∧
  (∀ v, (∃ s, s ∈ MarketOverview.states ∧ v = VStr s) ∨ adj v = no_neighbours).
Proof.
  intros adj result. repeat (split; [reflexivity |]). split.
  { repeat (apply Forall_cons; split; [eexists; split; reflexivity |]).
    constructor. }
  intros v.
  assert (D : (∃ s, v = VStr s) ∨ ∀ s, v ≠ VStr s)
    by (destruct v; eauto; by right).
  destruct D as [[s ->] | N].
  - destruct (decide (s ∈ MarketOverview.states)) as [I|I]; [by eauto |].
    right. apply computeAdjacentStates_absent. by intros s' Hs' [= ->].
  - right. apply computeAdjacentStates_absent. by intros s _.
Qed.

(** ** MoodScorer *)

(** *** The documented formula, over the rationals *)

Definition clamp (lo hi x : Q) : Q := Qmax lo (Qmin hi x).

(** The nearest integer, a tie going up. *)
Definition round_nearest (x : Q) : Z := Qfloor (x + (1 # 2)).

(** Start at 50; add [(pctUp24h - 0.5) * 40] and [(pctUp7d - 0.5) * 40];
    subtract [leadershipGap30d * 0.5] when the gap is not null and positive;
    add [globalChange * 1.5] when it is not null. *)
Definition documented_blend (pctUp24h pctUp7d : Q)
    (leadershipGap30d globalChange : option Q) : Q :=
  (50 + (pctUp24h - (1 # 2)) * 40 + (pctUp7d - (1 # 2)) * 40
   - match leadershipGap30d with
     | Some gap => if Qle_bool gap 0 then 0 else gap * (1 # 2)
     | None => 0
     end
   + match globalChange with
     | Some change => change * (3 # 2)
     | None => 0
     end)%Q.

(** ... then clamp to [0,100] and round to the nearest integer. *)
Definition documented_score (pctUp24h pctUp7d : Q)
    (leadershipGap30d globalChange : option Q) : Z :=
  round_nearest
    (clamp 0 100 (documented_blend pctUp24h pctUp7d leadershipGap30d globalChange)).

(** *** The documented formula, in binary64

    The same steps in the same order, each operation rounded. *)

Definition binary64_blend (pctUp24h pctUp7d : num)
    (leadershipGap30d globalChange : option num) : num :=
  let score := Fin 50 in
  let score := num_add score (num_mul (num_sub pctUp24h (Fin (1 # 2))) (Fin 40)) in
  let score := num_add score (num_mul (num_sub pctUp7d (Fin (1 # 2))) (Fin 40)) in
  let score :=
    match leadershipGap30d with
    | Some gap =>
        if num_gt gap (Fin 0) then num_sub score (num_mul gap (Fin (1 # 2)))
        else score
    | None => score
    end in
  match globalChange with
  | Some change => num_add score (num_mul change (Fin (3 # 2)))
  | None => score
  end.

(** Clamp to [0,100], then round to the nearest integer. *)
Definition clamp_round (x : num) : num :=
  Math_round (Math_max (Fin 0) (Math_min (Fin 100) x)).

(** Round, then clamp, as [Math.max(0, Math.min(100, Math.round(x)))] does. *)
Definition round_clamp (x : num) : num :=
  Math_max (Fin 0) (Math_min (Fin 100) (Math_round x)).

Lemma Qcompare_inject_Z a b : (inject_Z a ?= inject_Z b)%Q = (a ?= b)%Z.
Proof. unfold Qcompare. simpl. by rewrite !Z.mul_1_r. Qed.

Lemma of_Z_inj a b : of_Z a = of_Z b → a = b.
Proof. by intros [= ->]. Qed.

Lemma Qfloor_unique x z :
  (inject_Z z <= x)%Q → (x < inject_Z (z + 1))%Q → Qfloor x = z.
Proof.
  intros L U. apply Z.le_antisymm.
  - apply Z.lt_succ_r. rewrite Zlt_Qlt.
    eapply Qle_lt_trans; [apply Qfloor_le | exact U].
  - rewrite <- (Qfloor_Z z). by apply Qfloor_resp_le.
Qed.

Lemma round_nearest_mono x y : (x <= y)%Q → (round_nearest x <= round_nearest y)%Z.
Proof. intros L. apply Qfloor_resp_le. lra. Qed.

Lemma round_nearest_Z (k : Z) : round_nearest (inject_Z k) = k.
Proof.
  unfold round_nearest. apply Qfloor_unique; rewrite ?inject_Z_plus;
    change (inject_Z 1) with 1%Q; lra.
Qed.

Lemma round_nearest_comp x y : (x == y)%Q → round_nearest x = round_nearest y.
Proof. intros E. unfold round_nearest. by rewrite E. Qed.

Lemma round_nearest_ge x (k : Z) : (inject_Z k <= x)%Q → (k <= round_nearest x)%Z.
Proof. intros L. rewrite <- (round_nearest_Z k). by apply round_nearest_mono. Qed.

Lemma round_nearest_le x (k : Z) : (x <= inject_Z k)%Q → (round_nearest x <= k)%Z.
Proof. intros L. rewrite <- (round_nearest_Z k) at 1. by apply round_nearest_mono. Qed.

(** Rounding and then clamping, as the code does, is clamping and then
    rounding, as the specification says. *)
Lemma round_clamp_commute x :
  Z.max 0 (Z.min 100 (round_nearest x)) = round_nearest (clamp 0 100 x).
Proof.
  unfold clamp.
  destruct (Q.min_spec 100 x) as [[M E] | [M E]].
  - assert (100 <= round_nearest x)%Z as R
      by (apply round_nearest_ge; change (inject_Z 100) with 100%Q; lra).
    rewrite (round_nearest_comp (Qmax 0 (Qmin 100 x)) (inject_Z 100)).
    + rewrite round_nearest_Z. lia.
    + rewrite E. apply Q.max_r. done.
  - destruct (Q.max_spec 0 x) as [[M' E'] | [M' E']].
    + rewrite (round_nearest_comp (Qmax 0 (Qmin 100 x)) x)
        by (by rewrite E).
      assert (0 <= round_nearest x)%Z
        by (apply round_nearest_ge; change (inject_Z 0) with 0%Q; lra).
      assert (round_nearest x <= 100)%Z
        by (apply round_nearest_le; change (inject_Z 100) with 100%Q; lra).
      lia.
    + rewrite (round_nearest_comp (Qmax 0 (Qmin 100 x)) (inject_Z 0))
        by (by rewrite E).
      assert (round_nearest x <= 0)%Z
        by (apply round_nearest_le; change (inject_Z 0) with 0%Q; lra).
      rewrite round_nearest_Z. lia.
Qed.

Lemma round_nearest_clamp_range x :
  (0 <= round_nearest (clamp 0 100 x) <= 100)%Z.
Proof. rewrite <- round_clamp_commute. lia. Qed.

Lemma clamp_mono x y : (x <= y)%Q → (clamp 0 100 x <= clamp 0 100 y)%Q.
Proof.
  intros L. unfold clamp. apply Q.max_le_compat_l. by apply Q.min_le_compat_l.
Qed.

Lemma clamp_le x (k : Q) : (0 <= k)%Q → (x <= k)%Q → (clamp 0 100 x <= k)%Q.
Proof.
  intros K L. unfold clamp. apply Q.max_lub; [exact K |].
  eapply Qle_trans; [apply Q.le_min_r | exact L].
Qed.

Lemma clamp_ge x (k : Q) : (k <= 100)%Q → (k <= x)%Q → (k <= clamp 0 100 x)%Q.
Proof.
  intros K L. unfold clamp. eapply Qle_trans; [| apply Q.le_max_r].
  by apply Q.min_glb.
Qed.

Lemma Math_min_of_Z a b : Math_min (of_Z a) (of_Z b) = of_Z (Z.min a b).
Proof.
  unfold Math_min, of_Z. simpl. rewrite Qcompare_inject_Z.
  destruct (Z.compare_spec a b); f_equal; f_equal; lia.
Qed.

Lemma Math_max_of_Z a b : Math_max (of_Z a) (of_Z b) = of_Z (Z.max a b).
Proof.
  unfold Math_max, of_Z. simpl. rewrite Qcompare_inject_Z.
  destruct (Z.compare_spec a b); f_equal; f_equal; lia.
Qed.

Lemma round_clamp_Fin q :
  round_clamp (Fin q) = of_Z (round_nearest (clamp 0 100 q)).
Proof.
  unfold round_clamp, Math_round.
  change (Fin 100) with (of_Z 100). change (Fin 0) with (of_Z 0).
  rewrite Math_min_of_Z, Math_max_of_Z. f_equal.
  change (Qfloor (q + (1 # 2))) with (round_nearest q).
  apply round_clamp_commute.
Qed.

(** The code rounds and then clamps; the specification clamps and then
    rounds; the two agree on every number. *)
Lemma round_clamp_clamp_round x : round_clamp x = clamp_round x.
Proof.
  destruct x as [| | |q]; try reflexivity.
  rewrite round_clamp_Fin. unfold clamp_round.
  destruct (is_q_max (Fin 0) (Math_min (Fin 100) (Fin q)) 0 (Qmin 100 q))
    as (c & -> & Ec).
  - apply is_q_Fin.
  - apply is_q_min; apply is_q_Fin.
  - unfold Math_round. f_equal. symmetry. by apply round_nearest_comp.
Qed.

(** The score is an integer between 0 and 100 unless the blend is NaN. *)
Lemma round_clamp_range x :
  x ≠ NaN → ∃ z : Z, round_clamp x = of_Z z ∧ (0 ≤ z ≤ 100)%Z.
Proof.
  destruct x as [| | |q]; intros N; [done | by exists 100%Z | by exists 0%Z |].
  rewrite round_clamp_Fin. eexists. split; [reflexivity |].
  apply round_nearest_clamp_range.
Qed.

Lemma round_clamp_le x (k : Z) :
  num_le x (of_Z k) = true → (0 ≤ k)%Z →
  ∃ z : Z, round_clamp x = of_Z z ∧ (0 ≤ z ≤ k)%Z.
Proof.
  destruct x as [| | |q]; try done; intros L K.
  - exists 0%Z. split; [reflexivity | lia].
  - apply num_le_Fin in L. rewrite round_clamp_Fin. eexists. split; [reflexivity |].
    split; [apply round_nearest_clamp_range |].
    apply round_nearest_le, clamp_le; [| done].
    change 0%Q with (inject_Z 0). by rewrite <- Zle_Qle.
Qed.

Lemma round_clamp_ge x (k : Z) :
  num_le (of_Z k) x = true → (k ≤ 100)%Z →
  ∃ z : Z, round_clamp x = of_Z z ∧ (k ≤ z ≤ 100)%Z.
Proof.
  destruct x as [| | |q]; try done; intros L K.
  - exists 100%Z. split; [reflexivity | lia].
  - apply num_le_Fin in L. rewrite round_clamp_Fin. eexists. split; [reflexivity |].
    split; [| apply round_nearest_clamp_range].
    apply round_nearest_ge, clamp_ge; [| done].
    change 100%Q with (inject_Z 100). by rewrite <- Zle_Qle.
Qed.

Lemma round_clamp_mono x y (z1 z2 : Z) :
  num_le x y = true → round_clamp x = of_Z z1 → round_clamp y = of_Z z2 →
  (z1 ≤ z2)%Z.
Proof.
  intros L E1 E2.
  assert (∀ u z, round_clamp u = of_Z z → (0 ≤ z ≤ 100)%Z ∧
            match u with
            | NaN => False
            | PInf => z = 100%Z
            | NInf => z = 0%Z
            | Fin q => z = round_nearest (clamp 0 100 q)
            end) as Sh.
  { intros [| | |q] z E; [done | | |].
    - apply (of_Z_inj 100) in E. lia.
    - apply (of_Z_inj 0) in E. lia.
    - rewrite round_clamp_Fin in E. apply of_Z_inj in E. subst z.
      split; [apply round_nearest_clamp_range | done]. }
  destruct (Sh x z1 E1) as [R1 S1], (Sh y z2 E2) as [R2 S2].
  destruct x as [| | |p], y as [| | |q]; try done; try lia.
  subst. apply num_le_Fin in L. by apply round_nearest_mono, clamp_mono.
Qed.

(** *** Bounds on rounded values *)

Lemma binary64_le q hi :
  representable hi → (q <= hi)%Q → num_le (binary64 q) (Fin hi) = true.
Proof.
  intros R L. pose proof (binary64_mono q hi L) as M.
  rewrite (binary64_representable hi R) in M.
  destruct (binary64 q) as [| | |v]; try done.
  unfold fin in M. apply num_le_Fin in M. rewrite Qred_correct in M.
  by apply num_le_Fin.
Qed.

Lemma binary64_ge lo q :
  representable lo → (lo <= q)%Q → num_le (Fin lo) (binary64 q) = true.
Proof.
  intros R L. pose proof (binary64_mono lo q L) as M.
  rewrite (binary64_representable lo R) in M.
  destruct (binary64 q) as [| | |v]; try done.
  unfold fin in M. apply num_le_Fin in M. rewrite Qred_correct in M.
  by apply num_le_Fin.
Qed.

(** Establishes that a constant is a binary64 number from its significand
    and exponent. *)
Ltac representable_as n e := exists n, e; split_and!; vm_compute; done.

Lemma representable_0 : representable 0.
Proof. representable_as 0%Z 0%Z. Qed.

Lemma representable_1 : representable 1.
Proof. representable_as 1%Z 0%Z. Qed.

Lemma representable_half : representable (1 # 2).
Proof. representable_as 1%Z (-1)%Z. Qed.

Lemma representable_minus_half : representable (- (1 # 2)).
Proof. representable_as (-1)%Z (-1)%Z. Qed.

Lemma num_le_add_r s x y :
  num_le x y = true →
  num_add s x = NaN ∨ num_add s y = NaN ∨ num_le (num_add s x) (num_add s y) = true.
Proof.
  intros L.
  destruct s as [| | |p], x as [| | |a], y as [| | |b]; try done; simpl;
    try (by left); try (by right; left); try (by right; right);
    right; right;
    match goal with
    | |- num_le NInf (binary64 ?q) = true =>
        pose proof (binary64_not_NaN q); by destruct (binary64 q)
    | |- num_le (binary64 ?q) PInf = true =>
        pose proof (binary64_not_NaN q); by destruct (binary64 q)
    | |- num_le (binary64 _) (binary64 _) = true =>
        apply num_le_Fin in L; apply binary64_mono; lra
    end.
Qed.

Section mood_scorer.
Context `{Builtins}.
Import MarketOverview.

Definition up24h (c : MarketAsset) : bool :=
  is_up (price_change_percentage_24h_in_currency c).
Definition up7d (c : MarketAsset) : bool :=
  is_up (price_change_percentage_7d_in_currency c).

(** The fraction of the assets of [arr] that [up] holds of. *)
Definition breadth (up : MarketAsset → bool) (arr : list MarketAsset) : Q :=
  inject_Z (Z.of_nat (length (List.filter up arr))) /
  inject_Z (Z.of_nat (length arr)).

Lemma breadth_range up c rest :
  (0 <= breadth up (c :: rest) <= 1)%Q.
Proof.
  unfold breadth.
  assert (length (List.filter up (c :: rest)) ≤ length (c :: rest)) as L
    by apply filter_length_le.
  set (a := length (List.filter up (c :: rest))) in *.
  set (b := length (c :: rest)) in *.
  assert (0 < b) as Pb by (unfold b; simpl; lia).
  assert (0 < inject_Z (Z.of_nat b))%Q as Qb
    by (change 0%Q with (inject_Z 0); rewrite <- Zlt_Qlt; lia).
  assert (0 <= inject_Z (Z.of_nat a))%Q as Qa
    by (change 0%Q with (inject_Z 0); rewrite <- Zle_Qle; lia).
  assert (inject_Z (Z.of_nat a) <= inject_Z (Z.of_nat b))%Q as Qab
    by (rewrite <- Zle_Qle; lia).
  split.
  - apply Qle_shift_div_l; [exact Qb | lra].
  - apply Qle_shift_div_r; [exact Qb | lra].
Qed.

(** Each breadth fraction is the quotient of two counts, rounded. *)
Lemma pctUp_breadth up c rest :
  num_div (of_nat (length (List.filter up (c :: rest))))
          (of_nat (length (c :: rest))) =
  binary64 (breadth up (c :: rest)).
Proof.
  unfold num_div, of_nat, of_Z, breadth.
  destruct (Qeq_bool _ 0) eqn:E; [| done].
  apply Qeq_bool_eq in E. change 0%Q with (inject_Z 0) in E.
  rewrite inject_Z_injective in E. simpl length in E. lia.
Qed.

Lemma pctUp24h_breadth c rest :
  mood_pctUp24h (c :: rest) = binary64 (breadth up24h (c :: rest)).
Proof. apply pctUp_breadth. Qed.

Lemma pctUp7d_breadth c rest :
  mood_pctUp7d (c :: rest) = binary64 (breadth up7d (c :: rest)).
Proof. apply pctUp_breadth. Qed.

Lemma pctUp_between up c rest : between 0 1 (binary64 (breadth up (c :: rest))).
Proof.
  apply binary64_between;
    [apply representable_0 | apply representable_1 | apply breadth_range].
Qed.

Lemma arr_at_finite arr i : Forall finite arr → i < length arr → finite (arr_at arr i).
Proof.
  intros F L. unfold arr_at.
  destruct (lookup_lt_is_Some_2 arr i L) as [x E]. rewrite E. simpl.
  eapply Forall_lookup_1; eauto.
Qed.

(** The midpoint may overflow to an infinity; it is never NaN. *)
Lemma midpoint_not_NaN arr : arr ≠ [] → Forall finite arr → midpoint arr ≠ NaN.
Proof.
  intros N F. unfold midpoint.
  assert (0 < length arr) by (destruct arr; [done | simpl; lia]).
  assert (length arr / 2 < length arr)%nat by (apply Nat.div_lt; lia).
  destruct (Nat.even _).
  - destruct (arr_at_finite arr (length arr / 2 - 1) F) as [a ->]; [lia |].
    destruct (arr_at_finite arr (length arr / 2) F) as [b ->]; [lia |].
    simpl. pose proof (binary64_not_NaN (a + b)) as Ns.
    destruct (binary64 (a + b)) as [| | |s]; try done.
    simpl. apply binary64_not_NaN.
  - by destruct (arr_at_finite arr (length arr / 2) F) as [b ->].
Qed.

Lemma median_not_NaN values m : median values = Some m → m ≠ NaN.
Proof.
  destruct (median_unfold values) as (_ & F & ->).
  destruct (Array_sort _ _) as [|a arr] eqn:E; [done |].
  intros [= <-]. by apply midpoint_not_NaN.
Qed.

Lemma leadershipGap30d_not_NaN arr gap :
  mood_leadershipGap30d arr = Some gap → gap ≠ NaN.
Proof.
  unfold mood_leadershipGap30d.
  destruct (mood_btc30d arr) as [b|] eqn:Eb; [| done].
  destruct (mood_medianAlt30d arr) as [m|] eqn:Em; [| done].
  apply safeNumber_finite in Eb as [x ->]. apply median_not_NaN in Em.
  intros [= <-]. destruct m as [| | |y]; try done.
  apply binary64_not_NaN.
Qed.

Lemma mcapChange24h_finite globalJson change :
  mood_mcapChange24h globalJson = Some change → finite change.
Proof.
  unfold mood_mcapChange24h.
  destruct (safeNumber _) as [x|] eqn:E.
  - intros [= <-]. by apply safeNumber_finite in E.
  - apply safeNumber_finite.
Qed.

(** The blend after its two breadth terms lies between 10 and 90. *)
Definition breadth_terms (pctUp24h pctUp7d : num) : num :=
  num_add
    (num_add (Fin 50) (num_mul (num_sub pctUp24h (Fin (1 # 2))) (Fin 40)))
    (num_mul (num_sub pctUp7d (Fin (1 # 2))) (Fin 40)).

Lemma breadth_term_between p :
  between 0 1 p → between (-20) 20 (num_mul (num_sub p (Fin (1 # 2))) (Fin 40)).
Proof.
  intros (a & -> & Ba).
  destruct (binary64_between (- (1 # 2)) (1 # 2) (a - (1 # 2)))
    as (t & Et & Bt);
    [apply representable_minus_half | apply representable_half | lra |].
  simpl. rewrite Et. simpl.
  apply binary64_between;
    [apply (representable_Z (-20)) | apply (representable_Z 20) | lra]; done.
Qed.

Lemma breadth_terms_between p24 p7 :
  between 0 1 p24 → between 0 1 p7 → between 10 90 (breadth_terms p24 p7).
Proof.
  intros B24 B7. unfold breadth_terms.
  destruct (breadth_term_between p24 B24) as (u & -> & Bu).
  destruct (breadth_term_between p7 B7) as (v & -> & Bv).
  destruct (binary64_between 30 70 (50 + u)) as (s & Es & Bs);
    [apply (representable_Z 30) | apply (representable_Z 70) | lra | ]; try done.
  simpl. rewrite Es. simpl.
  apply binary64_between;
    [apply (representable_Z 10) | apply (representable_Z 90) | lra]; done.
Qed.

(** The leadership penalty never raises the score. *)
Lemma penalty_le (s hi : Q) gap :
  representable hi → (s <= hi)%Q → gap ≠ NaN →
  num_le (num_sub (Fin s) (num_mul (Math_max (Fin 0) gap) (Fin (1 # 2)))) (Fin hi) =
    true.
Proof.
  intros R L N. destruct gap as [| | |g]; [done | done | |].
  - change (Math_max (Fin 0) NInf) with (Fin 0).
    replace (num_mul (Fin 0) (Fin (1 # 2))) with (Fin 0)
      by (vm_compute; reflexivity).
    apply binary64_le; [done | lra].
  - destruct (is_q_max (Fin 0) (Fin g) 0 g) as (m & -> & Em);
      [apply is_q_Fin | apply is_q_Fin |].
    assert (0 <= m)%Q as Pm by (rewrite Em; apply Q.le_max_l).
    pose proof (binary64_ge 0 (m * (1 # 2)) representable_0 ltac:(lra)) as G.
    simpl. destruct (binary64 (m * (1 # 2))) as [| | |p]; try done.
    apply num_le_Fin in G. apply binary64_le; [done | lra].
Qed.

(** The code's [Math.max(0, gap) * 0.5] is the documented penalty, applied
    when the gap is positive. *)
Lemma mood_blend_documented p24 p7 gap change :
  (∀ g, gap = Some g → g ≠ NaN) →
  mood_blend p24 p7 gap change = binary64_blend p24 p7 gap change.
Proof.
  intros N. unfold mood_blend, binary64_blend. cbv zeta.
  set (s := num_add (num_add _ _) _).
  assert (rounded s) as Rs by apply num_add_rounded.
  assert (match gap with
          | Some g => num_sub s (num_mul (Math_max (Fin 0) g) (Fin (1 # 2)))
          | None => s
          end =
          match gap with
          | Some g =>
              if num_gt g (Fin 0) then num_sub s (num_mul g (Fin (1 # 2))) else s
          | None => s
          end) as ->; [| done].
  destruct gap as [g|]; [| done]. specialize (N g eq_refl).
  assert (num_sub s (num_mul (Fin 0) (Fin (1 # 2))) = s) as Z0.
  { replace (num_mul (Fin 0) (Fin (1 # 2))) with (Fin 0)
      by (vm_compute; reflexivity).
    by apply num_sub_0. }
  destruct g as [| | |g]; [done | done | exact Z0 |].
  unfold Math_max, num_gt. simpl num_compare.
  rewrite <- (Qcompare_antisym g 0).
  destruct (Qcompare_spec g 0); simpl; done.
Qed.
End mood_scorer.

Definition mood_pairs : list (string * string) :=
  [("crumbs-everywhere", "Crumbs Everywhere");
   ("clutching-cookies", "Clutching Cookies");
   ("side-eye", "Side-Eye");
   ("steady-bite", "Steady Bite");
   ("snack-mode", "Snack Mode")].

Definition unknown_mood : MarketOverview.MoodResult :=
  {| MarketOverview.state := "unknown";
     MarketOverview.label := "Unknown";
     MarketOverview.score := None;
     MarketOverview.metrics := VObj [] |}.

Section mood_result.
Context `{Builtins}.
Import MarketOverview.

(** The score of a non-empty list, before it is mapped to a state. *)
Definition raw_score (arr : list MarketAsset) (globalJson : value) : num :=
  round_clamp
    (mood_blend (mood_pctUp24h arr) (mood_pctUp7d arr)
       (mood_leadershipGap30d arr) (mood_mcapChange24h globalJson)).

Lemma computeMood_nonempty c rest globalJson :
  let m := computeMood (Some (c :: rest)) globalJson in
  score m = Some (raw_score (c :: rest) globalJson) ∧
  (state m, label m) ∈ mood_pairs.
Proof.
  unfold computeMood. cbn [or_empty default length Nat.eqb].
  change (Math_max (Fin 0) (Math_min (Fin 100) (Math_round ?x)))
    with (round_clamp x).
  fold (raw_score (c :: rest) globalJson).
  repeat destruct (num_ge _ _); cbn [state label score];
    (split; [reflexivity |]); unfold mood_pairs; set_solver.
Qed.

(** The score in terms of the documented steps. *)
Lemma raw_score_documented c rest globalJson :
  let arr := c :: rest in
  raw_score arr globalJson =
    round_clamp
      (binary64_blend (binary64 (breadth up24h arr)) (binary64 (breadth up7d arr))
         (mood_leadershipGap30d arr) (mood_mcapChange24h globalJson)).
Proof.
  intros arr. unfold raw_score. subst arr.
  rewrite pctUp24h_breadth, pctUp7d_breadth.
  rewrite mood_blend_documented; [done |].
  intros g. apply leadershipGap30d_not_NaN.
Qed.

(** The score of a list without a global change: the breadth terms, less
    the leadership penalty. *)
Lemma raw_score_without_global c rest globalJson :
  mood_mcapChange24h globalJson = None →
  let arr := c :: rest in
  ∃ s, between 10 90 (Fin s) ∧
       breadth_terms (mood_pctUp24h arr) (mood_pctUp7d arr) = Fin s ∧
       raw_score arr globalJson =
         round_clamp
           match mood_leadershipGap30d arr with
           | Some gap =>
               num_sub (Fin s) (num_mul (Math_max (Fin 0) gap) (Fin (1 # 2)))
           | None => Fin s
           end.
Proof.
  intros Hmc arr.
  destruct (breadth_terms_between (mood_pctUp24h arr) (mood_pctUp7d arr))
    as (s & Es & Bs).
  - subst arr. rewrite pctUp24h_breadth. apply pctUp_between.
  - subst arr. rewrite pctUp7d_breadth. apply pctUp_between.
  - exists s. split; [by exists s |]. split; [exact Es |].
    unfold raw_score, mood_blend. cbv zeta. rewrite Hmc.
    fold (breadth_terms (mood_pctUp24h arr) (mood_pctUp7d arr)). by rewrite Es.
Qed.
End mood_result.

(** C4.  On the empty asset list, and on a missing one, [computeMood] returns
    [{state:"unknown", label:"Unknown", score:null, metrics:{}}] whatever the
    global statistics are. *)
Theorem computeMood_empty `{Builtins} (globalJson : value) :
  MarketOverview.computeMood None globalJson = unknown_mood ∧
  MarketOverview.computeMood (Some []) globalJson = unknown_mood.
Proof. split; reflexivity. Qed.

(** *** A list on which the blend is a tie in exact arithmetic *)

Definition listed (id : string) (change24h change7d change30d : Q)
  : MarketOverview.MarketAsset :=
  {| MarketOverview.asset_id := id;
     MarketOverview.asset_name := VStr id;
     MarketOverview.asset_symbol := VStr id;
     MarketOverview.current_price := VNum (Fin 1);
     MarketOverview.market_cap := VNum (Fin 1);
     MarketOverview.price_change_percentage_24h_in_currency := VNum (Fin change24h);
     MarketOverview.price_change_percentage_7d_in_currency := VNum (Fin change7d);
     MarketOverview.price_change_percentage_30d_in_currency :=
       VNum (Fin change30d) |}.

(** Six assets: one of them up over 24 hours, two over 7 days; bitcoin is
    1 ahead of the median of the others over 30 days. *)
Definition six_assets : list MarketOverview.MarketAsset :=
  [listed "bitcoin" 2 3 1; listed "ethereum" (-1) 4 0; listed "solana" (-2) (-1) 0;
   listed "cardano" (-1) (-3) (-2); listed "dogecoin" (-3) (-2) 5;
   listed "tether" 0 0 0].

(** The documented blend of [six_assets] is
    [50 + (1/6 - 1/2) * 40 + (2/6 - 1/2) * 40 - 1 * 1/2 = 59/2], which rounds
    to 30; the code, computing in binary64, gets 29.499999999999996 and
    returns 29. *)
Lemma computeMood_score_rounding :
  let m := @MarketOverview.computeMood evaluation_builtins (Some six_assets) VNull in
  (breadth (@up24h evaluation_builtins) six_assets == 1 # 6)%Q ∧
  (breadth (@up7d evaluation_builtins) six_assets == 2 # 6)%Q ∧
  @MarketOverview.mood_leadershipGap30d evaluation_builtins six_assets =
    Some (Fin 1) ∧
  (documented_blend (1 # 6) (2 # 6) (Some 1%Q) None == 59 # 2)%Q ∧
  documented_score (1 # 6) (2 # 6) (Some 1%Q) None = 30%Z ∧
  MarketOverview.score m = Some (Fin 29) ∧
  MarketOverview.state m = "crumbs-everywhere".
Proof. split_and!; vm_compute; reflexivity. Qed.

(** C1, amended.  On a non-empty asset list the score of [computeMood] is
    the documented blend evaluated in binary64 (the two breadth fractions,
    the leadership gap and the global change combined step by step, each
    operation rounded), clamped to [0,100] and rounded to the nearest
    integer; clamping before rounding and rounding before clamping agree.
    The score is an integer between 0 and 100 whenever the blend is not
    NaN. *)
Theorem computeMood_score `{Builtins}
    (c : MarketOverview.MarketAsset) (rest : list MarketOverview.MarketAsset)
    (globalJson : value) :
  let arr := c :: rest in
  let pctUp24h := binary64 (breadth up24h arr) in
  let pctUp7d := binary64 (breadth up7d arr) in
  let leadershipGap30d := MarketOverview.mood_leadershipGap30d arr in
  let globalChange := MarketOverview.mood_mcapChange24h globalJson in
  let blend := binary64_blend pctUp24h pctUp7d leadershipGap30d globalChange in
  let m := MarketOverview.computeMood (Some arr) globalJson in
  MarketOverview.mood_pctUp24h arr = pctUp24h ∧
  MarketOverview.mood_pctUp7d arr = pctUp7d ∧
  MarketOverview.score m = Some (clamp_round blend) ∧
  clamp_round blend = round_clamp blend ∧
  (blend ≠ NaN →
   ∃ z : Z, MarketOverview.score m = Some (of_Z z) ∧ (0 ≤ z ≤ 100)%Z).
Proof.
  intros arr pctUp24h pctUp7d leadershipGap30d globalChange blend m.
  destruct (computeMood_nonempty c rest globalJson) as [S _]. fold arr m in S.
  rewrite (raw_score_documented c rest globalJson) in S.
  fold arr pctUp24h pctUp7d leadershipGap30d globalChange blend in S.
  split; [apply pctUp24h_breadth |]. split; [apply pctUp7d_breadth |].
  split; [by rewrite <- round_clamp_clamp_round |].
  split; [by rewrite round_clamp_clamp_round |].
  intros N. destruct (round_clamp_range blend N) as (z & E & R).
  exists z. by rewrite S, E.
Qed.

Lemma computeMood_score_witness :
  ∃ z : Z,
    MarketOverview.score
      (@MarketOverview.computeMood evaluation_builtins (Some six_assets) VNull) =
      Some (of_Z z) ∧
    (0 ≤ z ≤ 100)%Z.
Proof.
  apply (@computeMood_score evaluation_builtins (listed "bitcoin" 2 3 1)
           (tail six_assets) VNull).
  vm_compute. discriminate.
Defined.

(** ** AggregationOrchestrator *)

(** Splits a hypothesis on the outcome of an effectful body along the
    branches of that body. *)
Ltac run_body H :=
  repeat
    (simpl in H;
     match type of H with
     | (inl _, _) = (inr _, _) => discriminate H
     | (inr _, _) = (inl _, _) => discriminate H
     | context [match ?x with _ => _ end] => destruct x eqn:?
     | context [if ?b then _ else _] => destruct b eqn:?
     end).

Section orchestrator.
Context `{Builtins}.
Import MarketOverview.

Lemma fetchFromCoinGecko_mood up log payload log' :
  fetchFromCoinGecko up log = (inr payload, log') →
  baseMood (mood payload) = computeMood (Some (markets payload)) (global payload) ∧
  adjacent (mood payload) =
    computeAdjacentStates (VStr (state (baseMood (mood payload)))) ∧
  ghostKey (mood payload) = state (baseMood (mood payload)).
Proof.
  intros E. unfold fetchFromCoinGecko, bind, fetch, await, ret, throw in E.
  run_body E. by injection E as <- _.
Qed.
End orchestrator.

(** *** Sample upstreams and a sample payload *)

Definition answered {A} (body : A) : option (FetchResponse A) :=
  Some {| ok := true; status := 200; json := Some body |}.

Definition sample_upstream : MarketOverview.Upstream :=
  {| MarketOverview.markets_answer := answered [bitcoin_entry "Bitcoin" 2];
     MarketOverview.trending_answer :=
       answered (VObj [("coins", VArr [VObj [("item", VObj [("id", VStr "pepe")])]])]);
     MarketOverview.global_answer :=
       answered
         (VObj [("data",
                 VObj [("market_cap_change_percentage_24h_usd", VNum (Fin 1))])]);
     MarketOverview.simple_price_answer := λ _, answered (VObj []) |}.

(** The listings request is answered with a server error. *)
Definition failing_upstream : MarketOverview.Upstream :=
  {| MarketOverview.markets_answer :=
       Some {| ok := false; status := 503; json := None |};
     MarketOverview.trending_answer := MarketOverview.trending_answer sample_upstream;
     MarketOverview.global_answer := MarketOverview.global_answer sample_upstream;
     MarketOverview.simple_price_answer :=
       MarketOverview.simple_price_answer sample_upstream |}.

Definition sample_payload : MarketOverview.AggregatePayload :=
  {| MarketOverview.markets := [];
     MarketOverview.trending := [];
     MarketOverview.global := VNull;
     MarketOverview.converterPrices := VObj [];
     MarketOverview.mood :=
       {| MarketOverview.baseMood := unknown_mood;
          MarketOverview.adjacent := no_neighbours;
          MarketOverview.ghostKey := "unknown" |};
     MarketOverview.top3Snapshot := [];
     MarketOverview.coins := [] |}.

Definition GET : MarketOverview.Request := {| MarketOverview.method := "GET" |}.

Definition cached (ts : Z) : MarketOverview.Cache :=
  {| MarketOverview.ts := ts; MarketOverview.data := Some sample_payload |}.

(** On the empty list the state is ["unknown"], which is none of the five
    states. *)
Lemma computeMood_empty_state :
  let m := @MarketOverview.computeMood evaluation_builtins (Some []) VNull in
  MarketOverview.state m = "unknown" ∧
  (MarketOverview.state m, MarketOverview.label m) ∉ mood_pairs.
Proof.
  split; [reflexivity |]. simpl. intros I.
  repeat (apply elem_of_cons in I as [[=] | I]). by apply elem_of_nil in I.
Qed.

(** C5, amended.  For a non-empty asset list the [state] and [label] of
    [computeMood] are a matched pair of the fixed five and the score, when
    it is a number, is an integer clamped to [0,100]; for the empty list
    they are ["unknown"] and ["Unknown"] and the score is null.  The
    [adjacent] entries that the orchestrator attaches are states of the five
    or null. *)
Theorem computeMood_state_label `{Builtins} :
  (∀ (markets : option (list MarketOverview.MarketAsset)) (globalJson : value),
     let m := MarketOverview.computeMood markets globalJson in
     match or_empty markets with
     | [] =>
         MarketOverview.state m = "unknown" ∧
         MarketOverview.label m = "Unknown" ∧
         MarketOverview.score m = None
     | _ :: _ =>
         (MarketOverview.state m, MarketOverview.label m) ∈ mood_pairs ∧
         ∃ x : num,
           MarketOverview.score m = Some x ∧
           (x ≠ NaN → ∃ z : Z, x = of_Z z ∧ (0 ≤ z ≤ 100)%Z)
     end) ∧
  (∀ up log payload log',
     MarketOverview.fetchFromCoinGecko up log = (inr payload, log') →
     let m := MarketOverview.mood payload in
     MarketOverview.baseMood m =
       MarketOverview.computeMood (Some (MarketOverview.markets payload))
         (MarketOverview.global payload) ∧
     MarketOverview.adjacent m =
       MarketOverview.computeAdjacentStates
         (VStr (MarketOverview.state (MarketOverview.baseMood m))) ∧
     state_or_null (MarketOverview.prev (MarketOverview.adjacent m)) ∧
     state_or_null (MarketOverview.next (MarketOverview.adjacent m))).
Proof.
  split.
  - intros markets globalJson m. subst m.
    destruct markets as [[|c rest]|]; simpl or_empty; cbv iota; try by repeat split.
    destruct (computeMood_nonempty c rest globalJson) as [S P].
    split; [exact P |]. eexists. split; [exact S |].
    unfold raw_score. intros N. apply round_clamp_range. by intros E; rewrite E in N.
  - intros up log payload log' E m.
    destruct (fetchFromCoinGecko_mood up log payload log' E) as (B & A & _).
    subst m. split; [exact B |]. split; [exact A |].
    rewrite A. apply computeAdjacentStates_valid.
Qed.

Lemma computeMood_state_label_witness :
  ∃ payload log',
    @MarketOverview.fetchFromCoinGecko evaluation_builtins sample_upstream [] =
      (inr payload, log') ∧
    state_or_null
      (MarketOverview.prev (MarketOverview.adjacent (MarketOverview.mood payload))) ∧
    state_or_null
      (MarketOverview.next (MarketOverview.adjacent (MarketOverview.mood payload))).
Proof.
  eexists _, _. split; [vm_compute; reflexivity |].
  eapply (proj2 (@computeMood_state_label evaluation_builtins) sample_upstream []).
  vm_compute. reflexivity.
Defined.

(** ** ResponseCache *)

Definition respond (status : Z) (body : MarketOverview.Body) : MarketOverview.Response :=
  {| MarketOverview.headers := MarketOverview.cors;
     MarketOverview.res_status := status;
     MarketOverview.res_body := body |}.

(** C3.  With data in the cache younger than the TTL of five minutes, a
    request other than OPTIONS is answered 200 with the cached payload tagged
    [source:"cache"]; no upstream call is issued and the cache is left as it
    was. *)
Theorem handler_cache_hit `{Builtins}
    (up : MarketOverview.Upstream) (req : MarketOverview.Request) (now : Z)
    (cache : MarketOverview.Cache) (d : MarketOverview.AggregatePayload) :
  MarketOverview.method req ≠ "OPTIONS" →
  MarketOverview.data cache = Some d →
  (now - MarketOverview.ts cache < 5 * 60 * 1000)%Z →
  MarketOverview.handler up req now cache =
    (respond 200 (MarketOverview.Payload d "cache"), cache, []).
Proof.
  intros Hm Hd Hage. unfold MarketOverview.handler, MarketOverview.fresh_hit.
  apply String.eqb_neq in Hm. rewrite Hm, Hd.
  replace (_ <? _)%Z with true; [done |].
  symmetry. apply Z.ltb_lt. exact Hage.
Qed.

Lemma handler_cache_hit_witness :
  @MarketOverview.handler evaluation_builtins sample_upstream GET 60000 (cached 0) =
    (respond 200 (MarketOverview.Payload sample_payload "cache"), cached 0, []).
Proof.
  apply (@handler_cache_hit evaluation_builtins);
    [discriminate | reflexivity | simpl; lia].
Defined.

(** C2.  When the orchestration fails, the handler answers 200 with the
    payload cached before, whatever its age, tagged [source:"stale-cache"]
    and otherwise unchanged, and leaves the cache as it was; with no cached
    data it answers 500 with [{error: "Failed to load market data"}]. *)
Theorem handler_orchestration_failure `{Builtins}
    (up : MarketOverview.Upstream) (req : MarketOverview.Request) (now : Z)
    (cache : MarketOverview.Cache) (err : exn) (log : list MarketOverview.call) :
  MarketOverview.method req ≠ "OPTIONS" →
  MarketOverview.data cache = None ∨
    (5 * 60 * 1000 ≤ now - MarketOverview.ts cache)%Z →
  MarketOverview.fetchFromCoinGecko up [] = (inl err, log) →
  MarketOverview.handler up req now cache =
    (match MarketOverview.data cache with
     | Some d => respond 200 (MarketOverview.Payload d "stale-cache")
     | None => respond 500 (MarketOverview.Failure "Failed to load market data")
     end, cache, log).
Proof.
  intros Hm Hstale Hfail.
  assert (MarketOverview.fresh_hit now cache = None) as Hfresh.
  { unfold MarketOverview.fresh_hit.
    destruct (MarketOverview.data cache) as [d|]; [| done].
    destruct Hstale as [? | Hage]; [done |].
    replace (_ <? _)%Z with false; [done |].
    symmetry. apply Z.ltb_ge. exact Hage. }
  unfold MarketOverview.handler.
  apply String.eqb_neq in Hm. rewrite Hm, Hfresh, Hfail.
  by destruct (MarketOverview.data cache).
Qed.

Lemma handler_orchestration_failure_witness :
  let log :=
    [MarketOverview.get_markets; MarketOverview.get_trending;
     MarketOverview.get_global] in
  @MarketOverview.handler evaluation_builtins failing_upstream GET 300000 (cached 0) =
    (respond 200 (MarketOverview.Payload sample_payload "stale-cache"), cached 0, log) ∧
  @MarketOverview.handler evaluation_builtins failing_upstream GET 300000
      MarketOverview.initial_cache =
    (respond 500 (MarketOverview.Failure "Failed to load market data"),
     MarketOverview.initial_cache, log).
Proof.
  split.
  - apply (@handler_orchestration_failure evaluation_builtins failing_upstream GET
             300000 (cached 0) (Error "markets request failed"));
      [discriminate | right; simpl; lia | reflexivity].
  - apply (@handler_orchestration_failure evaluation_builtins failing_upstream GET
             300000 MarketOverview.initial_cache (Error "markets request failed"));
      [discriminate | left; reflexivity | reflexivity].
Defined.

(** ** The coin-tickers endpoint *)

Section ranking.
Context `{Builtins}.
Import CoinTickers.

(** A USD-quoted pair: the target is a non-empty string whose upper-case
    form contains ["USD"]. *)
Definition usd_quoted (t : Ticker) : bool :=
  match target t with
  | VStr s => negb (String.eqb s "") && includes (toUpperCase s) "USD"
  | _ => false
  end.

(** A valid converted-USD price: [converted_last.usd] is a number. *)
Definition priced (t : Ticker) : bool := is_number (get (converted_last t) "usd").

Definition qualifies (t : Ticker) : bool := usd_quoted t && priced t.

(** [(v || "").toUpperCase()] where it does not throw *)
Definition upper (v : value) : string :=
  match or_else v (VStr "") with
  | VStr s => toUpperCase s
  | _ => ""
  end.

Definition row_of (t : Ticker) : TickerRow :=
  {| exchange := or_else (opt_get (market t) "name") (VStr "Unknown");
     pair := upper (base t) ++ "/" ++ upper (target t);
     price := get (converted_last t) "usd";
     volume := or_else (opt_get (converted_volume t) "usd") (VNum (Fin 0)) |}.

(** The volume that the comparator reads off a row. *)
Definition volume_number (r : TickerRow) : num :=
  Number (or_else (volume r) (VNum (Fin 0))).

Definition descending (a b : TickerRow) : Prop :=
  num_ge (volume_number a) (volume_number b) = true.

(** All the rows of the qualifying tickers, by descending volume. *)
Definition ranked_all (ts : list Ticker) : list TickerRow :=
  Array_sort by_volume_desc (map row_of (List.filter qualifies ts)).

Definition ranked (ts : list Ticker) : list TickerRow := take 6 (ranked_all ts).

(** A string, or a value that [||] replaces. *)
Definition stringy (v : value) : Prop :=
  match v with
  | VStr _ => True
  | _ => truthy v = false
  end.

Definition well_formed (t : Ticker) : Prop := stringy (target t) ∧ stringy (base t).

(** Case analysis along the branches of an effectful body in the goal. *)
Ltac branches :=
  repeat
    (simpl;
     match goal with
     | |- context [if ?b then _ else _] => destruct b eqn:?
     | |- context [match ?x with _ => _ end] => destruct x eqn:?
     end);
  simpl; try done; try (by intros [= <- <-]).

Lemma keep_inv t log b log' :
  keep t log = (inr b, log') → log' = log ∧ b = qualifies t.
Proof.
  unfold keep, qualifies, usd_quoted, priced, bind, call_toUpperCase, prop, ret, throw.
  destruct (target t) as [| |[]|[| | |q]|s| |]; simpl; try done;
    try (by intros [= <- <-]).
  - branches.
  - destruct (String.eqb s ""); simpl; [by intros [= <- <-] |].
    destruct (includes _ _); simpl; [| by intros [= <- <-]].
    destruct (converted_last t) as [| |[]|[| | |q]|s'| |]; branches.
Qed.

Lemma keep_well_formed t log :
  stringy (target t) → keep t log = (inr (qualifies t), log).
Proof.
  intros S. destruct (keep t log) as [[e|b] log'] eqn:E.
  - exfalso. revert E.
    unfold keep, bind, call_toUpperCase, prop, ret, throw.
    destruct (target t) as [| |[]|[| | |q]|s| |]; simpl in *; try done.
    + destruct (Qeq_bool q 0); done.
    + destruct (String.eqb s ""); simpl; [done |].
      destruct (includes _ _); simpl; [| done].
      destruct (converted_last t) as [| |[]|[| | |q]|s'| |]; branches.
  - by apply keep_inv in E as [-> ->].
Qed.

Lemma filterM_keep_inv ts log kept log' :
  filterM keep ts log = (inr kept, log') →
  log' = log ∧ kept = List.filter qualifies ts.
Proof.
  revert kept log'. induction ts as [|t ts IH]; intros kept log'; simpl.
  - by intros [= <- <-].
  - unfold bind at 1. destruct (keep t log) as [[e|b] log1] eqn:K; [done |].
    apply keep_inv in K as [-> ->].
    unfold bind at 1. destruct (filterM keep ts log) as [[e|ys] log2] eqn:F; [done |].
    destruct (IH _ _ eq_refl) as [-> ->]. unfold ret. intros [= <- <-].
    by destruct (qualifies t).
Qed.

Lemma filterM_keep_well_formed ts log :
  Forall (λ t, stringy (target t)) ts →
  filterM keep ts log = (inr (List.filter qualifies ts), log).
Proof.
  induction 1 as [|t ts S _ IH]; simpl; [done |].
  unfold bind at 1. rewrite keep_well_formed by done.
  unfold bind at 1. rewrite IH. unfold ret. by destruct (qualifies t).
Qed.

Lemma upper_string v s : or_else v (VStr "") = VStr s → upper v = toUpperCase s.
Proof. unfold upper. by intros ->. Qed.

Lemma project_inv t log r log' :
  project t log = (inr r, log') → log' = log ∧ r = row_of t.
Proof.
  unfold project, row_of, bind, call_toUpperCase, prop, ret, throw.
  destruct (or_else (base t) (VStr "")) as [| | | |b| |] eqn:B; try done.
  destruct (or_else (target t) (VStr "")) as [| | | |q| |] eqn:Q; try done.
  destruct (nullish (converted_last t)); [done |].
  intros [= <- <-]. by rewrite (upper_string _ _ B), (upper_string _ _ Q).
Qed.

Lemma or_else_stringy v : stringy v → ∃ s, or_else v (VStr "") = VStr s.
Proof.
  unfold or_else. destruct v as [| |[]|[| | |q]|s| |]; simpl; try done; eauto.
  - destruct (Qeq_bool q 0); simpl; [eauto | done].
  - destruct (String.eqb s ""); simpl; eauto.
Qed.

Lemma project_well_formed t log :
  well_formed t → qualifies t = true → project t log = (inr (row_of t), log).
Proof.
  intros [St Sb] Qt. destruct (project t log) as [[e|r] log'] eqn:E.
  - exfalso. revert E.
    unfold project, bind, call_toUpperCase, prop, ret, throw.
    destruct (or_else_stringy _ Sb) as [b ->].
    destruct (or_else_stringy _ St) as [q ->].
    unfold qualifies, priced in Qt. apply andb_prop in Qt as [_ Qt].
    destruct (converted_last t); done.
  - by apply project_inv in E as [-> ->].
Qed.

Lemma mapM_project_inv ts log rows log' :
  mapM project ts log = (inr rows, log') → log' = log ∧ rows = map row_of ts.
Proof.
  revert rows log'. induction ts as [|t ts IH]; intros rows log'; simpl.
  - by intros [= <- <-].
  - unfold bind at 1. destruct (project t log) as [[e|r] log1] eqn:P; [done |].
    apply project_inv in P as [-> ->].
    unfold bind at 1. destruct (mapM project ts log) as [[e|ys] log2] eqn:F; [done |].
    destruct (IH _ _ eq_refl) as [-> ->]. unfold ret. by intros [= <- <-].
Qed.

Lemma mapM_project_well_formed ts log :
  Forall (λ t, well_formed t ∧ qualifies t = true) ts →
  mapM project ts log = (inr (map row_of ts), log).
Proof.
  induction 1 as [|t ts [W Q] _ IH]; simpl; [done |].
  unfold bind at 1. rewrite project_well_formed by done.
  unfold bind at 1. by rewrite IH.
Qed.

Lemma select_inv ts log rows log' :
  select ts log = (inr rows, log') → log' = log ∧ rows = ranked ts.
Proof.
  unfold select. unfold bind at 1.
  destruct (filterM keep ts log) as [[e|kept] log1] eqn:F; [done |].
  apply filterM_keep_inv in F as [-> ->].
  unfold bind at 1.
  destruct (mapM project _ log) as [[e|rs] log2] eqn:P; [done |].
  apply mapM_project_inv in P as [-> ->]. unfold ret. by intros [= <- <-].
Qed.

Lemma select_well_formed ts log :
  Forall well_formed ts → select ts log = (inr (ranked ts), log).
Proof.
  intros W. unfold select. unfold bind at 1.
  rewrite filterM_keep_well_formed
    by (eapply Forall_impl; [exact W | by intros t [? _]]).
  unfold bind at 1. rewrite mapM_project_well_formed; [done |].
  apply Forall_forall. intros t Ht. apply list_elem_of_In, filter_In in Ht as [Ht Q].
  split; [| done]. eapply Forall_forall in W; [exact W |]. by apply list_elem_of_In.
Qed.
End ranking.

Lemma Sorted_take {A} (R : A → A → Prop) (l : list A) n : Sorted R l → Sorted R (take n l).
Proof.
  revert n. induction l as [|x l IH]; intros [|n] S; simpl; try constructor.
  - apply IH. by apply Sorted_inv in S as [? _].
  - apply Sorted_inv in S as [_ Hd].
    destruct l as [|y l], n as [|n]; simpl; constructor. by apply HdRel_inv in Hd.
Qed.

Section ranked_rows.
Context `{Builtins}.
Import CoinTickers.

(** On binary64 numbers other than NaN the comparator decides the order. *)
Lemma by_volume_desc_decides a b :
  ordered (volume_number a) → ordered (volume_number b) →
  if num_gt (by_volume_desc a b) (Fin 0) then descending b a else descending a b.
Proof.
  unfold by_volume_desc, descending. fold (volume_number a) (volume_number b).
  destruct (volume_number a) as [| | |x], (volume_number b) as [| | |y];
    try done; intros Ra Rb.
  destruct (num_gt _ _) eqn:E.
  - apply num_sub_gt in E; [| done | done]. apply num_ge_Fin. lra.
  - apply num_ge_Fin. destruct (Qlt_le_dec x y) as [L|L]; [| done].
    apply (num_sub_gt y x Rb Ra) in L. congruence.
Qed.

Lemma ranked_all_perm ts : ranked_all ts ≡ₚ map row_of (List.filter qualifies ts).
Proof. apply Array_sort_perm. Qed.

Lemma ranked_all_Sorted ts :
  Forall (λ r, ordered (volume_number r)) (map row_of (List.filter qualifies ts)) →
  Sorted descending (ranked_all ts).
Proof.
  intros N. apply (Array_sort_Sorted _ (λ r, ordered (volume_number r))); [| exact N].
  apply by_volume_desc_decides.
Qed.

(** Rows in descending order, when there are two or more, all carry a volume
    that is not NaN. *)
Lemma Sorted_descending_numbers (rows : list TickerRow) :
  Sorted descending rows → 2 ≤ length rows →
  Forall (λ r, volume_number r ≠ NaN) rows.
Proof.
  induction 1 as [|x l S IH Hd]; simpl; [lia |]. intros L.
  destruct l as [|y l]; simpl in *; [lia |].
  apply HdRel_inv in Hd. unfold descending in Hd.
  assert (volume_number x ≠ NaN ∧ volume_number y ≠ NaN) as [Nx Ny]
    by (destruct (volume_number x), (volume_number y); done).
  constructor; [exact Nx |].
  destruct l as [|z l]; [by repeat constructor |].
  apply IH. simpl. lia.
Qed.

Lemma ranked_origin ts :
  Forall (λ r, ∃ t, t ∈ ts ∧ usd_quoted t = true ∧
                    (∃ n, get (converted_last t) "usd" = VNum n ∧ price r = VNum n) ∧
                    r = row_of t)
    (ranked ts).
Proof.
  apply Forall_forall. intros r Hr. unfold ranked in Hr.
  apply subseteq_take in Hr.
  rewrite ranked_all_perm in Hr.
  apply list_elem_of_In, in_map_iff in Hr as (t & <- & Ht).
  apply filter_In in Ht as [Ht Q]. apply list_elem_of_In in Ht.
  unfold qualifies in Q. apply andb_prop in Q as [U P]. unfold priced in P.
  exists t. repeat split; try done. simpl.
  destruct (get (converted_last t) "usd"); try done. by eexists.
Qed.

Lemma ranked_two t5 t50 :
  qualifies t5 = true → qualifies t50 = true →
  volume (row_of t5) = VNum (Fin 5) → volume (row_of t50) = VNum (Fin 50) →
  ranked [t5; t50] = [row_of t50; row_of t5] ∧
  ranked [t50; t5] = [row_of t50; row_of t5].
Proof.
  intros Q5 Q50 V5 V50.
  assert (num_gt (by_volume_desc (row_of t5) (row_of t50)) (Fin 0) = true) as G
    by (unfold by_volume_desc; rewrite V5, V50; vm_compute; reflexivity).
  assert (num_gt (by_volume_desc (row_of t50) (row_of t5)) (Fin 0) = false) as G'
    by (unfold by_volume_desc; rewrite V5, V50; vm_compute; reflexivity).
  unfold ranked, ranked_all. cbn [List.filter]. rewrite Q5, Q50.
  cbn [map Array_sort foldr sort_insert]. by rewrite G, G'.
Qed.

Lemma try_block_200 upstream req resp log :
  handler upstream req = (resp, log) →
  res_status resp = 200%Z →
  let coin := or_else (query_coin req) (VStr "bitcoin") in
  ∃ cgRes doc,
    upstream coin = Some cgRes ∧ ok cgRes = true ∧ json cgRes = Some doc ∧
    res_body resp = Tickers coin (ranked (or_empty (tickers doc))) "live-or-cache" ∧
    log = [get_tickers coin].
Proof.
  intros E S coin. revert E. unfold handler, try_block. fold coin.
  unfold bind at 1. unfold fetch at 1. unfold bind at 1.
  destruct (upstream coin) as [cgRes|]; simpl;
    [| intros [= <- <-]; simpl in S; lia].
  destruct (ok cgRes) eqn:O; simpl;
    [| intros [= <- <-]; simpl in S; lia].
  unfold bind at 1.
  destruct (json cgRes) as [doc|] eqn:J; simpl;
    [| intros [= <- <-]; simpl in S; lia].
  unfold bind at 1.
  destruct (select _ _) as [[e|rows] log1] eqn:Sel;
    [intros [= <- <-]; simpl in S; lia |].
  apply select_inv in Sel as [-> ->]. intros [= <- <-].
  exists cgRes, doc. by repeat split.
Qed.
End ranked_rows.

(** C9, amended.  Whenever the coin-tickers endpoint answers 200, its
    tickers are the rows of the USD-quoted input tickers that carry a numeric
    converted USD price, each projected to exchange, pair, price and volume
    with the exchange defaulting to ["Unknown"] and the volume to 0, cut to
    the first six of an arrangement that is in descending order of volume
    provided the volume of every such row is a number other than NaN.  Of two
    qualifying tickers with volumes 5 and 50 the one with volume 50 comes
    first. *)
Theorem coin_tickers_200 `{Builtins}
    (upstream : value → option (FetchResponse CoinTickers.TickersJson))
    (req : CoinTickers.Request) (resp : CoinTickers.Response)
    (log : list CoinTickers.call) :
  CoinTickers.handler upstream req = (resp, log) →
  CoinTickers.res_status resp = 200%Z →
  let coin := or_else (CoinTickers.query_coin req) (VStr "bitcoin") in
  ∃ cgRes doc,
    upstream coin = Some cgRes ∧ ok cgRes = true ∧ json cgRes = Some doc ∧
    let ts := or_empty (CoinTickers.tickers doc) in
    ∃ rows all,
      CoinTickers.res_body resp = CoinTickers.Tickers coin rows "live-or-cache" ∧
      all ≡ₚ map row_of (List.filter qualifies ts) ∧
      rows = take 6 all ∧
      length rows ≤ 6 ∧
      Forall (λ r, ∃ t, t ∈ ts ∧ usd_quoted t = true ∧
                        (∃ n, get (CoinTickers.converted_last t) "usd" = VNum n ∧
                              CoinTickers.price r = VNum n) ∧
                        r = row_of t) rows ∧
      Forall (λ t,
          CoinTickers.exchange (row_of t) =
            or_else (opt_get (CoinTickers.market t) "name") (VStr "Unknown") ∧
          CoinTickers.volume (row_of t) =
            or_else (opt_get (CoinTickers.converted_volume t) "usd") (VNum (Fin 0)))
        ts ∧
      (Forall (λ r, ordered (volume_number r)) (map row_of (List.filter qualifies ts)) →
       Sorted descending all) ∧
      (∀ t5 t50,
         qualifies t5 = true → qualifies t50 = true →
         CoinTickers.volume (row_of t5) = VNum (Fin 5) →
         CoinTickers.volume (row_of t50) = VNum (Fin 50) →
         ts = [t5; t50] ∨ ts = [t50; t5] →
         rows = [row_of t50; row_of t5]).
Proof.
  intros E S coin.
  destruct (try_block_200 upstream req resp log E S) as (cgRes & doc & U & O & J & B & _).
  exists cgRes, doc. split; [done |]. split; [done |]. split; [done |].
  intros ts. exists (ranked ts), (ranked_all ts).
  split; [exact B |]. split; [apply ranked_all_perm |]. split; [done |].
  split; [unfold ranked; rewrite length_take; lia |].
  split; [apply ranked_origin |].
  split; [by apply Forall_forall |].
  split; [apply ranked_all_Sorted |].
  intros t5 t50 Q5 Q50 V5 V50 [-> | ->];
    by destruct (ranked_two t5 t50 Q5 Q50 V5 V50).
Qed.

Section served.
Context `{Builtins}.
Import CoinTickers.

(** On well-formed tickers the handler does answer 200. *)
Lemma handler_well_formed upstream req cgRes doc :
  let coin := or_else (query_coin req) (VStr "bitcoin") in
  upstream coin = Some cgRes → ok cgRes = true → json cgRes = Some doc →
  Forall well_formed (or_empty (tickers doc)) →
  handler upstream req =
    ({| headers :=
          [("Cache-Control", "s-maxage=300, stale-while-revalidate=600");
           ("Access-Control-Allow-Origin", "*")];
        res_status := 200;
        res_body := Tickers coin (ranked (or_empty (tickers doc))) "live-or-cache" |},
     [get_tickers coin]).
Proof.
  intros coin U O J W. unfold handler, try_block. fold coin.
  unfold bind at 1. unfold fetch at 1. unfold bind at 1. rewrite U. simpl.
  rewrite O. simpl. unfold bind at 1. rewrite J. simpl.
  unfold bind at 1. by rewrite select_well_formed.
Qed.
End served.

(** *** A sample ticker list: prices 100 and 200, volumes 5 and 50 *)

Definition sample_ticker (target : string) (market : value) (usd volume : Q)
  : CoinTickers.Ticker :=
  {| CoinTickers.base := VStr "btc";
     CoinTickers.target := VStr target;
     CoinTickers.market := market;
     CoinTickers.converted_last := VObj [("usd", VNum (Fin usd))];
     CoinTickers.converted_volume := VObj [("usd", VNum (Fin volume))] |}.

Definition ticker5 : CoinTickers.Ticker :=
  sample_ticker "usd" (VObj [("name", VStr "Kraken")]) 100 5.
Definition ticker50 : CoinTickers.Ticker := sample_ticker "usdt" VNull 200 50.

Definition sample_tickers_upstream (coin : value)
  : option (FetchResponse CoinTickers.TickersJson) :=
  answered {| CoinTickers.tickers := Some [ticker5; ticker50] |}.

Definition sample_rows : list CoinTickers.TickerRow :=
  [ {| CoinTickers.exchange := VStr "Unknown";
       CoinTickers.pair := "BTC/USDT";
       CoinTickers.price := VNum (Fin 200);
       CoinTickers.volume := VNum (Fin 50) |};
    {| CoinTickers.exchange := VStr "Kraken";
       CoinTickers.pair := "BTC/USD";
       CoinTickers.price := VNum (Fin 100);
       CoinTickers.volume := VNum (Fin 5) |} ].

Definition sample_response : CoinTickers.Response :=
  {| CoinTickers.headers :=
       [("Cache-Control", "s-maxage=300, stale-while-revalidate=600");
        ("Access-Control-Allow-Origin", "*")];
     CoinTickers.res_status := 200;
     CoinTickers.res_body :=
       CoinTickers.Tickers (VStr "bitcoin") sample_rows "live-or-cache" |}.

Lemma coin_tickers_200_witness :
  let req := {| CoinTickers.query_coin := VUndef |} in
  @CoinTickers.handler evaluation_builtins sample_tickers_upstream req =
    (sample_response, [CoinTickers.get_tickers (VStr "bitcoin")]) ∧
  ∃ rows,
    CoinTickers.res_body sample_response =
      CoinTickers.Tickers (VStr "bitcoin") rows "live-or-cache" ∧
    rows = [@row_of evaluation_builtins ticker50; @row_of evaluation_builtins ticker5].
Proof.
  intros req. split; [reflexivity |].
  destruct (@coin_tickers_200 evaluation_builtins sample_tickers_upstream req
              sample_response [CoinTickers.get_tickers (VStr "bitcoin")]
              eq_refl eq_refl)
    as (cgRes & doc & U & _ & J & rows & all & B & _ & _ & _ & _ & _ & _ & Two).
  injection U as <-. injection J as <-.
  exists rows. split; [exact B |].
  apply (Two ticker5 ticker50); try reflexivity. by left.
Defined.

(** A qualifying ticker whose volume is a string that is not a number. *)
Definition ticker_abc : CoinTickers.Ticker :=
  {| CoinTickers.base := VStr "btc";
     CoinTickers.target := VStr "usd";
     CoinTickers.market := VNull;
     CoinTickers.converted_last := VObj [("usd", VNum (Fin 150))];
     CoinTickers.converted_volume := VObj [("usd", VStr "abc")] |}.

(** With the volumes 5, ["abc"] and 50 the comparator returns NaN on every
    pair that involves ["abc"]: the three rows are served as they came, the
    one of volume 5 before the one of volume 50, and no arrangement of them
    is in descending order of volume. *)
Lemma coin_tickers_unordered :
  let ts := [ticker5; ticker_abc; ticker50] in
  let rows := map (@row_of evaluation_builtins) ts in
  @CoinTickers.handler evaluation_builtins
    (λ _, answered {| CoinTickers.tickers := Some ts |})
    {| CoinTickers.query_coin := VUndef |} =
    ({| CoinTickers.headers :=
          [("Cache-Control", "s-maxage=300, stale-while-revalidate=600");
           ("Access-Control-Allow-Origin", "*")];
        CoinTickers.res_status := 200;
        CoinTickers.res_body :=
          CoinTickers.Tickers (VStr "bitcoin") rows "live-or-cache" |},
     [CoinTickers.get_tickers (VStr "bitcoin")]) ∧
  Forall (λ t, @qualifies evaluation_builtins t = true) ts ∧
  map (@volume_number evaluation_builtins) rows = [Fin 5; NaN; Fin 50] ∧
  ∀ arranged : list CoinTickers.TickerRow,
    arranged ≡ₚ rows → ¬ Sorted (@descending evaluation_builtins) arranged.
Proof.
  intros ts rows. split; [vm_compute; reflexivity |].
  split; [by repeat constructor |]. split; [vm_compute; reflexivity |].
  intros arranged P S.
  apply (@Sorted_descending_numbers evaluation_builtins) in S;
    [| rewrite (Permutation_length P); unfold rows, ts; simpl; lia].
  rewrite P in S. apply Forall_cons in S as [_ S]. apply Forall_cons in S as [N _].
  by apply N.
Qed.


(** * Further properties *)

(** ** MoodScorer: bands, bounds and the global nudge *)

Lemma num_ge_of_Z a b : num_ge (of_Z a) (of_Z b) = (b <=? a)%Z.
Proof.
  unfold num_ge, of_Z. simpl. rewrite Qcompare_inject_Z.
  destruct (Z.compare_spec a b), (Z.leb_spec b a); try done; lia.
Qed.

(** The state that the threshold chain gives to an integer score. *)
Definition band (z : Z) : string * string :=
  if (75 <=? z)%Z then ("snack-mode", "Snack Mode")
  else if (60 <=? z)%Z then ("steady-bite", "Steady Bite")
  else if (45 <=? z)%Z then ("side-eye", "Side-Eye")
  else if (30 <=? z)%Z then ("clutching-cookies", "Clutching Cookies")
  else ("crumbs-everywhere", "Crumbs Everywhere").

Section mood_bands.
Context `{Builtins}.
Import MarketOverview.

Lemma computeMood_band c rest globalJson z :
  raw_score (c :: rest) globalJson = of_Z z →
  let m := computeMood (Some (c :: rest)) globalJson in
  score m = Some (of_Z z) ∧ (state m, label m) = band z.
Proof.
  intros E m. subst m. unfold raw_score in E.
  unfold computeMood. change (or_empty (Some (c :: rest))) with (c :: rest).
  cbn [length Nat.eqb].
  change (Math_max (Fin 0) (Math_min (Fin 100) (Math_round ?x)))
    with (round_clamp x).
  rewrite E.
  change (Fin 75) with (of_Z 75). change (Fin 60) with (of_Z 60).
  change (Fin 45) with (of_Z 45). change (Fin 30) with (of_Z 30).
  rewrite !num_ge_of_Z. unfold band.
  repeat destruct (_ <=? z)%Z; by split.
Qed.

(** A score that is NaN is below every threshold. *)
Lemma computeMood_NaN c rest globalJson :
  raw_score (c :: rest) globalJson = NaN →
  let m := computeMood (Some (c :: rest)) globalJson in
  score m = Some NaN ∧
  (state m, label m) = ("crumbs-everywhere", "Crumbs Everywhere").
Proof.
  intros E m. subst m. unfold raw_score in E.
  unfold computeMood. change (or_empty (Some (c :: rest))) with (c :: rest).
  cbn [length Nat.eqb].
  change (Math_max (Fin 0) (Math_min (Fin 100) (Math_round ?x)))
    with (round_clamp x).
  by rewrite E.
Qed.

(** The score is NaN, or an integer between 0 and 100. *)
Lemma raw_score_range arr globalJson :
  raw_score arr globalJson = NaN ∨
  ∃ z : Z, raw_score arr globalJson = of_Z z ∧ (0 ≤ z ≤ 100)%Z.
Proof.
  unfold raw_score. destruct (mood_blend _ _ _ _) as [| | |q] eqn:E.
  - by left.
  - right. by apply round_clamp_range.
  - right. by apply round_clamp_range.
  - right. by apply round_clamp_range.
Qed.
End mood_bands.

(** X1.  The state and label of a non-empty list are read off the score by
    the bands 75, 60, 45 and 30: the score is an integer between 0 and 100
    and the state is the one of its band, or the score is NaN and the state
    is ["crumbs-everywhere"]. *)
Theorem computeMood_state_by_score `{Builtins}
    (c : MarketOverview.MarketAsset) (rest : list MarketOverview.MarketAsset)
    (globalJson : value) :
  let m := MarketOverview.computeMood (Some (c :: rest)) globalJson in
  (MarketOverview.score m = Some NaN ∧
   (MarketOverview.state m, MarketOverview.label m) =
     ("crumbs-everywhere", "Crumbs Everywhere")) ∨
  ∃ z : Z,
    MarketOverview.score m = Some (of_Z z) ∧ (0 ≤ z ≤ 100)%Z ∧
    (MarketOverview.state m = "snack-mode" ↔ (75 ≤ z)%Z) ∧
    (MarketOverview.state m = "steady-bite" ↔ (60 ≤ z < 75)%Z) ∧
    (MarketOverview.state m = "side-eye" ↔ (45 ≤ z < 60)%Z) ∧
    (MarketOverview.state m = "clutching-cookies" ↔ (30 ≤ z < 45)%Z) ∧
    (MarketOverview.state m = "crumbs-everywhere" ↔ (z < 30)%Z) ∧
    (MarketOverview.state m, MarketOverview.label m) = band z.
Proof.
  intros m.
  destruct (raw_score_range (c :: rest) globalJson) as [E | (z & E & R)].
  { left. by apply computeMood_NaN. }
  right.
  destruct (computeMood_band c rest globalJson _ E) as [S B]. fold m in S, B.
  assert (St : MarketOverview.state m = (band z).1) by (by rewrite <- B).
  exists z. split; [exact S |]. split; [exact R |].
  rewrite B, St. clear. unfold band.
  repeat match goal with
         | |- context [(?a <=? z)%Z] => destruct (Z.leb_spec a z)
         end; simpl;
    split_and!; try done; split; intros; try done; lia.
Qed.

(** The score is NaN when the leadership penalty and the global nudge are
    infinite: here the sum of the two alternative changes overflows, so that
    the median is -Infinity and the gap +Infinity, and the global change
    times 1.5 overflows as well. *)
Lemma computeMood_score_overflow :
  let huge := inject_Z (2 ^ 1023) in
  let arr :=
    [listed "bitcoin" 1 1 0; listed "ethereum" 1 1 (- huge);
     listed "solana" 1 1 (- huge)] in
  let globalJson :=
    VObj [("data",
           VObj [("market_cap_change_percentage_24h_usd",
                  VNum (Fin (inject_Z (3 * 2 ^ 1022))))])] in
  let m := @MarketOverview.computeMood evaluation_builtins (Some arr) globalJson in
  representable huge ∧ representable (inject_Z (3 * 2 ^ 1022)) ∧
  @MarketOverview.mood_leadershipGap30d evaluation_builtins arr = Some PInf ∧
  MarketOverview.score m = Some NaN ∧
  MarketOverview.state m = "crumbs-everywhere".
Proof.
  intros huge arr globalJson m. split_and!.
  - exists (2 ^ 52)%Z, 971%Z. split_and!; vm_compute; done.
  - exists 3%Z, 1022%Z. split_and!; vm_compute; done.
  - vm_compute. reflexivity.
  - vm_compute. reflexivity.
  - vm_compute. reflexivity.
Qed.

Section mood_bounds.
Context `{Builtins}.
Import MarketOverview.

Lemma computeMood_global_ext markets g1 g2 :
  mood_mcapChange24h g1 = mood_mcapChange24h g2 →
  computeMood markets g1 = computeMood markets g2.
Proof. intros E. unfold computeMood. by rewrite E. Qed.

(** Without a global change the blend is at most [hi] when the breadth
    terms are. *)
Lemma blend_without_global_le (s : Q) (hi : Z) (gap : option num) :
  (Z.abs hi < 2 ^ 53)%Z → (s <= inject_Z hi)%Q → (∀ g, gap = Some g → g ≠ NaN) →
  num_le
    match gap with
    | Some g => num_sub (Fin s) (num_mul (Math_max (Fin 0) g) (Fin (1 # 2)))
    | None => Fin s
    end (of_Z hi) = true.
Proof.
  intros B L N. destruct gap as [g|].
  - apply penalty_le; [by apply representable_Z | done | by apply N].
  - by apply num_le_Fin.
Qed.
End mood_bounds.

(** X2.  Without a global change the score of a non-empty list is at most 90,
    and at least 10 when the leadership gap is null as well. *)
Theorem computeMood_score_without_global `{Builtins}
    (c : MarketOverview.MarketAsset) (rest : list MarketOverview.MarketAsset)
    (globalJson : value) :
  MarketOverview.mood_mcapChange24h globalJson = None →
  ∃ z : Z,
    MarketOverview.score (MarketOverview.computeMood (Some (c :: rest)) globalJson) =
      Some (of_Z z) ∧
    (z ≤ 90)%Z ∧
    (MarketOverview.mood_leadershipGap30d (c :: rest) = None → (10 ≤ z)%Z).
Proof.
  intros Hmc.
  destruct (raw_score_without_global c rest globalJson Hmc)
    as (s & (s' & [= <-] & Bs) & _ & E).
  destruct (computeMood_nonempty c rest globalJson) as [S _].
  rewrite E in S. clear E.
  destruct (round_clamp_le
              match MarketOverview.mood_leadershipGap30d (c :: rest) with
              | Some gap =>
                  num_sub (Fin s) (num_mul (Math_max (Fin 0) gap) (Fin (1 # 2)))
              | None => Fin s
              end 90) as (z & Ez & Rz); [| lia |].
  { apply blend_without_global_le; [done | by destruct Bs |].
    intros g. apply leadershipGap30d_not_NaN. }
  exists z. split; [by rewrite S, Ez |]. split; [lia |].
  intros Hnone. rewrite Hnone in Ez.
  destruct (round_clamp_ge (Fin s) 10) as (z' & Ez' & Rz'); [| lia |].
  { apply num_le_Fin. by destruct Bs. }
  rewrite Ez in Ez'. apply of_Z_inj in Ez'. lia.
Qed.

Definition no_global : value := VNull.

Lemma computeMood_score_without_global_witness :
  ∃ z : Z,
    MarketOverview.score
      (@MarketOverview.computeMood evaluation_builtins
         (Some [bitcoin_entry "Bitcoin" 2]) no_global) = Some (of_Z z) ∧
    (10 ≤ z ≤ 90)%Z.
Proof.
  destruct (@computeMood_score_without_global evaluation_builtins
              (bitcoin_entry "Bitcoin" 2) [] no_global eq_refl) as (z & S & U & L).
  exists z. split; [exact S |]. split; [exact (L eq_refl) | exact U].
Defined.

(** X3.  A larger global market-cap change never gives a lower score: of the
    two scores, when both are numbers, the one for the larger change is at
    least the other. *)
Theorem computeMood_global_nudge `{Builtins}
    (c : MarketOverview.MarketAsset) (rest : list MarketOverview.MarketAsset)
    (g1 g2 : value) (a b : Q) (z1 z2 : Z) :
  MarketOverview.mood_mcapChange24h g1 = Some (Fin a) →
  MarketOverview.mood_mcapChange24h g2 = Some (Fin b) →
  (a <= b)%Q →
  MarketOverview.score (MarketOverview.computeMood (Some (c :: rest)) g1) =
    Some (of_Z z1) →
  MarketOverview.score (MarketOverview.computeMood (Some (c :: rest)) g2) =
    Some (of_Z z2) →
  (z1 ≤ z2)%Z.
Proof.
  intros H1 H2 L S1 S2.
  destruct (computeMood_nonempty c rest g1) as [E1 _]. rewrite S1 in E1.
  destruct (computeMood_nonempty c rest g2) as [E2 _]. rewrite S2 in E2.
  injection E1 as E1. injection E2 as E2. symmetry in E1, E2.
  unfold raw_score, MarketOverview.mood_blend in E1, E2. cbv zeta in E1, E2.
  rewrite H1 in E1. rewrite H2 in E2.
  set (s := match MarketOverview.mood_leadershipGap30d (c :: rest) with
            | Some gap => _
            | None => _
            end) in *.
  destruct (num_le_add_r s (num_mul (Fin a) (Fin (3 # 2)))
              (num_mul (Fin b) (Fin (3 # 2)))) as [N | [N | M]].
  - apply binary64_mono. lra.
  - by rewrite N in E1.
  - by rewrite N in E2.
  - exact (round_clamp_mono _ _ z1 z2 M E1 E2).
Qed.

Definition global_change (x : Q) : value :=
  VObj [("data", VObj [("market_cap_change_percentage_24h_usd", VNum (Fin x))])].

Lemma computeMood_global_nudge_witness :
  MarketOverview.score
    (@MarketOverview.computeMood evaluation_builtins
       (Some [bitcoin_entry "Bitcoin" 2]) (global_change (-3))) = Some (of_Z 86) ∧
  MarketOverview.score
    (@MarketOverview.computeMood evaluation_builtins
       (Some [bitcoin_entry "Bitcoin" 2]) (global_change 4)) = Some (of_Z 96) ∧
  (86 ≤ 96)%Z.
Proof.
  assert (MarketOverview.score
            (@MarketOverview.computeMood evaluation_builtins
               (Some [bitcoin_entry "Bitcoin" 2]) (global_change (-3))) =
          Some (of_Z 86)) as S1 by (vm_compute; reflexivity).
  assert (MarketOverview.score
            (@MarketOverview.computeMood evaluation_builtins
               (Some [bitcoin_entry "Bitcoin" 2]) (global_change 4)) =
          Some (of_Z 96)) as S2 by (vm_compute; reflexivity).
  split; [exact S1 |]. split; [exact S2 |].
  apply (@computeMood_global_nudge evaluation_builtins
           (bitcoin_entry "Bitcoin" 2) [] (global_change (-3)) (global_change 4)
           (-3) 4 86 96);
    [reflexivity | reflexivity | done | exact S1 | exact S2].
Defined.

(** ** MoodScorer: malformed and partial input *)

Definition change_key : string := "market_cap_change_percentage_24h_usd".

(** X4.  Global statistics that are not an object (null, undefined, a
    number, a string, an array) contribute nothing: the mood is the one
    computed with null statistics. *)
Theorem computeMood_malformed_global `{Builtins}
    (markets : option (list MarketOverview.MarketAsset)) (globalJson : value) :
  (∀ props, globalJson ≠ VObj props) →
  MarketOverview.mood_mcapChange24h globalJson = None ∧
  MarketOverview.computeMood markets globalJson =
    MarketOverview.computeMood markets VNull.
Proof.
  intros N.
  assert (MarketOverview.mood_mcapChange24h globalJson = None) as E
    by (destruct globalJson; try reflexivity; by destruct (N props)).
  split; [exact E |]. by apply computeMood_global_ext.
Qed.

Lemma computeMood_malformed_global_witness :
  @MarketOverview.computeMood evaluation_builtins
    (Some [bitcoin_entry "Bitcoin" 2]) (VStr "rate limited") =
  @MarketOverview.computeMood evaluation_builtins
    (Some [bitcoin_entry "Bitcoin" 2]) VNull.
Proof.
  apply (@computeMood_malformed_global evaluation_builtins). intros props. discriminate.
Defined.

(** X5.  The global change is read from [data.market_cap_change_percentage_24h_usd];
    the same key at the top level is consulted only when the nested value is
    absent.  A nested finite number wins, and a nested JSON null reads as 0
    and also wins. *)
Theorem mcapChange24h_shapes `{Builtins} (globalJson : value) :
  let nested := opt_get (opt_get globalJson "data") change_key in
  let flat := opt_get globalJson change_key in
  (∀ x, nested = VNum (Fin x) →
        MarketOverview.mood_mcapChange24h globalJson = Some (Fin x)) ∧
  (nested = VNull → MarketOverview.mood_mcapChange24h globalJson = Some (Fin 0)) ∧
  (nested = VUndef →
     MarketOverview.mood_mcapChange24h globalJson = MarketOverview.safeNumber flat).
Proof.
  intros nested flat. unfold MarketOverview.mood_mcapChange24h.
  fold change_key. fold nested. fold flat.
  split_and!.
  - by intros x ->.
  - by intros ->.
  - intros ->. simpl. by destruct (MarketOverview.safeNumber flat).
Qed.

Lemma mcapChange24h_shapes_witness :
  @MarketOverview.mood_mcapChange24h evaluation_builtins
    (VObj [("data", VObj [(change_key, VNull)]); (change_key, VNum (Fin 5))]) =
    Some (Fin 0) ∧
  @MarketOverview.mood_mcapChange24h evaluation_builtins
    (VObj [("data", VObj []); (change_key, VNum (Fin 5))]) = Some (Fin 5).
Proof.
  split.
  - apply (@mcapChange24h_shapes evaluation_builtins). reflexivity.
  - rewrite (proj2 (proj2 (@mcapChange24h_shapes evaluation_builtins _)));
      reflexivity.
Defined.

Section leadership.
Context `{Builtins}.
Import MarketOverview.

Lemma find_none_absent (arr : list MarketAsset) :
  (∀ c, c ∈ arr → asset_id c ≠ "bitcoin") →
  List.find (λ c, String.eqb (asset_id c) "bitcoin") arr = None.
Proof.
  intros N. destruct (List.find _ arr) as [c|] eqn:E; [| done].
  apply find_some in E as [I E]. apply String.eqb_eq in E.
  apply list_elem_of_In in I. by destruct (N c I).
Qed.

Lemma filter_alts_nil (arr : list MarketAsset) :
  (∀ c, c ∈ arr → asset_id c = "bitcoin") →
  List.filter (λ c, negb (String.eqb (asset_id c) "bitcoin")) arr = [].
Proof.
  induction arr as [|c arr IH]; intros A; simpl; [done |].
  rewrite (A c) by left. simpl. apply IH. intros c' Hc'. apply A. by right.
Qed.
End leadership.

(** X6.  The leadership gap is null, and so costs nothing, when no asset of
    the list is bitcoin and when every asset of the list is. *)
Theorem leadershipGap30d_null `{Builtins} (arr : list MarketOverview.MarketAsset) :
  (∀ c, c ∈ arr → MarketOverview.asset_id c ≠ "bitcoin") ∨
  (∀ c, c ∈ arr → MarketOverview.asset_id c = "bitcoin") →
  MarketOverview.mood_leadershipGap30d arr = None.
Proof.
  unfold MarketOverview.mood_leadershipGap30d. intros [N | A].
  - unfold MarketOverview.mood_btc30d. by rewrite find_none_absent.
  - unfold MarketOverview.mood_medianAlt30d. rewrite filter_alts_nil by done.
    by destruct (MarketOverview.mood_btc30d arr).
Qed.

Lemma leadershipGap30d_null_witness :
  @MarketOverview.mood_leadershipGap30d evaluation_builtins
    [bitcoin_entry "Bitcoin" 2; bitcoin_entry "Bitcoin again" 3] = None.
Proof.
  apply (@leadershipGap30d_null evaluation_builtins). right.
  intros c Hc. repeat (apply elem_of_cons in Hc as [-> | Hc]; [reflexivity |]).
  by apply elem_of_nil in Hc.
Defined.


(** ** NumericUtilities: what the median guarantees *)

Lemma ascending_trans : Transitive ascending.
Proof. intros a b c. apply num_le_trans. Qed.

Lemma num_ge_le a b : num_ge a b = num_le b a.
Proof.
  destruct a as [| | |x], b as [| | |y]; try done.
  unfold num_ge, num_le. simpl. rewrite <- (Qcompare_antisym x y).
  by destruct (x ?= y)%Q.
Qed.

Lemma filter_length_Permutation {A} (f : A → bool) (l l' : list A) :
  l ≡ₚ l' → length (List.filter f l) = length (List.filter f l').
Proof.
  induction 1 as [|x l l' _ IH|x y l|l l' l'' _ IH1 _ IH2]; simpl.
  - done.
  - destruct (f x); simpl; by rewrite IH.
  - by destruct (f x), (f y).
  - by rewrite IH1.
Qed.

(** A prefix whose elements all pass the test is counted in full. *)
Lemma filter_length_take {A} (f : A → bool) (l : list A) k :
  k ≤ length l →
  (∀ i x, i < k → l !! i = Some x → f x = true) →
  k ≤ length (List.filter f l).
Proof.
  revert k. induction l as [|y l IH]; intros k Hk Hf; simpl in *; [lia |].
  destruct k as [|k]; [lia |].
  rewrite (Hf 0 y) by (done || lia). simpl.
  apply le_n_S, IH; [lia |]. intros i x Hi Hx. apply (Hf (S i)); [lia | done].
Qed.

(** A suffix whose elements all pass the test is counted in full. *)
Lemma filter_length_drop {A} (f : A → bool) (l : list A) k :
  (∀ i x, k ≤ i → l !! i = Some x → f x = true) →
  length l - k ≤ length (List.filter f l).
Proof.
  revert k. induction l as [|y l IH]; intros k Hf; simpl in *; [lia |].
  destruct k as [|k].
  - rewrite (Hf 0 y) by (done || lia). simpl.
    specialize (IH 0). rewrite Nat.sub_0_r in IH. apply le_n_S, IH.
    intros i x _ Hx. apply (Hf (S i)); [lia | done].
  - etrans; [apply (IH k) |].
    + intros i x Hi Hx. apply (Hf (S i)); [lia | done].
    + destruct (f y); simpl; lia.
Qed.

Lemma StronglySorted_lookup {A} (R : A → A → Prop) (l : list A) i j x y :
  StronglySorted R l → i < j → l !! i = Some x → l !! j = Some y → R x y.
Proof.
  intros S. revert i j. induction S as [|z l S IH F]; intros i j Hij Hx Hy; [done |].
  destruct j as [|j]; [lia |]. simpl in Hy. destruct i as [|i].
  - injection Hx as <-. eapply Forall_forall in F; [exact F |].
    by eapply list_elem_of_lookup_2.
  - simpl in Hx. apply (IH i j); [lia | done | done].
Qed.

(** Twice a binary64 number is one, short of an overflow. *)
Lemma representable_twice a :
  representable a → (Qabs (2 * a) < pow2 1024)%Q → representable (2 * a).
Proof.
  intros (n & e & N & E & V & _) O. exists n, (e + 1)%Z.
  split; [done |]. split; [lia |]. split; [| done].
  rewrite V, pow2_add. change (pow2 1) with 2%Q. ring.
Qed.

Lemma representable_bound a : representable a → (Qabs a < pow2 1024)%Q.
Proof. by intros (n & e & _ & _ & _ & O). Qed.

(** The binary64 value of [(a + b) / 2], when finite, lies between [a] and
    [b]. *)
Lemma average_between a b :
  representable a → representable b → (a <= b)%Q →
  finite (num_div (num_add (Fin a) (Fin b)) (Fin 2)) →
  between a b (num_div (num_add (Fin a) (Fin b)) (Fin 2)).
Proof.
  intros Ra Rb L F.
  pose proof (pow2_pos 1024) as P.
  pose proof (binary64_not_NaN (a + b)) as Ns.
  change (num_add (Fin a) (Fin b)) with (binary64 (a + b)) in *.
  destruct (binary64 (a + b)) as [| | |s] eqn:Es;
    [done | by destruct F | by destruct F |].
  change (num_div (Fin s) (Fin 2)) with (binary64 (s / 2)).
  pose proof (binary64_is_representable _ _ Es) as Rs.
  apply representable_bound in Rs. apply Qabs_Qlt_condition in Rs as [Rs1 Rs2].
  assert (2 * a <= s)%Q as Lo.
  { destruct (Qlt_le_dec (Qabs (2 * a)) (pow2 1024)) as [Small | Big].
    - pose proof (binary64_ge (2 * a) (a + b) (representable_twice a Ra Small)
                    ltac:(lra)) as G.
      rewrite Es in G. by apply num_le_Fin in G.
    - destruct (Qlt_le_dec a 0) as [Neg | Pos].
      + rewrite Qabs_neg in Big by lra. lra.
      + rewrite Qabs_pos in Big by lra.
        pose proof (binary64_mono (pow2 1024) (a + b) ltac:(lra)) as G.
        rewrite Es in G.
        replace (binary64 (pow2 1024)) with PInf in G by (vm_compute; reflexivity).
        discriminate G. }
  assert (s <= 2 * b)%Q as Hi.
  { destruct (Qlt_le_dec (Qabs (2 * b)) (pow2 1024)) as [Small | Big].
    - pose proof (binary64_le (a + b) (2 * b) (representable_twice b Rb Small)
                    ltac:(lra)) as G.
      rewrite Es in G. by apply num_le_Fin in G.
    - destruct (Qlt_le_dec b 0) as [Neg | Pos].
      + rewrite Qabs_neg in Big by lra.
        pose proof (binary64_mono (a + b) (- pow2 1024) ltac:(lra)) as G.
        rewrite Es in G.
        replace (binary64 (- pow2 1024)) with NInf in G by (vm_compute; reflexivity).
        discriminate G.
      + rewrite Qabs_pos in Big by lra. lra. }
  apply binary64_between; [done | done |].
  split; [apply Qle_shift_div_l | apply Qle_shift_div_r]; lra.
Qed.

Section median_half.
Context `{Builtins}.
Import MarketOverview.

Lemma double_finite n : double n → finite n.
Proof. intros (q & -> & _). by exists q. Qed.

Lemma sorted_at_le (s : list num) i j :
  StronglySorted ascending s → Forall finite s → i ≤ j → j < length s →
  ascending (arr_at s i) (arr_at s j).
Proof.
  intros S F Hij Hj. unfold arr_at.
  destruct (lookup_lt_is_Some_2 s i) as [x Hx]; [lia |].
  destruct (lookup_lt_is_Some_2 s j) as [y Hy]; [lia |].
  rewrite Hx, Hy. simpl. destruct (decide (i = j)) as [-> | N].
  - assert (x = y) as <- by congruence.
    destruct (Forall_lookup_1 _ _ _ _ F Hx) as [q ->].
    apply num_le_Fin, Qle_refl.
  - apply (StronglySorted_lookup _ s i j); [done | lia | done | done].
Qed.

Lemma arr_at_double arr i : Forall double arr → i < length arr → double (arr_at arr i).
Proof.
  intros F L. unfold arr_at.
  destruct (lookup_lt_is_Some_2 arr i L) as [x E]. rewrite E. simpl.
  eapply Forall_lookup_1; eauto.
Qed.

(** The midpoint, when finite, lies between the two central elements. *)
Lemma midpoint_between (s : list num) :
  s ≠ [] → Forall double s → StronglySorted ascending s → finite (midpoint s) →
  let n := length s in
  ascending (arr_at s ((n - 1) / 2)) (midpoint s) ∧
  ascending (midpoint s) (arr_at s (n / 2)).
Proof.
  intros N D S Fm n. revert Fm. unfold midpoint. fold n.
  assert (Forall finite s) as F
    by (eapply Forall_impl; [exact D | apply double_finite]).
  assert (0 < n) as Pn by (unfold n; destruct s; [done | simpl; lia]).
  assert (n / 2 < n) as Hmid by (apply Nat.div_lt; lia).
  destruct (arr_at_double s (n / 2) D Hmid) as (b & Eb & Rb).
  destruct (Nat.even n) eqn:Ev.
  - apply Nat.even_spec in Ev as [k Ek].
    assert (n / 2 = k) as Hk
      by (rewrite Ek, Nat.mul_comm; apply Nat.div_mul; lia).
    assert ((n - 1) / 2 = k - 1) as Hk'.
    { rewrite Ek. replace (2 * k - 1) with (1 + (k - 1) * 2) by lia.
      rewrite Nat.div_add by lia. done. }
    rewrite Hk', Hk in *.
    destruct (arr_at_double s (k - 1) D) as (a & Ea & Ra); [lia |].
    pose proof (sorted_at_le s (k - 1) k S F) as L.
    rewrite Ea, Eb in L |- *. unfold ascending in L.
    rewrite num_le_Fin in L by lia. specialize (L ltac:(lia) ltac:(lia)).
    intros Fm. destruct (average_between a b Ra Rb L Fm) as (m & -> & Lo & Hi).
    unfold ascending. by rewrite !num_le_Fin.
  - assert ((n - 1) / 2 = n / 2) as ->.
    { assert (Nat.odd n = true) as Od by (by rewrite <- Nat.negb_even, Ev).
      apply Nat.odd_spec in Od as [k Ek]. rewrite Ek.
      replace (2 * k + 1 - 1) with (k * 2) by lia.
      replace (2 * k + 1) with (1 + k * 2) by lia.
      rewrite Nat.div_mul, Nat.div_add by lia. done. }
    rewrite Eb. intros _. split; apply num_le_Fin, Qle_refl.
Qed.
End median_half.

(** X7.  The median of binary64 numbers, when it is finite, splits them in
    two halves: at least half of them are at most the median and at least
    half are at least the median. *)
Theorem median_splits `{Builtins} (values : list value) (m : num) :
  Forall double (finite_numbers values) →
  MarketOverview.median values = Some m →
  finite m →
  let finite_values := finite_numbers values in
  length finite_values ≤
    2 * length (List.filter (λ x, num_le x m) finite_values) ∧
  length finite_values ≤
    2 * length (List.filter (λ x, num_le m x) finite_values).
Proof.
  intros D E Fm fs.
  destruct (median_unfold values) as (P & F & E'). rewrite E' in E. clear E'.
  pose proof (median_sorted values D) as S.
  set (s := Array_sort _ _) in *. fold fs in P.
  assert (Forall double s) as Ds by (by rewrite P).
  assert (s ≠ []) as N by (by destruct s).
  assert (m = midpoint s) as -> by (destruct s; [done | by injection E]).
  apply (@Sorted_StronglySorted _ _ ascending_trans) in S.
  destruct (midpoint_between s N Ds S Fm) as [Lo Up].
  rewrite <- !(filter_length_Permutation _ s fs P), <- (Permutation_length P).
  set (n := length s) in *.
  assert (0 < n) as Pn by (unfold n; destruct s; [done | simpl; lia]).
  assert (n / 2 < n) as Hmid by (apply Nat.div_lt; lia).
  pose proof (Nat.div_mod_eq n 2) as Dn.
  pose proof (Nat.mod_upper_bound n 2 ltac:(lia)) as Mn.
  pose proof (Nat.div_mod_eq (n - 1) 2) as Dn1.
  pose proof (Nat.mod_upper_bound (n - 1) 2 ltac:(lia)) as Mn1.
  split.
  - assert ((n - 1) / 2 + 1 ≤ length (List.filter (λ x, num_le x (midpoint s)) s));
      [| lia].
    apply filter_length_take; [fold n; lia |].
    intros i x Hi Hx.
    pose proof (sorted_at_le s i ((n - 1) / 2) S F ltac:(lia) ltac:(fold n; lia)) as L.
    unfold arr_at at 1 in L. rewrite Hx in L. simpl in L.
    apply (ascending_trans _ _ _ L Lo).
  - assert (n - n / 2 ≤ length (List.filter (λ x, num_le (midpoint s) x) s));
      [| lia].
    apply filter_length_drop. intros i x Hge Hx.
    assert (i < n) as Hin by (by apply lookup_lt_Some in Hx).
    pose proof (sorted_at_le s (n / 2) i S F Hge ltac:(fold n; lia)) as L.
    unfold arr_at at 2 in L. rewrite Hx in L. simpl in L.
    apply (ascending_trans _ _ _ Up L).
Qed.

Lemma median_splits_witness :
  let values := [VNum (Fin 3); VStr "n/a"; VNum (Fin 1); VNum (Fin 2)] in
  @MarketOverview.median evaluation_builtins values = Some (Fin 2) ∧
  length (@finite_numbers evaluation_builtins values) ≤
    2 * length (List.filter (λ x, num_le x (Fin 2))
                  (@finite_numbers evaluation_builtins values)).
Proof.
  intros values. split; [vm_compute; reflexivity |].
  apply (@median_splits evaluation_builtins values (Fin 2)).
  - repeat constructor; eexists; (split; [reflexivity |]).
    + apply (representable_Z 3). reflexivity.
    + apply (representable_Z 1). reflexivity.
    + apply (representable_Z 2). reflexivity.
  - vm_compute. reflexivity.
  - by exists 2%Q.
Defined.


(** ** SnapshotBuilder: unique identifiers, null prices, coin rows *)

Section unique_ids.
Context `{Builtins}.
Import MarketOverview.

Lemma find_head_filter {A} (f : A → bool) (l : list A) :
  List.find f l = head (List.filter f l).
Proof. induction l as [|x l IH]; simpl; [done |]. by destruct (f x). Qed.

Lemma filter_id_absent id (arr : list MarketAsset) :
  id ∉ map asset_id arr →
  List.filter (λ c, String.eqb (asset_id c) id) arr = [].
Proof.
  induction arr as [|c arr IH]; simpl; [done |]. intros N.
  apply not_elem_of_cons in N as [N1 N2].
  destruct (String.eqb (asset_id c) id) eqn:E.
  - apply String.eqb_eq in E. congruence.
  - by apply IH.
Qed.

Lemma filter_id_unique id (arr : list MarketAsset) :
  NoDup (map asset_id arr) →
  length (List.filter (λ c, String.eqb (asset_id c) id) arr) ≤ 1.
Proof.
  induction arr as [|c arr IH]; simpl; [lia |]. intros D.
  apply NoDup_cons in D as [N D].
  destruct (String.eqb (asset_id c) id) eqn:E.
  - apply String.eqb_eq in E. subst id. rewrite filter_id_absent by done. done.
  - by apply IH.
Qed.

Lemma last_match_first_match id (arr : list MarketAsset) :
  NoDup (map asset_id arr) → last_match id arr = first_match id arr.
Proof.
  intros D. unfold last_match, first_match. rewrite find_head_filter.
  pose proof (filter_id_unique id arr D) as L.
  destruct (List.filter _ arr) as [|x [|y l]]; simpl in *; try done; lia.
Qed.
End unique_ids.

(** X8.  On a list whose identifiers are pairwise distinct the snapshot is
    the first-match lookup: each of bitcoin, ethereum and solana is shown
    through the one asset that carries it. *)
Theorem computeTop3Snapshot_unique_ids `{Builtins}
    (arr : list MarketOverview.MarketAsset) :
  NoDup (map MarketOverview.asset_id arr) →
  MarketOverview.computeTop3Snapshot (Some arr) = first_match_snapshot (Some arr).
Proof.
  intros D. rewrite computeTop3Snapshot_last_match. unfold first_match_snapshot.
  simpl or_empty. unfold top3_ids. simpl.
  by rewrite !last_match_first_match.
Qed.

Definition asset (id : string) (price : value) : MarketOverview.MarketAsset :=
  {| MarketOverview.asset_id := id;
     MarketOverview.asset_name := VStr id;
     MarketOverview.asset_symbol := VStr id;
     MarketOverview.current_price := price;
     MarketOverview.market_cap := VUndef;
     MarketOverview.price_change_percentage_24h_in_currency := VNum (Fin 1);
     MarketOverview.price_change_percentage_7d_in_currency := VNum (Fin (-1));
     MarketOverview.price_change_percentage_30d_in_currency := VNull |}.

Lemma computeTop3Snapshot_unique_ids_witness :
  let arr := [asset "solana" (VNum (Fin 20)); asset "tether" (VNum (Fin 1));
              asset "bitcoin" VNull] in
  @MarketOverview.computeTop3Snapshot evaluation_builtins (Some arr) =
    @first_match_snapshot evaluation_builtins (Some arr).
Proof.
  intros arr. apply (@computeTop3Snapshot_unique_ids evaluation_builtins).
  simpl. apply (bool_decide_unpack _). vm_compute. reflexivity.
Defined.

(** X9.  A listed asset whose upstream field is JSON null shows 0 in the
    snapshot, one whose field is missing shows null. *)
Theorem computeTop3Snapshot_null_field `{Builtins}
    (markets : option (list MarketOverview.MarketAsset))
    (id : string) (c : MarketOverview.MarketAsset) :
  id ∈ top3_ids →
  last_match id (or_empty markets) = Some c →
  ∃ e, e ∈ MarketOverview.computeTop3Snapshot markets ∧
       MarketOverview.snap_id e = id ∧
       (MarketOverview.current_price c = VNull →
          MarketOverview.priceUsd e = Some (Fin 0)) ∧
       (MarketOverview.current_price c = VUndef →
          MarketOverview.priceUsd e = None) ∧
       (MarketOverview.market_cap c = VNull →
          MarketOverview.marketCapUsd e = Some (Fin 0)) ∧
       (MarketOverview.market_cap c = VUndef →
          MarketOverview.marketCapUsd e = None).
Proof.
  intros Hid L. exists (MarketOverview.condensed c). split.
  - rewrite computeTop3Snapshot_last_match. apply list_elem_of_omap.
    exists id. split; [done |]. by rewrite L.
  - split; [by apply last_match_id in L as [? _] |].
    simpl. split_and!; by intros ->.
Qed.

Lemma computeTop3Snapshot_null_field_witness :
  let arr := [asset "solana" (VNum (Fin 20)); asset "bitcoin" VNull] in
  ∃ e, e ∈ @MarketOverview.computeTop3Snapshot evaluation_builtins (Some arr) ∧
       MarketOverview.snap_id e = "bitcoin" ∧
       MarketOverview.priceUsd e = Some (Fin 0) ∧
       MarketOverview.marketCapUsd e = None.
Proof.
  intros arr.
  destruct (@computeTop3Snapshot_null_field evaluation_builtins (Some arr)
              "bitcoin" (asset "bitcoin" VNull))
    as (e & He & Hid & P0 & _ & _ & M);
    [unfold top3_ids; rewrite !elem_of_cons; by left | reflexivity |].
  exists e. split; [exact He |]. split; [exact Hid |].
  split; [exact (P0 eq_refl) | exact (M eq_refl)].
Defined.

(** X10.  The coin rows built from a snapshot follow it entry by entry: same
    identifier, name, price and changes, the symbol in upper case; so they
    too are at most three, in the order bitcoin, ethereum, solana.  A missing
    snapshot gives no rows. *)
Theorem buildCoinsRowFromTop3_follows `{Builtins}
    (markets : option (list MarketOverview.MarketAsset)) :
  let snapshot := MarketOverview.computeTop3Snapshot markets in
  let rows := MarketOverview.buildCoinsRowFromTop3 (Some snapshot) in
  Forall2 (λ r e,
      MarketOverview.row_id r = MarketOverview.snap_id e ∧
      MarketOverview.row_name r = MarketOverview.snap_name e ∧
      MarketOverview.row_symbol r =
        toUpperCase (ToString (or_else (MarketOverview.snap_symbol e) (VStr ""))) ∧
      MarketOverview.row_priceUsd r = MarketOverview.priceUsd e ∧
      MarketOverview.chg24h r = MarketOverview.change24hPct e ∧
      MarketOverview.chg30d r = MarketOverview.change30dPct e)
    rows snapshot ∧
  length rows ≤ 3 ∧
  sublist (map MarketOverview.row_id rows) top3_ids ∧
  MarketOverview.buildCoinsRowFromTop3 None = [].
Proof.
  intros snapshot rows.
  assert (Forall2 (λ r e,
      MarketOverview.row_id r = MarketOverview.snap_id e ∧
      MarketOverview.row_name r = MarketOverview.snap_name e ∧
      MarketOverview.row_symbol r =
        toUpperCase (ToString (or_else (MarketOverview.snap_symbol e) (VStr ""))) ∧
      MarketOverview.row_priceUsd r = MarketOverview.priceUsd e ∧
      MarketOverview.chg24h r = MarketOverview.change24hPct e ∧
      MarketOverview.chg30d r = MarketOverview.change30dPct e)
    rows snapshot) as F.
  { subst rows. unfold MarketOverview.buildCoinsRowFromTop3. simpl or_empty.
    induction snapshot as [|e l IH]; constructor; [by repeat split | exact IH]. }
  assert (map MarketOverview.row_id rows = map MarketOverview.snap_id snapshot) as Ids.
  { subst rows. unfold MarketOverview.buildCoinsRowFromTop3. simpl or_empty.
    rewrite map_map. done. }
  split; [exact F |]. split.
  - rewrite (Forall2_length _ _ _ F). subst snapshot.
    rewrite computeTop3Snapshot_last_match. apply (omap_length_le _ top3_ids).
  - split; [| done]. rewrite Ids. subst snapshot.
    rewrite computeTop3Snapshot_last_match. apply shown_sublist.
Qed.

(** ** MoodStateSequencer: next and prev are inverse *)

(** X11.  [next] and [prev] are inverse to each other on all strings: [b] is
    the next state of [a] exactly when [a] is the previous state of [b]. *)
Theorem computeAdjacentStates_inverse (a b : string) :
  MarketOverview.next (MarketOverview.computeAdjacentStates (VStr a)) = Some b ↔
  MarketOverview.prev (MarketOverview.computeAdjacentStates (VStr b)) = Some a.
Proof.
  assert (∀ s, s ∈ MarketOverview.states ∨
               MarketOverview.computeAdjacentStates (VStr s) = no_neighbours) as D.
  { intros s. destruct (decide (s ∈ MarketOverview.states)) as [I|I]; [by left |].
    right. apply computeAdjacentStates_absent. by intros s' Hs' [= ->]. }
  assert (∀ s, s ∈ MarketOverview.states →
               s = "crumbs-everywhere" ∨ s = "clutching-cookies" ∨ s = "side-eye" ∨
               s = "steady-bite" ∨ s = "snack-mode") as Five.
  { intros s Hs. unfold MarketOverview.states in Hs.
    repeat (apply elem_of_cons in Hs as [-> | Hs]; [auto 10 |]).
    by apply elem_of_nil in Hs. }
  assert (∀ s t, MarketOverview.next (MarketOverview.computeAdjacentStates (VStr s)) =
                   Some t ∨
                 MarketOverview.prev (MarketOverview.computeAdjacentStates (VStr t)) =
                   Some s →
                 s ∈ MarketOverview.states ∧ t ∈ MarketOverview.states) as In.
  { intros s t Hst.
    destruct (computeAdjacentStates_valid (VStr s)) as [_ Vn].
    destruct (computeAdjacentStates_valid (VStr t)) as [Vp _].
    destruct (D s) as [Is | Es], (D t) as [It | Et]; destruct Hst as [Hst | Hst];
      rewrite ?Es, ?Et in *; simpl in *; try done;
      rewrite Hst in *; simpl in *; done. }
  split; intros Hab.
  - destruct (In a b (or_introl Hab)) as [Ia Ib]. apply Five in Ia, Ib. revert Hab.
    destruct Ia as [-> | [-> | [-> | [-> | ->]]]];
      destruct Ib as [-> | [-> | [-> | [-> | ->]]]]; vm_compute; congruence.
  - destruct (In a b (or_intror Hab)) as [Ia Ib]. apply Five in Ia, Ib. revert Hab.
    destruct Ia as [-> | [-> | [-> | [-> | ->]]]];
      destruct Ib as [-> | [-> | [-> | [-> | ->]]]]; vm_compute; congruence.
Qed.


(** ** Effects: bodies that issue no call *)

(** A body is silent when it leaves the log of upstream calls as it was,
    whether it returns or throws. *)
Definition silent {C A} (m : M C A) : Prop := ∀ log, (m log).2 = log.

Lemma silent_ret {C A} (a : A) : silent (@ret C A a).
Proof. done. Qed.

Lemma silent_throw {C A} e : silent (@throw C A e).
Proof. done. Qed.

Lemma silent_bind {C A B} (m : M C A) (k : A → M C B) :
  silent m → (∀ a, silent (k a)) → silent (bind m k).
Proof.
  intros Hm Hk log. unfold bind. specialize (Hm log).
  destruct (m log) as [[e|a] log']; simpl in *; subst; [done | apply Hk].
Qed.

Lemma silent_await {C A} (p : option A) : silent (@await C A p).
Proof. by destruct p. Qed.

Lemma silent_prop {C} v k : silent (@prop C v k).
Proof. unfold prop. by destruct (nullish v). Qed.

Lemma silent_mapM {C A B} (f : A → M C B) l : (∀ x, silent (f x)) → silent (mapM f l).
Proof.
  intros Hf. induction l as [|x l IH]; simpl; [apply silent_ret |].
  apply silent_bind; [apply Hf |]. intros y.
  apply silent_bind; [exact IH |]. intros ys. apply silent_ret.
Qed.

Lemma silent_filterM {C A} (f : A → M C bool) l :
  (∀ x, silent (f x)) → silent (filterM f l).
Proof.
  intros Hf. induction l as [|x l IH]; simpl; [apply silent_ret |].
  apply silent_bind; [apply Hf |]. intros y.
  apply silent_bind; [exact IH |]. intros ys. apply silent_ret.
Qed.

(** The outcome of a silent body, with the log put back. *)
Lemma silent_run {C A} (m : M C A) log : silent m → m log = ((m log).1, log).
Proof. intros S. rewrite <- (S log) at 3. by destruct (m log). Qed.

(** ** AggregationOrchestrator: calls, failures, payload *)

Section orchestration.
Context `{Builtins}.
Import MarketOverview.

Lemma silent_trending_ids trendingJson : silent (trending_ids trendingJson).
Proof.
  unfold trending_ids. apply silent_bind; [apply silent_prop |]. intros coins.
  destruct (or_else coins (VArr [])); try apply silent_throw.
  apply silent_mapM. intros c.
  apply silent_bind; [apply silent_prop |]. intros item.
  apply silent_bind; [apply silent_prop |]. intros id. apply silent_ret.
Qed.

Definition first_calls : list call := [get_markets; get_trending; get_global].

Definition top50Ids (markets : list MarketAsset) : string :=
  String.concat "," (map asset_id (take 50 markets)).

(** Everything the orchestration does after the three responses are in. *)
Lemma fetchFromCoinGecko_unfold up log :
  fetchFromCoinGecko up log =
    let log3 := log ++ first_calls in
    match markets_answer up, trending_answer up, global_answer up with
    | Some marketsRes, Some trendingRes, Some globalRes =>
        if negb (ok marketsRes) then (inl (Error "markets request failed"), log3) else
        if negb (ok trendingRes) then (inl (Error "trending request failed"), log3) else
        if negb (ok globalRes) then (inl (Error "global request failed"), log3) else
        match json marketsRes, json trendingRes, json globalRes with
        | Some markets, Some trendingJson, Some global =>
            match (trending_ids trendingJson log3).1 with
            | inl e => (inl e, log3)
            | inr trending =>
                let log4 := log3 ++ [get_simple_price (top50Ids markets)] in
                match simple_price_answer up (top50Ids markets) with
                | None => (inl Rejected, log4)
                | Some simpleRes =>
                    if negb (ok simpleRes)
                    then (inl (Error "simple price request failed"), log4)
                    else
                      match json simpleRes with
                      | None => (inl Rejected, log4)
                      | Some converterPrices =>
                          let top3Snapshot := computeTop3Snapshot (Some markets) in
                          let baseMood := computeMood (Some markets) global in
                          (inr {| markets := markets;
                                  trending := trending;
                                  global := global;
                                  converterPrices := converterPrices;
                                  mood :=
                                    {| baseMood := baseMood;
                                       adjacent :=
                                         computeAdjacentStates (VStr (state baseMood));
                                       ghostKey := state baseMood |};
                                  top3Snapshot := top3Snapshot;
                                  coins := buildCoinsRowFromTop3 (Some top3Snapshot) |},
                           log4)
                      end
                end
            end
        | _, _, _ => (inl Rejected, log3)
        end
    | _, _, _ => (inl Rejected, log3)
    end.
Proof.
  unfold fetchFromCoinGecko, first_calls, top50Ids.
  unfold bind at 1. unfold fetch at 1. unfold bind at 1. unfold fetch at 1.
  unfold bind at 1. unfold fetch at 1.
  rewrite <- !app_assoc. simpl app.
  set (log3 := log ++ _).
  unfold bind at 1. destruct (markets_answer up) as [marketsRes|]; simpl; [| done].
  unfold bind at 1. destruct (trending_answer up) as [trendingRes|]; simpl; [| done].
  unfold bind at 1. destruct (global_answer up) as [globalRes|]; simpl; [| done].
  destruct (ok marketsRes); simpl; [| done].
  destruct (ok trendingRes); simpl; [| done].
  destruct (ok globalRes); simpl; [| done].
  unfold bind at 1. destruct (json marketsRes) as [markets|]; simpl; [| done].
  unfold bind at 1. destruct (json trendingRes) as [trendingJson|]; simpl;
    [| by destruct (json globalRes)].
  unfold bind at 1. destruct (json globalRes) as [global|]; simpl; [| done].
  unfold bind at 1.
  rewrite (silent_run (trending_ids trendingJson) log3 (silent_trending_ids _)).
  destruct (trending_ids trendingJson log3).1 as [e|trending]; [done |].
  unfold bind at 1. unfold fetch at 1. unfold bind at 1.
  destruct (simple_price_answer up _) as [simpleRes|]; simpl; [| done].
  destruct (ok simpleRes); simpl; [| done].
  unfold bind at 1. by destruct (json simpleRes).
Qed.
End orchestration.

(** X12.  Every orchestration issues the listings, trending and global
    requests, in this order, whatever their outcome, and at most one price
    request after them; a successful one issues exactly these four, the price
    request carrying the comma-joined identifiers of the first 50 listings. *)
Theorem fetchFromCoinGecko_calls `{Builtins}
    (up : MarketOverview.Upstream) (log : list MarketOverview.call) :
  ∃ rest,
    (MarketOverview.fetchFromCoinGecko up log).2 = log ++ first_calls ++ rest ∧
    (rest = [] ∨ ∃ ids, rest = [MarketOverview.get_simple_price ids]) ∧
    match (MarketOverview.fetchFromCoinGecko up log).1 with
    | inr p =>
        rest = [MarketOverview.get_simple_price (top50Ids (MarketOverview.markets p))]
    | inl _ => True
    end.
Proof.
  rewrite fetchFromCoinGecko_unfold. cbv zeta.
  assert (∀ e : exn, ∃ rest,
            log ++ first_calls = log ++ first_calls ++ rest ∧
            (rest = [] ∨ ∃ ids, rest = [MarketOverview.get_simple_price ids]) ∧
            True) as Three
    by (intros _; exists []; rewrite app_nil_r; eauto).
  assert (∀ (e : exn) ids, ∃ rest,
            (log ++ first_calls) ++ [MarketOverview.get_simple_price ids] =
              log ++ first_calls ++ rest ∧
            (rest = [] ∨ ∃ ids, rest = [MarketOverview.get_simple_price ids]) ∧
            True) as Four
    by (intros _ ids; eexists [_]; rewrite app_assoc; eauto).
  destruct (MarketOverview.markets_answer up) as [m|],
    (MarketOverview.trending_answer up) as [t|],
    (MarketOverview.global_answer up) as [g|]; try apply (Three Rejected).
  destruct (ok m); cbn [negb]; [| apply (Three Rejected)].
  destruct (ok t); cbn [negb]; [| apply (Three Rejected)].
  destruct (ok g); cbn [negb]; [| apply (Three Rejected)].
  destruct (json m) as [markets|], (json t) as [trendingJson|],
    (json g) as [global|]; try apply (Three Rejected).
  destruct (MarketOverview.trending_ids trendingJson _).1 as [e|trending];
    [apply (Three Rejected) |].
  destruct (MarketOverview.simple_price_answer up _) as [s|];
    [| apply (Four Rejected)].
  destruct (ok s); cbn [negb]; [| apply (Four Rejected)].
  destruct (json s) as [converterPrices|]; [| apply (Four Rejected)].
  cbn [fst snd]. eexists [_]. rewrite app_assoc. eauto.
Qed.

(** X13.  Once the three responses are in, the first of them that is not ok,
    in the order listings, trending, global, names the error, and no price
    request is issued; a rejected request comes before any of this. *)
Theorem fetchFromCoinGecko_first_failure `{Builtins}
    (up : MarketOverview.Upstream) (log : list MarketOverview.call) :
  (∀ m t g,
     MarketOverview.markets_answer up = Some m →
     MarketOverview.trending_answer up = Some t →
     MarketOverview.global_answer up = Some g →
     ok m && ok t && ok g = false →
     MarketOverview.fetchFromCoinGecko up log =
       (inl (Error (if negb (ok m) then "markets request failed"
                    else if negb (ok t) then "trending request failed"
                    else "global request failed")),
        log ++ first_calls)) ∧
  (MarketOverview.markets_answer up = None ∨
   MarketOverview.trending_answer up = None ∨
   MarketOverview.global_answer up = None →
   MarketOverview.fetchFromCoinGecko up log = (inl Rejected, log ++ first_calls)).
Proof.
  split.
  - intros m t g Hm Ht Hg Hok. rewrite fetchFromCoinGecko_unfold, Hm, Ht, Hg.
    cbv zeta. by destruct (ok m), (ok t), (ok g).
  - intros Hnone. rewrite fetchFromCoinGecko_unfold. cbv zeta.
    destruct (MarketOverview.markets_answer up),
      (MarketOverview.trending_answer up),
      (MarketOverview.global_answer up); try done;
      by destruct Hnone as [? | [? | ?]].
Qed.

Definition refused {A} (code : Z) : option (FetchResponse A) :=
  Some {| ok := false; status := code; json := None |}.

(** Listings and global are refused, trending is answered. *)
Definition throttled_upstream : MarketOverview.Upstream :=
  {| MarketOverview.markets_answer := refused 429;
     MarketOverview.trending_answer := MarketOverview.trending_answer sample_upstream;
     MarketOverview.global_answer := refused 429;
     MarketOverview.simple_price_answer :=
       MarketOverview.simple_price_answer sample_upstream |}.

(** Listings are refused and the trending request is rejected. *)
Definition unreachable_upstream : MarketOverview.Upstream :=
  {| MarketOverview.markets_answer := refused 429;
     MarketOverview.trending_answer := None;
     MarketOverview.global_answer := MarketOverview.global_answer sample_upstream;
     MarketOverview.simple_price_answer :=
       MarketOverview.simple_price_answer sample_upstream |}.

Lemma fetchFromCoinGecko_first_failure_witness :
  @MarketOverview.fetchFromCoinGecko evaluation_builtins throttled_upstream [] =
    (inl (Error "markets request failed"), first_calls) ∧
  @MarketOverview.fetchFromCoinGecko evaluation_builtins unreachable_upstream [] =
    (inl Rejected, first_calls).
Proof.
  split.
  - exact (proj1 (@fetchFromCoinGecko_first_failure evaluation_builtins
                    throttled_upstream []) _ _ _ eq_refl eq_refl eq_refl eq_refl).
  - apply (proj2 (@fetchFromCoinGecko_first_failure evaluation_builtins
                    unreachable_upstream [])). right. left. reflexivity.
Defined.

(** *** The trending list *)

(** The outcomes of the elements, up to the first that throws. *)
Fixpoint collect {A B} (F : A → exn + B) (l : list A) : exn + list B :=
  match l with
  | [] => inr []
  | x :: l' =>
      match F x with
      | inl e => inl e
      | inr y =>
          match collect F l' with
          | inl e => inl e
          | inr ys => inr (y :: ys)
          end
      end
  end.

Lemma mapM_collect {C A B} (f : A → M C B) (F : A → exn + B) l log :
  (∀ x log, f x log = (F x, log)) → mapM f l log = (collect F l, log).
Proof.
  intros Hf. induction l as [|x l IH]; simpl; [done |].
  unfold bind at 1. rewrite Hf. destruct (F x) as [e|y]; [done |].
  unfold bind at 1. rewrite IH. by destruct (collect F l).
Qed.

Lemma collect_throws {A B} (F : A → exn + B) l e0 e :
  (∀ x e, F x = inl e → e = e0) → collect F l = inl e → e = e0.
Proof.
  intros HF. induction l as [|x l IH]; simpl; [done |].
  destruct (F x) as [e'|y] eqn:E; [intros [= <-]; by eapply HF |].
  destruct (collect F l); [intros [= <-]; by apply IH | done].
Qed.

Lemma collect_map {A B} (F : A → exn + B) (G : A → B) l :
  Forall (λ x, F x = inr (G x)) l → collect F l = inr (map G l).
Proof. induction 1 as [|x l E _ IH]; simpl; [done |]. by rewrite E, IH. Qed.

Lemma collect_inr {A B} (F : A → exn + B) l ys :
  collect F l = inr ys → Forall2 (λ x y, F x = inr y) l ys.
Proof.
  revert ys. induction l as [|x l IH]; intros ys; simpl.
  - intros [= <-]. constructor.
  - destruct (F x) as [e|y] eqn:E; [done |].
    destruct (collect F l) as [e|ys']; [done |]. intros [= <-].
    constructor; [done | by apply IH].
Qed.

Section trending.
Context `{Builtins}.
Import MarketOverview.

(** [{ id: c.item.id }] for one element of [coins] *)
Definition trending_entry (c : value) : exn + value :=
  if nullish c then inl TypeError
  else if nullish (get c "item") then inl TypeError
  else inr (VObj [("id", get (get c "item") "id")]).

Lemma trending_ids_run trendingJson log :
  trending_ids trendingJson log =
    (if nullish trendingJson then inl TypeError
     else match or_else (get trendingJson "coins") (VArr []) with
          | VArr cs => collect trending_entry cs
          | _ => inl TypeError
          end, log).
Proof.
  unfold trending_ids, bind at 1, prop at 1.
  destruct (nullish trendingJson); [done |]. unfold ret at 1.
  destruct (or_else _ _); try done.
  apply mapM_collect. clear. intros c log.
  unfold trending_entry, bind, prop, ret, throw.
  destruct (nullish c); [done |]. by destruct (nullish (get c "item")).
Qed.

Lemma trending_entry_throws c e : trending_entry c = inl e → e = TypeError.
Proof.
  unfold trending_entry. destruct (nullish c); [by intros [= <-] |].
  destruct (nullish _); [by intros [= <-] | done].
Qed.

Lemma trending_ids_throws trendingJson log e :
  (trending_ids trendingJson log).1 = inl e → e = TypeError.
Proof.
  rewrite trending_ids_run. simpl. destruct (nullish _); [by intros [= <-] |].
  destruct (or_else _ _); try (by intros [= <-]).
  apply collect_throws. apply trending_entry_throws.
Qed.
End trending.

(** X14.  A thrown [Error] names a request that was made and whose response
    was not ok; for the price request, the three first responses were ok. *)
Theorem fetchFromCoinGecko_error_names `{Builtins}
    (up : MarketOverview.Upstream) (log log' : list MarketOverview.call)
    (msg : string) :
  MarketOverview.fetchFromCoinGecko up log = (inl (Error msg), log') →
  (msg = "markets request failed" ∧ log' = log ++ first_calls ∧
   ∃ r, MarketOverview.markets_answer up = Some r ∧ ok r = false) ∨
  (msg = "trending request failed" ∧ log' = log ++ first_calls ∧
   ∃ r, MarketOverview.trending_answer up = Some r ∧ ok r = false) ∨
  (msg = "global request failed" ∧ log' = log ++ first_calls ∧
   ∃ r, MarketOverview.global_answer up = Some r ∧ ok r = false) ∨
  (msg = "simple price request failed" ∧
   ∃ ids r m t g,
     log' = log ++ first_calls ++ [MarketOverview.get_simple_price ids] ∧
     MarketOverview.simple_price_answer up ids = Some r ∧ ok r = false ∧
     MarketOverview.markets_answer up = Some m ∧ ok m = true ∧
     MarketOverview.trending_answer up = Some t ∧ ok t = true ∧
     MarketOverview.global_answer up = Some g ∧ ok g = true).
Proof.
  rewrite fetchFromCoinGecko_unfold. cbv zeta.
  destruct (MarketOverview.markets_answer up) as [m|]; [| by destruct
    (MarketOverview.trending_answer up), (MarketOverview.global_answer up)].
  destruct (MarketOverview.trending_answer up) as [t|];
    [| by destruct (MarketOverview.global_answer up)].
  destruct (MarketOverview.global_answer up) as [g|]; [| done].
  destruct (ok m) eqn:Om; simpl; [| intros [= <- <-]; left; eauto].
  destruct (ok t) eqn:Ot; simpl; [| intros [= <- <-]; right; left; eauto].
  destruct (ok g) eqn:Og; simpl; [| intros [= <- <-]; right; right; left; eauto].
  destruct (json m) as [markets|]; [| by destruct (json t), (json g)].
  destruct (json t) as [trendingJson|]; [| by destruct (json g)].
  destruct (json g) as [global|]; [| done].
  destruct (MarketOverview.trending_ids trendingJson _).1 as [e|trending] eqn:T.
  - intros [= -> <-]. by apply trending_ids_throws in T.
  - destruct (MarketOverview.simple_price_answer up _) as [s|] eqn:Es; [| done].
    destruct (ok s) eqn:Os; simpl.
    + by destruct (json s).
    + intros [= <- <-]. right; right; right. split; [done |].
      eexists _, s, m, t, g. rewrite <- app_assoc. by repeat split.
Qed.

(** The price request is refused after the three first are answered. *)
Definition price_refused_upstream : MarketOverview.Upstream :=
  {| MarketOverview.markets_answer := MarketOverview.markets_answer sample_upstream;
     MarketOverview.trending_answer := MarketOverview.trending_answer sample_upstream;
     MarketOverview.global_answer := MarketOverview.global_answer sample_upstream;
     MarketOverview.simple_price_answer := λ _, refused 429 |}.

Lemma fetchFromCoinGecko_error_names_witness :
  ∃ r, MarketOverview.simple_price_answer price_refused_upstream "bitcoin" = Some r ∧
       ok r = false.
Proof.
  destruct (@fetchFromCoinGecko_error_names evaluation_builtins
              price_refused_upstream [] _ "simple price request failed" eq_refl)
    as [[E _] | [[E _] | [[E _] | (_ & ids & r & m & t & g & L & A & O & _)]]];
    try discriminate E.
  injection L as <-. by exists r.
Defined.

(** X15.  A payload is produced only when all four responses are ok and
    parse: its listings, global statistics and converter prices are the
    upstream documents as they came, its trending list is read off the
    trending document, and its snapshot, coin rows, mood, ghost key and
    adjacent states are derived from these listings and statistics. *)
Theorem fetchFromCoinGecko_payload `{Builtins}
    (up : MarketOverview.Upstream) (log log' : list MarketOverview.call)
    (p : MarketOverview.AggregatePayload) :
  MarketOverview.fetchFromCoinGecko up log = (inr p, log') →
  let listing := MarketOverview.markets p in
  (∃ m t g s trendingJson,
     MarketOverview.markets_answer up = Some m ∧ ok m = true ∧
     json m = Some listing ∧
     MarketOverview.trending_answer up = Some t ∧ ok t = true ∧
     json t = Some trendingJson ∧
     (MarketOverview.trending_ids trendingJson (log ++ first_calls)).1 =
       inr (MarketOverview.trending p) ∧
     MarketOverview.global_answer up = Some g ∧ ok g = true ∧
     json g = Some (MarketOverview.global p) ∧
     MarketOverview.simple_price_answer up (top50Ids listing) = Some s ∧
     ok s = true ∧ json s = Some (MarketOverview.converterPrices p)) ∧
  MarketOverview.top3Snapshot p = MarketOverview.computeTop3Snapshot (Some listing) ∧
  MarketOverview.coins p =
    MarketOverview.buildCoinsRowFromTop3 (Some (MarketOverview.top3Snapshot p)) ∧
  MarketOverview.baseMood (MarketOverview.mood p) =
    MarketOverview.computeMood (Some listing) (MarketOverview.global p) ∧
  MarketOverview.ghostKey (MarketOverview.mood p) =
    MarketOverview.state (MarketOverview.baseMood (MarketOverview.mood p)) ∧
  MarketOverview.adjacent (MarketOverview.mood p) =
    MarketOverview.computeAdjacentStates
      (VStr (MarketOverview.ghostKey (MarketOverview.mood p))) ∧
  log' = log ++ first_calls ++ [MarketOverview.get_simple_price (top50Ids listing)].
Proof.
  rewrite fetchFromCoinGecko_unfold. cbv zeta.
  destruct (MarketOverview.markets_answer up) as [m|]; [| by destruct
    (MarketOverview.trending_answer up), (MarketOverview.global_answer up)].
  destruct (MarketOverview.trending_answer up) as [t|];
    [| by destruct (MarketOverview.global_answer up)].
  destruct (MarketOverview.global_answer up) as [g|]; [| done].
  destruct (ok m) eqn:Om; cbn [negb]; [| done].
  destruct (ok t) eqn:Ot; cbn [negb]; [| done].
  destruct (ok g) eqn:Og; cbn [negb]; [| done].
  destruct (json m) as [markets|] eqn:Jm; [| by destruct (json t), (json g)].
  destruct (json t) as [trendingJson|] eqn:Jt; [| by destruct (json g)].
  destruct (json g) as [global|] eqn:Jg; [| done].
  destruct (MarketOverview.trending_ids trendingJson _).1 as [e|trending] eqn:T;
    [done |].
  destruct (MarketOverview.simple_price_answer up _) as [s|] eqn:Es; [| done].
  destruct (ok s) eqn:Os; cbn [negb]; [| done].
  destruct (json s) as [converterPrices|] eqn:Js; [| done].
  intros [= <- <-]. cbn [MarketOverview.markets MarketOverview.global
    MarketOverview.converterPrices MarketOverview.top3Snapshot MarketOverview.coins
    MarketOverview.mood MarketOverview.baseMood MarketOverview.ghostKey
    MarketOverview.adjacent MarketOverview.trending].
  split; [by exists m, t, g, s, trendingJson |].
  rewrite <- app_assoc. by repeat split.
Qed.

Lemma fetchFromCoinGecko_payload_witness :
  ∃ p log',
    @MarketOverview.fetchFromCoinGecko evaluation_builtins sample_upstream [] =
      (inr p, log') ∧
    MarketOverview.markets p = [bitcoin_entry "Bitcoin" 2] ∧
    log' = first_calls ++ [MarketOverview.get_simple_price "bitcoin"].
Proof.
  destruct (@MarketOverview.fetchFromCoinGecko evaluation_builtins sample_upstream [])
    as [[e|p] log'] eqn:E; [by vm_compute in E |].
  exists p, log'. split; [reflexivity |].
  destruct (@fetchFromCoinGecko_payload evaluation_builtins sample_upstream [] log' p E)
    as ((m & t & g & s & tj & Hm & _ & Jm & _) & _ & _ & _ & _ & _ & L).
  injection Hm as <-. injection Jm as Jm. rewrite <- Jm in L. by split.
Defined.

(** X16.  The trending list holds one [{id}] per upstream coin, in order,
    the id being [item.id]; a missing [coins] gives the empty list; and one
    coin that is null or has no [item] makes the whole list fail. *)
Theorem trending_ids_entries
    (trendingJson : value) (cs : list value) (log : list MarketOverview.call) :
  nullish trendingJson = false →
  or_else (get trendingJson "coins") (VArr []) = VArr cs →
  (get trendingJson "coins" = VUndef → cs = []) ∧
  (Forall (λ c, nullish (opt_get c "item") = false) cs →
   MarketOverview.trending_ids trendingJson log =
     (inr (map (λ c, VObj [("id", get (get c "item") "id")]) cs), log)) ∧
  (Exists (λ c, nullish (opt_get c "item") = true) cs →
   MarketOverview.trending_ids trendingJson log = (inl TypeError, log)).
Proof.
  intros Hj Hcs. rewrite trending_ids_run, Hj, Hcs. split_and!.
  - intros E. rewrite E in Hcs. by injection Hcs.
  - intros F. f_equal. apply collect_map.
    eapply Forall_impl; [exact F |]. intros c. unfold opt_get, trending_entry.
    destruct (nullish c); [done |]. by intros ->.
  - intros E. f_equal. destruct (collect trending_entry cs) as [e|ys] eqn:C.
    + f_equal. revert C. apply collect_throws. apply trending_entry_throws.
    + exfalso. apply collect_inr in C. apply Exists_exists in E as (c & Hc & N).
      apply list_elem_of_lookup in Hc as [i Hi].
      destruct (Forall2_lookup_l _ _ _ _ _ C Hi) as (y & _ & Hy).
      revert Hy N. unfold trending_entry, opt_get.
      destruct (nullish c); [done |]. by destruct (nullish (get c "item")).
Qed.

Definition trending_coin (id : string) : value :=
  VObj [("item", VObj [("id", VStr id)])].

Lemma trending_ids_entries_witness :
  MarketOverview.trending_ids
    (VObj [("coins", VArr [trending_coin "pepe"; trending_coin "dogecoin"])]) [] =
    (inr [VObj [("id", VStr "pepe")]; VObj [("id", VStr "dogecoin")]], []) ∧
  MarketOverview.trending_ids
    (VObj [("coins", VArr [trending_coin "pepe"; VObj []])]) [] =
    (inl TypeError, []).
Proof.
  split.
  - apply (trending_ids_entries
             (VObj [("coins", VArr [trending_coin "pepe"; trending_coin "dogecoin"])])
             [trending_coin "pepe"; trending_coin "dogecoin"] []);
      [reflexivity | reflexivity |].
    repeat constructor.
  - apply (trending_ids_entries
             (VObj [("coins", VArr [trending_coin "pepe"; VObj []])])
             [trending_coin "pepe"; VObj []] []);
      [reflexivity | reflexivity |].
    apply Exists_cons_tl, Exists_cons_hd. reflexivity.
Defined.


(** ** ResponseCache: outcomes, refresh, history *)

(** X17.  Every response carries the three CORS headers and is one of five
    outcomes: the empty preflight answer, a cache hit, a live payload, a stale
    payload, or the 500 failure.  The cache changes on a live response only,
    and an upstream call is made on the last three only. *)
Theorem handler_outcomes `{Builtins}
    (up : MarketOverview.Upstream) (req : MarketOverview.Request) (now : Z)
    (cache : MarketOverview.Cache) :
  let '(res, cache', log) := MarketOverview.handler up req now cache in
  MarketOverview.headers res = MarketOverview.cors ∧
  ((MarketOverview.method req = "OPTIONS" ∧ res = respond 200 MarketOverview.NoBody ∧
    cache' = cache ∧ log = []) ∨
   (∃ d, res = respond 200 (MarketOverview.Payload d "cache") ∧
         MarketOverview.data cache = Some d ∧
         (now - MarketOverview.ts cache < 5 * 60 * 1000)%Z ∧
         cache' = cache ∧ log = []) ∨
   (∃ p, res = respond 200 (MarketOverview.Payload p "live") ∧
         cache' = {| MarketOverview.ts := now; MarketOverview.data := Some p |} ∧
         MarketOverview.fetchFromCoinGecko up [] = (inr p, log)) ∨
   (∃ d e, res = respond 200 (MarketOverview.Payload d "stale-cache") ∧
           MarketOverview.data cache = Some d ∧ cache' = cache ∧
           MarketOverview.fetchFromCoinGecko up [] = (inl e, log)) ∨
   (∃ e, res = respond 500 (MarketOverview.Failure "Failed to load market data") ∧
         MarketOverview.data cache = None ∧ cache' = cache ∧
         MarketOverview.fetchFromCoinGecko up [] = (inl e, log))).
Proof.
  unfold MarketOverview.handler, MarketOverview.fresh_hit.
  destruct (String.eqb _ "OPTIONS") eqn:O.
  { apply String.eqb_eq in O. split; [done |]. by left. }
  destruct (MarketOverview.data cache) as [d|] eqn:D.
  - destruct (_ <? _)%Z eqn:A.
    + apply Z.ltb_lt in A. split; [done |]. right; left. by exists d.
    + destruct (MarketOverview.fetchFromCoinGecko up []) as [[e|p] log].
      * split; [done |]. right; right; right; left. by exists d, e.
      * split; [done |]. right; right; left. by exists p.
  - destruct (MarketOverview.fetchFromCoinGecko up []) as [[e|p] log].
    + split; [done |]. right; right; right; right. by exists e.
    + split; [done |]. right; right; left. by exists p.
Qed.

(** X18.  A live response refreshes the cache, and every later request within
    five minutes of it is answered from the cache with the same payload,
    without an upstream call, whatever the upstream would answer then. *)
Theorem handler_live_then_cached `{Builtins}
    (up up' : MarketOverview.Upstream) (req req' : MarketOverview.Request)
    (now now' : Z) (cache : MarketOverview.Cache)
    (p : MarketOverview.AggregatePayload) (log : list MarketOverview.call) :
  MarketOverview.method req ≠ "OPTIONS" →
  MarketOverview.method req' ≠ "OPTIONS" →
  MarketOverview.data cache = None ∨
    (5 * 60 * 1000 ≤ now - MarketOverview.ts cache)%Z →
  MarketOverview.fetchFromCoinGecko up [] = (inr p, log) →
  (now' - now < 5 * 60 * 1000)%Z →
  ∃ cache',
    MarketOverview.handler up req now cache =
      (respond 200 (MarketOverview.Payload p "live"), cache', log) ∧
    MarketOverview.handler up' req' now' cache' =
      (respond 200 (MarketOverview.Payload p "cache"), cache', []).
Proof.
  intros Hm Hm' Hstale Hfetch Hage.
  assert (MarketOverview.fresh_hit now cache = None) as Hfresh.
  { unfold MarketOverview.fresh_hit.
    destruct (MarketOverview.data cache) as [d|]; [| done].
    destruct Hstale as [? | Hold]; [done |].
    replace (_ <? _)%Z with false; [done |]. symmetry. by apply Z.ltb_ge. }
  apply String.eqb_neq in Hm, Hm'. eexists. split.
  - unfold MarketOverview.handler. by rewrite Hm, Hfresh, Hfetch.
  - unfold MarketOverview.handler, MarketOverview.fresh_hit. rewrite Hm'. simpl.
    replace (_ <? _)%Z with true; [done |]. symmetry. by apply Z.ltb_lt.
Qed.

Lemma handler_live_then_cached_witness :
  ∃ cache' p,
    @MarketOverview.handler evaluation_builtins sample_upstream GET 300000 (cached 0) =
      (respond 200 (MarketOverview.Payload p "live"), cache',
       [MarketOverview.get_markets; MarketOverview.get_trending;
        MarketOverview.get_global; MarketOverview.get_simple_price "bitcoin"]) ∧
    @MarketOverview.handler evaluation_builtins failing_upstream GET 599999 cache' =
      (respond 200 (MarketOverview.Payload p "cache"), cache', []).
Proof.
  destruct (@MarketOverview.fetchFromCoinGecko evaluation_builtins sample_upstream [])
    as [[e|p] log] eqn:E; [by vm_compute in E |].
  assert (log = [MarketOverview.get_markets; MarketOverview.get_trending;
                 MarketOverview.get_global; MarketOverview.get_simple_price "bitcoin"])
    as Hlog by (vm_compute in E; by injection E).
  destruct (@handler_live_then_cached evaluation_builtins sample_upstream
              failing_upstream GET GET 300000 599999 (cached 0) p log)
    as (cache' & L & C); [done | done | right; simpl; lia | exact E | simpl; lia |].
  exists cache', p. rewrite <- Hlog. by split.
Defined.

(** *** A history of requests *)

(** One request as it arrives: what the upstream would answer, the request,
    and the clock. *)
Record Arrival : Type := {
  arrival_upstream : MarketOverview.Upstream;
  arrival_request : MarketOverview.Request;
  arrival_time : Z;
}.

(** The requests of a history served one after the other by the same
    function instance, the cache passing from each to the next. *)
Fixpoint serve `{Builtins} (history : list Arrival) (cache : MarketOverview.Cache)
  : list MarketOverview.Response * MarketOverview.Cache :=
  match history with
  | [] => ([], cache)
  | a :: history' =>
      let '(res, cache', _) :=
        MarketOverview.handler (arrival_upstream a) (arrival_request a)
          (arrival_time a) cache in
      let '(rest, final) := serve history' cache' in
      (res :: rest, final)
  end.

Lemma handler_keeps_data `{Builtins}
    (up : MarketOverview.Upstream) (req : MarketOverview.Request) (now : Z)
    (cache : MarketOverview.Cache) :
  is_Some (MarketOverview.data cache) →
  let '(res, cache', _) := MarketOverview.handler up req now cache in
  is_Some (MarketOverview.data cache') ∧ MarketOverview.res_status res = 200%Z.
Proof.
  intros [d D]. unfold MarketOverview.handler, MarketOverview.fresh_hit. rewrite D.
  destruct (String.eqb _ "OPTIONS"); [by rewrite D |].
  destruct (_ <? _)%Z; [by rewrite D |].
  destruct (MarketOverview.fetchFromCoinGecko up []) as [[e|p] log];
    [by rewrite D | done].
Qed.

(** X19.  Cached data is never dropped: once the cache holds a payload, it
    holds one after any history of requests, and none of them is answered
    500. *)
Theorem serve_keeps_data `{Builtins}
    (history : list Arrival) (cache : MarketOverview.Cache) :
  is_Some (MarketOverview.data cache) →
  is_Some (MarketOverview.data (serve history cache).2) ∧
  Forall (λ res, MarketOverview.res_status res = 200%Z) (serve history cache).1.
Proof.
  revert cache. induction history as [|a history IH]; intros cache D; simpl.
  - by split.
  - pose proof (handler_keeps_data (arrival_upstream a) (arrival_request a)
                  (arrival_time a) cache D) as K.
    destruct (MarketOverview.handler _ _ _ cache) as [[res cache'] log].
    destruct K as [D' S].
    destruct (IH cache' D') as [Dn F].
    destruct (serve history cache') as [rest final]. simpl in *.
    split; [exact Dn |]. by constructor.
Qed.

Lemma serve_keeps_data_witness :
  let history :=
    [ {| arrival_upstream := failing_upstream; arrival_request := GET;
         arrival_time := 400000 |};
      {| arrival_upstream := sample_upstream; arrival_request := GET;
         arrival_time := 800000 |};
      {| arrival_upstream := failing_upstream; arrival_request := GET;
         arrival_time := 2000000 |} ] in
  is_Some (MarketOverview.data (@serve evaluation_builtins history (cached 0)).2) ∧
  Forall (λ res, MarketOverview.res_status res = 200%Z)
    (@serve evaluation_builtins history (cached 0)).1.
Proof.
  intros history. apply (@serve_keeps_data evaluation_builtins). by eexists.
Defined.


(** ** The coin-tickers endpoint: outcomes, malformed tickers, ties *)

Definition tickers_failure : CoinTickers.Response :=
  {| CoinTickers.headers := [];
     CoinTickers.res_status := 500;
     CoinTickers.res_body := CoinTickers.Failure "Failed to fetch CoinGecko" |}.

Definition tickers_served (coin : value) (rows : list CoinTickers.TickerRow)
  : CoinTickers.Response :=
  {| CoinTickers.headers :=
       [("Cache-Control", "s-maxage=300, stale-while-revalidate=600");
        ("Access-Control-Allow-Origin", "*")];
     CoinTickers.res_status := 200;
     CoinTickers.res_body := CoinTickers.Tickers coin rows "live-or-cache" |}.

Section tickers_outcomes.
Context `{Builtins}.
Import CoinTickers.

Lemma silent_call_toUpperCase v : silent (call_toUpperCase v).
Proof. by destruct v. Qed.

Lemma silent_keep t : silent (keep t).
Proof.
  unfold keep. destruct (negb (truthy (target t))); [apply silent_ret |].
  apply silent_bind; [apply silent_call_toUpperCase |]. intros upper.
  destruct (negb (includes upper "USD")); [apply silent_ret |].
  destruct (negb (truthy (converted_last t))); [apply silent_ret |].
  apply silent_bind; [apply silent_prop |]. intros usd. apply silent_ret.
Qed.

Lemma silent_project t : silent (project t).
Proof.
  unfold project.
  apply silent_bind; [apply silent_call_toUpperCase |]. intros b.
  apply silent_bind; [apply silent_call_toUpperCase |]. intros q.
  apply silent_bind; [apply silent_prop |]. intros usd. apply silent_ret.
Qed.

Lemma silent_select ts : silent (select ts).
Proof.
  unfold select.
  apply silent_bind; [apply silent_filterM, silent_keep |]. intros kept.
  apply silent_bind; [apply silent_mapM, silent_project |]. intros rows.
  apply silent_ret.
Qed.

(** The handler, case by case. *)
Lemma handler_unfold upstream req :
  let coin := or_else (query_coin req) (VStr "bitcoin") in
  handler upstream req =
    (match upstream coin with
     | None => tickers_failure
     | Some cgRes =>
         if ok cgRes then
           match json cgRes with
           | None => tickers_failure
           | Some doc =>
               match (select (or_empty (tickers doc)) [get_tickers coin]).1 with
               | inl _ => tickers_failure
               | inr rows => tickers_served coin rows
               end
           end
         else
           {| headers := [];
              res_status := 502;
              res_body := UpstreamError "CoinGecko error" (status cgRes) |}
     end, [get_tickers coin]).
Proof.
  intros coin. unfold handler, try_block. fold coin.
  unfold bind at 1. unfold fetch at 1. unfold bind at 1. simpl app.
  destruct (upstream coin) as [cgRes|]; simpl; [| done].
  destruct (ok cgRes); simpl; [| done].
  unfold bind at 1. destruct (json cgRes) as [doc|]; simpl; [| done].
  unfold bind at 1. rewrite (silent_run _ _ (silent_select _)).
  by destruct (select _ _).1.
Qed.
End tickers_outcomes.



Lemma mapM_throws {C A B} (f : A → M C B) (l : list A) log :
  (∀ x, silent (f x)) →
  Exists (λ x, ∃ e, (f x log).1 = inl e) l →
  ∃ e, (mapM f l log).1 = inl e.
Proof.
  intros Hf. induction 1 as [x l [e E] | x l _ IH]; simpl; unfold bind at 1.
  - rewrite (silent_run _ _ (Hf x)), E. by exists e.
  - rewrite (silent_run _ _ (Hf x)). destruct (f x log).1 as [e|y]; [by exists e |].
    unfold bind at 1. rewrite (silent_run _ _ (silent_mapM f l Hf)).
    destruct IH as [e ->]. by exists e.
Qed.

Lemma filterM_throws {C A} (f : A → M C bool) (l : list A) log :
  (∀ x, silent (f x)) →
  Exists (λ x, ∃ e, (f x log).1 = inl e) l →
  ∃ e, (filterM f l log).1 = inl e.
Proof.
  intros Hf. induction 1 as [x l [e E] | x l _ IH]; simpl; unfold bind at 1.
  - rewrite (silent_run _ _ (Hf x)), E. by exists e.
  - rewrite (silent_run _ _ (Hf x)). destruct (f x log).1 as [e|y]; [by exists e |].
    unfold bind at 1. rewrite (silent_run _ _ (silent_filterM f l Hf)).
    destruct IH as [e ->]. by exists e.
Qed.

Section unreadable.
Context `{Builtins}.
Import CoinTickers.

(** A value on which [.toUpperCase()] is called and is not there: it passes
    [||] and is not a string. *)
Definition not_text (v : value) : Prop := truthy v = true ∧ ∀ s, v ≠ VStr s.

Lemma keep_throws t log : not_text (target t) → (keep t log).1 = inl TypeError.
Proof.
  intros [T N]. unfold keep. rewrite T. simpl. unfold bind at 1.
  destruct (target t); try done. by destruct (N s).
Qed.

Lemma project_throws t log : not_text (base t) → (project t log).1 = inl TypeError.
Proof.
  intros [T N]. unfold project, or_else. rewrite T. unfold bind at 1.
  destruct (base t); try done. by destruct (N s).
Qed.

Lemma select_throws ts log :
  Exists (λ t, not_text (target t) ∨ qualifies t = true ∧ not_text (base t)) ts →
  ∃ e, (select ts log).1 = inl e.
Proof.
  intros E. unfold select. unfold bind at 1.
  rewrite (silent_run _ _ (silent_filterM keep ts silent_keep)).
  destruct (filterM keep ts log).1 as [e|kept] eqn:F; [by exists e |].
  assert (filterM keep ts log = (inr kept, log)) as F'
    by (rewrite (silent_run _ _ (silent_filterM keep ts silent_keep)); by rewrite F).
  apply filterM_keep_inv in F' as [_ ->].
  unfold bind at 1.
  rewrite (silent_run _ _ (silent_mapM project _ silent_project)).
  destruct (mapM_throws project (List.filter qualifies ts) log silent_project)
    as [e ->]; [| by exists e].
  apply Exists_exists in E as (t & Ht & [Bad | [Q Bad]]).
  - exfalso. destruct (filterM_throws keep ts log silent_keep) as [e E'].
    + apply Exists_exists. exists t. split; [done |].
      exists TypeError. by apply keep_throws.
    + by rewrite F in E'.
  - apply Exists_exists. exists t. split.
    + apply list_elem_of_In, filter_In. split; [by apply list_elem_of_In | done].
    + exists TypeError. by apply project_throws.
Qed.
End unreadable.

(** X21.  One ticker that cannot be read fails the whole request: when some
    ticker has a target that is not a string (and is not replaced by [||]),
    or qualifies and has such a base, the answer is 500 and no ticker is
    served. *)
Theorem coin_tickers_unreadable `{Builtins}
    (upstream : value → option (FetchResponse CoinTickers.TickersJson))
    (req : CoinTickers.Request) (cgRes : FetchResponse CoinTickers.TickersJson)
    (doc : CoinTickers.TickersJson) :
  let coin := or_else (CoinTickers.query_coin req) (VStr "bitcoin") in
  upstream coin = Some cgRes → ok cgRes = true → json cgRes = Some doc →
  Exists (λ t, not_text (CoinTickers.target t) ∨
               qualifies t = true ∧ not_text (CoinTickers.base t))
    (or_empty (CoinTickers.tickers doc)) →
  CoinTickers.handler upstream req = (tickers_failure, [CoinTickers.get_tickers coin]).
Proof.
  intros coin U O J E. rewrite handler_unfold. cbv zeta. fold coin.
  rewrite U, O, J. by destruct (select_throws _ [CoinTickers.get_tickers coin] E) as [e ->].
Qed.

Definition numbered_ticker : CoinTickers.Ticker :=
  {| CoinTickers.base := VStr "btc";
     CoinTickers.target := VNum (Fin 840);
     CoinTickers.market := VNull;
     CoinTickers.converted_last := VObj [("usd", VNum (Fin 100))];
     CoinTickers.converted_volume := VObj [("usd", VNum (Fin 5))] |}.

Lemma coin_tickers_unreadable_witness :
  @CoinTickers.handler evaluation_builtins
    (λ _, answered {| CoinTickers.tickers := Some [ticker50; numbered_ticker] |})
    {| CoinTickers.query_coin := VStr "ethereum" |} =
  (tickers_failure, [CoinTickers.get_tickers (VStr "ethereum")]).
Proof.
  eapply (@coin_tickers_unreadable evaluation_builtins); try reflexivity.
  apply Exists_cons_tl, Exists_cons_hd. left. split; [reflexivity | discriminate].
Defined.

Lemma StronglySorted_weaken {A} (R R' : A → A → Prop) (l : list A) :
  (∀ x y, R x y → R' x y) → StronglySorted R l → StronglySorted R' l.
Proof.
  intros W. induction 1 as [|x l S IH F]; constructor; [exact IH |].
  eapply Forall_impl; [exact F |]. apply W.
Qed.

Lemma Array_sort_ordered {A} (comparefn : A → A → num) (l : list A) :
  StronglySorted (λ x y, num_gt (comparefn x y) (Fin 0) = false) l →
  Array_sort comparefn l = l.
Proof.
  induction 1 as [|x l S IH F]; simpl; [done |]. rewrite IH.
  destruct l as [|y l]; simpl; [done |].
  apply Forall_cons in F as [F _]. by rewrite F.
Qed.

Section ties.
Context `{Builtins}.
Import CoinTickers.

Lemma descending_not_after a b :
  descending a b → num_gt (by_volume_desc a b) (Fin 0) = false.
Proof.
  unfold descending, by_volume_desc. fold (volume_number a) (volume_number b).
  destruct (volume_number a) as [| | |x], (volume_number b) as [| | |y]; try done.
  rewrite num_ge_Fin. intros L. apply not_true_is_false. intros G.
  apply num_sub_gt_inv in G. lra.
Qed.
End ties.

(** X22.  Qualifying tickers that already come by descending volume keep
    their order, ties included: the answer is their first six rows. *)
Theorem ranked_keeps_order `{Builtins} (ts : list CoinTickers.Ticker) :
  StronglySorted descending (map row_of (List.filter qualifies ts)) →
  ranked ts = take 6 (map row_of (List.filter qualifies ts)).
Proof.
  intros S. unfold ranked, ranked_all. f_equal. apply Array_sort_ordered.
  eapply StronglySorted_weaken; [| exact S]. apply descending_not_after.
Qed.

Lemma ranked_keeps_order_witness :
  let tie := sample_ticker "usdc" VNull 101 50 in
  @ranked evaluation_builtins [ticker50; tie; ticker5] =
    [@row_of evaluation_builtins ticker50; @row_of evaluation_builtins tie;
     @row_of evaluation_builtins ticker5].
Proof.
  intros tie.
  rewrite (@ranked_keeps_order evaluation_builtins); [reflexivity |].
  change (StronglySorted (@descending evaluation_builtins)
            [@row_of evaluation_builtins ticker50; @row_of evaluation_builtins tie;
             @row_of evaluation_builtins ticker5]).
  repeat constructor.
Defined.


(** ** Missing data *)

Section missing_changes.
Context `{Builtins}.
Import MarketOverview.

Lemma is_up_nullish x : nullish x = true → is_up x = false.
Proof. unfold is_up, coalesce. by intros ->. Qed.

Lemma filter_none {A} (f : A → bool) (l : list A) :
  Forall (λ x, f x = false) l → List.filter f l = [].
Proof. induction 1 as [|x l E _ IH]; simpl; [done |]. by rewrite E. Qed.

Lemma breadth_none up c rest :
  Forall (λ x, up x = false) (c :: rest) → (breadth up (c :: rest) == 0)%Q.
Proof.
  intros F. unfold breadth. rewrite (filter_none _ _ F). simpl length.
  unfold Qdiv. change (inject_Z (Z.of_nat 0)) with 0%Q. ring.
Qed.

Lemma pctUp_none up c rest :
  Forall (λ x, up x = false) (c :: rest) →
  binary64 (breadth up (c :: rest)) = Fin 0.
Proof. intros F. by rewrite (binary64_comp _ 0 (breadth_none up c rest F)). Qed.
End missing_changes.

(** X23.  A non-empty list whose assets carry no 24h and no 7d change
    counts none of them as up: without a global change its score is at most
    10 and its state is ["crumbs-everywhere"], not ["unknown"]. *)
Theorem computeMood_without_changes `{Builtins}
    (c : MarketOverview.MarketAsset) (rest : list MarketOverview.MarketAsset)
    (globalJson : value) :
  Forall (λ a,
      nullish (MarketOverview.price_change_percentage_24h_in_currency a) = true ∧
      nullish (MarketOverview.price_change_percentage_7d_in_currency a) = true)
    (c :: rest) →
  MarketOverview.mood_mcapChange24h globalJson = None →
  let m := MarketOverview.computeMood (Some (c :: rest)) globalJson in
  ∃ z : Z,
    MarketOverview.score m = Some (of_Z z) ∧ (0 ≤ z ≤ 10)%Z ∧
    MarketOverview.state m = "crumbs-everywhere" ∧
    MarketOverview.label m = "Crumbs Everywhere".
Proof.
  intros F Hmc m.
  destruct (raw_score_without_global c rest globalJson Hmc) as (s & _ & Es & E).
  rewrite pctUp24h_breadth, pctUp7d_breadth in Es.
  rewrite (pctUp_none up24h), (pctUp_none up7d) in Es.
  2:{ eapply Forall_impl; [exact F |]. intros a [_ N]. by apply is_up_nullish. }
  2:{ eapply Forall_impl; [exact F |]. intros a [N _]. by apply is_up_nullish. }
  replace (breadth_terms (Fin 0) (Fin 0)) with (Fin 10) in Es
    by (vm_compute; reflexivity).
  injection Es as <-.
  destruct (round_clamp_le
              match MarketOverview.mood_leadershipGap30d (c :: rest) with
              | Some gap =>
                  num_sub (Fin 10) (num_mul (Math_max (Fin 0) gap) (Fin (1 # 2)))
              | None => Fin 10
              end 10) as (z & Ez & R); [| lia |].
  { apply blend_without_global_le; [done | apply Qle_refl |].
    intros g. apply leadershipGap30d_not_NaN. }
  rewrite Ez in E.
  destruct (computeMood_band c rest globalJson _ E) as [S B]. fold m in S, B.
  exists z. split; [exact S |]. split; [exact R |].
  assert (band z = ("crumbs-everywhere", "Crumbs Everywhere")) as Bz.
  { unfold band. repeat match goal with
                        | |- context [(?a <=? z)%Z] => destruct (Z.leb_spec a z)
                        end; try lia. done. }
  rewrite Bz in B. by injection B.
Qed.

Definition unpriced (id : string) : MarketOverview.MarketAsset :=
  {| MarketOverview.asset_id := id;
     MarketOverview.asset_name := VStr id;
     MarketOverview.asset_symbol := VUndef;
     MarketOverview.current_price := VUndef;
     MarketOverview.market_cap := VUndef;
     MarketOverview.price_change_percentage_24h_in_currency := VUndef;
     MarketOverview.price_change_percentage_7d_in_currency := VNull;
     MarketOverview.price_change_percentage_30d_in_currency := VUndef |}.

Lemma computeMood_without_changes_witness :
  MarketOverview.state
    (@MarketOverview.computeMood evaluation_builtins
       (Some [unpriced "bitcoin"; unpriced "ethereum"]) VNull) = "crumbs-everywhere".
Proof.
  destruct (@computeMood_without_changes evaluation_builtins
              (unpriced "bitcoin") [unpriced "ethereum"] VNull)
    as (z & _ & _ & S & _); [by repeat constructor | reflexivity | exact S].
Defined.

(** X24.  An empty listing still gives a payload: its mood is the unknown
    one with no neighbours and the ghost key ["unknown"], its snapshot and
    coin rows are empty, and the price request asks for no identifier. *)
Theorem fetchFromCoinGecko_empty_listing `{Builtins}
    (up : MarketOverview.Upstream) (log log' : list MarketOverview.call)
    (p : MarketOverview.AggregatePayload) :
  MarketOverview.fetchFromCoinGecko up log = (inr p, log') →
  MarketOverview.markets p = [] →
  MarketOverview.mood p =
    {| MarketOverview.baseMood := unknown_mood;
       MarketOverview.adjacent := no_neighbours;
       MarketOverview.ghostKey := "unknown" |} ∧
  MarketOverview.top3Snapshot p = [] ∧
  MarketOverview.coins p = [] ∧
  log' = log ++ first_calls ++ [MarketOverview.get_simple_price ""].
Proof.
  intros E Hm. rewrite fetchFromCoinGecko_unfold in E. cbv zeta in E.
  destruct (MarketOverview.markets_answer up) as [m|]; [| by destruct
    (MarketOverview.trending_answer up), (MarketOverview.global_answer up)].
  destruct (MarketOverview.trending_answer up) as [t|];
    [| by destruct (MarketOverview.global_answer up)].
  destruct (MarketOverview.global_answer up) as [g|]; [| done].
  destruct (ok m); cbn [negb] in E; [| done].
  destruct (ok t); cbn [negb] in E; [| done].
  destruct (ok g); cbn [negb] in E; [| done].
  destruct (json m) as [markets|]; [| by destruct (json t), (json g)].
  destruct (json t) as [trendingJson|]; [| by destruct (json g)].
  destruct (json g) as [global|]; [| done].
  destruct (MarketOverview.trending_ids trendingJson _).1 as [e|trending]; [done |].
  destruct (MarketOverview.simple_price_answer up _) as [s|]; [| done].
  destruct (ok s); cbn [negb] in E; [| done].
  destruct (json s) as [converterPrices|]; [| done].
  injection E as <- <-. simpl in Hm. subst markets.
  rewrite <- app_assoc. by repeat split.
Qed.

Definition empty_upstream : MarketOverview.Upstream :=
  {| MarketOverview.markets_answer := answered [];
     MarketOverview.trending_answer := answered (VObj []);
     MarketOverview.global_answer := answered VNull;
     MarketOverview.simple_price_answer := λ _, answered (VObj []) |}.

Lemma fetchFromCoinGecko_empty_listing_witness :
  ∃ p,
    @MarketOverview.fetchFromCoinGecko evaluation_builtins empty_upstream [] =
      (inr p, first_calls ++ [MarketOverview.get_simple_price ""]) ∧
    MarketOverview.coins p = [].
Proof.
  destruct (@MarketOverview.fetchFromCoinGecko evaluation_builtins empty_upstream [])
    as [[e|p] log'] eqn:E; [by vm_compute in E |].
  destruct (@fetchFromCoinGecko_empty_listing evaluation_builtins empty_upstream
              [] log' p E) as (_ & _ & C & ->).
  - vm_compute in E. by injection E as <- _.
  - by exists p.
Defined.
